(** * Zyzzyva word engine: a shallow embedding of [WordEngine.cpp]

    The development follows [src/libzyzzyva/WordEngine.cpp] function by
    function.  Conventions of the embedding:

    - a [QString] is a [string] of 8-bit characters; case mapping acts on the
      ASCII letters, and [QString::operator<] is the code-unit lexicographic
      order, [String.compare];
    - a C++ [int] is a [Z]; the only arithmetic the engine does on them is
      counting and [+1]/[-1] on values bounded by list sizes;
    - a [QStringList] is a [list string], a [std::map] or [QMap] that is only
      looked up is a [gmap], a [std::set] is a [gset]; the [QMap] whose key
      order is observed ([probMap]) is a key-sorted association list;
    - the mutable members of the engine are threaded explicitly; an access
      the C++ leaves undefined (an index out of range, a dereferenced
      [end()]) makes the embedded function return [None];
    - a statement sent to the attribute store is kept as the pieces the
      engine appends to its text; the pieces are the text as long as nothing
      pasted between quotes holds an apostrophe, and what the database
      answers otherwise is a parameter of the table. *)

From Stdlib Require Import ZArith NArith Ascii String List Bool Lia Sorted.
From stdpp Require Import base option list sorting gmap strings.

Import ListNotations.
#[local] Set Warnings "-clear-no-such-hyp".
Local Open Scope string_scope.
Local Open Scope Z_scope.

(** ** Strings, as [QString] is used by the engine *)

Module QStr.

Definition code (c : ascii) : N := N_of_ascii c.

Definition isLower (c : ascii) : bool :=
  ((97 <=? code c) && (code c <=? 122))%N.

Definition isUpper (c : ascii) : bool :=
  ((65 <=? code c) && (code c <=? 90))%N.

Definition isDigit (c : ascii) : bool :=
  ((48 <=? code c) && (code c <=? 57))%N.

(** [\w] of [QRegExp] on 8-bit text: a letter, a digit or the underscore. *)
Definition isWordChar (c : ascii) : bool :=
  isLower c || isUpper c || isDigit c || (code c =? 95)%N.

(** [QChar::isSpace] on 8-bit text. *)
Definition isSpace (c : ascii) : bool :=
  ((9 <=? code c) && (code c <=? 13))%N || (code c =? 32)%N.

Definition toUpperChar (c : ascii) : ascii :=
  if isLower c then ascii_of_N (code c - 32) else c.

Fixpoint toUpper (s : string) : string :=
  match s with
  | EmptyString => EmptyString
  | String c r => String (toUpperChar c) (toUpper r)
  end.

Definition isEmpty (s : string) : bool :=
  match s with EmptyString => true | _ => false end.

(** [s.left (n)] for [0 <= n]. *)
Fixpoint left (n : nat) (s : string) : string :=
  match n, s with
  | O, _ => EmptyString
  | S _, EmptyString => EmptyString
  | S n', String c r => String c (left n' r)
  end.

(** what remains of [s] after its first [n] characters. *)
Fixpoint drop (n : nat) (s : string) : string :=
  match n, s with
  | O, _ => s
  | S _, EmptyString => EmptyString
  | S n', String _ r => drop n' r
  end.

(** [s.replace (index, len, by)]. *)
Definition replace (index len : nat) (by_ s : string) : string :=
  left index s ++ by_ ++ drop (index + len) s.

(** The runs of non-space characters of a string, in order. *)
Fixpoint tokens_go (cur : string) (s : string) : list string :=
  match s with
  | EmptyString => if isEmpty cur then [] else [cur]
  | String c r =>
      if isSpace c
      then (if isEmpty cur then [] else [cur]) ++ tokens_go EmptyString r
      else tokens_go (cur ++ String c EmptyString) r
  end.

Definition tokens (s : string) : list string := tokens_go EmptyString s.

Fixpoint join (sep : string) (l : list string) : string :=
  match l with
  | [] => EmptyString
  | [x] => x
  | x :: r => x ++ sep ++ join sep r
  end.

(** [s.simplified()]: outer white space stripped, inner runs of white
    space replaced by one space. *)
Definition simplified (s : string) : string := join " " (tokens s).

(** [s.section (' ', 0, 0)]: the text before the first space. *)
Fixpoint section0 (s : string) : string :=
  match s with
  | EmptyString => EmptyString
  | String c r => if (code c =? 32)%N then EmptyString else String c (section0 r)
  end.

Definition startsWith (c : ascii) (s : string) : bool :=
  match s with
  | String d _ => (code d =? code c)%N
  | EmptyString => false
  end.

Definition len (s : string) : Z := Z.of_nat (String.length s).

(** [QString::operator<]. *)
Definition lt (a b : string) : Prop := String.compare a b = Lt.

Definition ltb (a b : string) : bool := String.ltb a b.

End QStr.

(** ** [Auxil::getAlphagram] *)

Module Auxil.

Fixpoint insertChar (c : ascii) (s : string) : string :=
  match s with
  | EmptyString => String c EmptyString
  | String d r =>
      if (QStr.code c <=? QStr.code d)%N then String c s
      else String d (insertChar c r)
  end.

(** Modelled from the spec: [Auxil::getAlphagram] is declared in
    [Auxil.h], which is not part of the sources at hand.  The alphagram is
    "the canonical sorted-letter form of a word": the characters of the
    word in ascending order. *)
Fixpoint getAlphagram (s : string) : string :=
  match s with
  | EmptyString => EmptyString
  | String c r => insertChar c (getAlphagram r)
  end.

End Auxil.

(** ** Stems: [WordEngine::importStems] *)

Module Stems.

(** The members [stems] and [stemAlphagrams] of the engine. *)
Record State := mkState {
  stems : gmap Z (list string);
  stemAlphagrams : gmap Z (gset string)
}.

Definition empty : State := mkState ∅ ∅.

(** The locals of the reading loop. *)
Record Loop := mkLoop {
  words : list string;
  alphagrams : gset string;
  imported : Z;
  length : Z
}.

Definition loop0 : Loop := mkLoop [] ∅ 0 0.

(** A line is skipped when it is empty once simplified or starts with
    the comment character. *)
Definition skipped (line : string) : bool :=
  QStr.isEmpty line || QStr.startsWith "#" line.

(** One turn of the [while] loop, on the buffer [readLine] delivered. *)
Definition readStem (a : Loop) (buffer : string) : Loop :=
  let line := QStr.simplified buffer in
  if skipped line then a
  else
    let word := QStr.section0 line in
    let length' := if length a =? 0 then QStr.len word else length a in
    if negb (length' =? QStr.len word)
    then mkLoop (words a) (alphagrams a) (imported a) length'
    else mkLoop (words a ++ [word])%list
                ({[ Auxil.getAlphagram word ]} ∪ alphagrams a)
                (imported a + 1) length'.

(** The loop runs while [readLine] returns a positive count, that is until
    the first empty buffer. *)
Fixpoint readStems (a : Loop) (file : list string) : Loop :=
  match file with
  | [] => a
  | buffer :: rest =>
      if QStr.isEmpty buffer then a else readStems (readStem a buffer) rest
  end.

(** [importStems]: [file] is [None] when the file cannot be opened, and
    otherwise the buffers [readLine] delivers.  The result is [None] when
    the C++ dereferences [stemAlphagrams.end()]. *)
Definition importStems (file : option (list string)) (st : State)
  : option (Z * State) :=
  match file with
  | None => Some (-1, st)
  | Some buffers =>
      let a := readStems loop0 buffers in
      match stems st !! length a with
      | None =>
          Some (imported a,
                mkState (<[length a := words a]> (stems st))
                        (match stemAlphagrams st !! length a with
                         | None => <[length a := alphagrams a]> (stemAlphagrams st)
                         | Some _ => stemAlphagrams st
                         end))
      | Some old =>
          match stemAlphagrams st !! length a with
          | None => None
          | Some oldSet =>
              Some (imported a,
                    mkState (<[length a := (old ++ words a)%list]> (stems st))
                            (<[length a := oldSet ∪ alphagrams a]> (stemAlphagrams st)))
          end
      end
  end.

(** The two maps are filled together. *)
Definition wf (st : State) : Prop :=
  ∀ n : Z, is_Some (stems st !! n) ↔ is_Some (stemAlphagrams st !! n).

(** The entries of a file: the first token of every line that is neither
    empty nor a comment, up to the end of the file. *)
Fixpoint entries (file : list string) : list string :=
match file with
| [] => []
| buffer :: rest =>
    if QStr.isEmpty buffer then []
    else if skipped (QStr.simplified buffer) then entries rest
    else QStr.section0 (QStr.simplified buffer) :: entries rest
end.

(** The length of the first entry of a file, [0] when it has none. *)
Definition firstLength (file : list string) : Z :=
match entries file with
| [] => 0
| w :: _ => QStr.len w
end.

(** The entries of a file that have the length of its first entry. *)
Definition accepted (file : list string) : list string :=
List.filter (λ w, QStr.len w =? firstLength file) (entries file).

Definition alphagramSet (l : list string) : gset string :=
list_to_set (map Auxil.getAlphagram l).

(** *** The reading loop *)

Definition unspaced (t : string) : Prop :=
match t with
| String c _ => QStr.isSpace c = false
| EmptyString => False
end.

Lemma unspaced_app t c : t = "" ∨ unspaced t → unspaced (t ++ String c "") ∨ QStr.isSpace c = true.
Proof.
destruct (QStr.isSpace c) eqn:E; [by right|left].
destruct t as [|d t]; simpl; [done|].
destruct H as [?|?]; [done|]. exact H.
Qed.

Lemma tokens_go_unspaced s : ∀ cur, cur = "" ∨ unspaced cur → Forall unspaced (QStr.tokens_go cur s).
Proof.
induction s as [|c s IH]; intros cur Hcur; simpl.
- destruct cur; simpl; [constructor|].
  destruct Hcur as [?|?]; [done|]. by repeat constructor.
- destruct (QStr.isSpace c) eqn:E.
  + apply Forall_app; split; [|apply IH; by left].
    destruct cur; simpl; [constructor|].
    destruct Hcur as [?|?]; [done|]. by repeat constructor.
  + apply IH. right. destruct (unspaced_app cur c Hcur) as [?|?]; [done|congruence].
Qed.

Lemma simplified_head buffer :
  skipped (QStr.simplified buffer) = false →
  ∃ c r, QStr.simplified buffer = String c r ∧ QStr.isSpace c = false.
Proof.
unfold QStr.simplified, QStr.tokens.
pose proof (tokens_go_unspaced buffer "" (or_introl eq_refl)) as H.
destruct (QStr.tokens_go "" buffer) as [|t ts]; [done|].
apply Forall_cons in H as [Ht _].
destruct t as [|c t]; [done|]. simpl in Ht. intros _.
destruct ts; simpl; eauto.
Qed.

Lemma entry_nonempty buffer :
  skipped (QStr.simplified buffer) = false →
  0 < QStr.len (QStr.section0 (QStr.simplified buffer)).
Proof.
intros (c & r & -> & Hc)%simplified_head. simpl.
unfold QStr.isSpace in Hc. apply orb_false_iff in Hc as [_ ->].
unfold QStr.len. simpl. lia.
Qed.

Lemma entries_nonempty file : Forall (λ w, 0 < QStr.len w) (entries file).
Proof.
induction file as [|b rest IH]; simpl; [constructor|].
destruct (QStr.isEmpty b); [constructor|].
destruct (skipped _) eqn:E; [done|].
constructor; [by apply entry_nonempty|done].
Qed.

(** Once the length is fixed, the loop keeps the entries of that length. *)
Lemma readStems_fixed file : ∀ a,
  length a ≠ 0 →
  let kept := List.filter (λ w, QStr.len w =? length a) (entries file) in
  readStems a file =
    mkLoop (words a ++ kept) (alphagrams a ∪ alphagramSet kept)
           (imported a + Z.of_nat (List.length kept)) (length a).
Proof.
induction file as [|b rest IH]; intros a Ha; simpl.
- destruct a; simpl. rewrite app_nil_r, Z.add_0_r. f_equal. set_solver.
- destruct (QStr.isEmpty b).
  { destruct a; simpl. rewrite app_nil_r, Z.add_0_r. f_equal. set_solver. }
  unfold readStem. destruct (skipped _) eqn:E; [by apply IH|].
  set (word := QStr.section0 (QStr.simplified b)). cbv zeta.
  pose proof Ha as Ha'. apply Z.eqb_neq in Ha' as ->.
  cbn [List.filter]. rewrite (Z.eqb_sym (QStr.len word)).
  destruct (length a =? QStr.len word) eqn:E'; simpl.
  + rewrite IH by done. simpl. rewrite <- app_assoc. simpl. f_equal.
    * unfold alphagramSet. simpl. set_solver.
    * lia.
  + rewrite IH by done. done.
Qed.

(** What the loop computes on a whole file. *)
Lemma readStems_file file :
  readStems loop0 file =
    mkLoop (accepted file) (alphagramSet (accepted file))
           (Z.of_nat (List.length (accepted file))) (firstLength file).
Proof.
unfold accepted, firstLength.
induction file as [|b rest IH]; simpl; [done|].
destruct (QStr.isEmpty b); [done|].
unfold readStem. destruct (skipped _) eqn:E; [done|]. simpl.
rewrite Z.eqb_refl. simpl.
pose proof (entry_nonempty b E) as Hpos.
rewrite readStems_fixed by (simpl; lia). simpl.
f_equal; [unfold alphagramSet; simpl; set_solver | lia].
Qed.

Lemma accepted_length file : Forall (λ w, QStr.len w = firstLength file) (accepted file).
Proof.
unfold accepted. apply List.Forall_forall. intros w [_ H%Z.eqb_eq]%filter_In. done.
Qed.

Lemma wf_insert st k ws s :
  wf st → wf (mkState (<[k := ws]> (stems st)) (<[k := s]> (stemAlphagrams st))).
Proof.
intros Hwf n. simpl. destruct (decide (k = n)) as [->|Hn].
- rewrite !lookup_insert_eq. split; eauto.
- rewrite !lookup_insert_ne by done. apply Hwf.
Qed.

(** One call: what is returned and what the two maps hold afterwards. *)
Lemma importStems_call file st :
  wf st →
  ∃ st',
    importStems (Some file) st = Some (Z.of_nat (List.length (accepted file)), st')
    ∧ stems st' !! firstLength file
      = Some (default [] (stems st !! firstLength file) ++ accepted file)%list
    ∧ stemAlphagrams st' !! firstLength file
      = Some (default ∅ (stemAlphagrams st !! firstLength file)
              ∪ alphagramSet (accepted file))
    ∧ (∀ n, n ≠ firstLength file →
         stems st' !! n = stems st !! n
         ∧ stemAlphagrams st' !! n = stemAlphagrams st !! n)
    ∧ wf st'.
Proof.
intros Hwf. unfold importStems. rewrite readStems_file. simpl.
pose proof (Hwf (firstLength file)) as [Hk1 Hk2].
destruct (stems st !! firstLength file) as [old|] eqn:E1;
  destruct (stemAlphagrams st !! firstLength file) as [oldSet|] eqn:E2.
- eexists; split; [done|]. simpl. rewrite !lookup_insert_eq.
  split; [done|]. split; [done|]. split; [|by apply wf_insert].
  intros n Hn. by rewrite !lookup_insert_ne.
- destruct Hk1 as [? [=]]. eauto.
- destruct Hk2 as [? [=]]. eauto.
- eexists; split; [done|]. simpl. rewrite !lookup_insert_eq.
  split; [done|]. split; [f_equal; set_solver|]. split; [|by apply wf_insert].
  intros n Hn. by rewrite !lookup_insert_ne.
Qed.

Lemma wf_empty : wf empty.
Proof. intros n. unfold empty; simpl. by rewrite !lookup_empty. Qed.

(** Two stem files of length three; the first holds a comment, a blank line,
    an entry of another length and an entry followed by a remark. *)
Definition sixes : list string :=
[ "# stems" ++ String "010" ""; String "010" ""; "ABC" ++ String "010" "";
  "ABCD" ++ String "010" ""; "  CAB  top stem" ++ String "010" "" ].

Definition moreSixes : list string :=
[ "XYZ" ++ String "010" ""; "BCA" ++ String "010" ""; "XY" ].

Example accepted_sixes : accepted sixes = ["ABC"; "CAB"].
Proof. reflexivity. Qed.

Example accepted_moreSixes : accepted moreSixes = ["XYZ"; "BCA"].
Proof. reflexivity. Qed.

(** C9. [importStems] keeps exactly the entries (first tokens of the lines
    that are neither blank nor comments) whose length is that of the first
    entry of the file, and returns how many it kept; a second call on a file
    whose first entry has the same length leaves, under that length, the
    stems of the first call followed by those of the second, and the union of
    the alphagram sets: the earlier load is extended, not replaced. *)
Theorem importStems_discards_counts_and_merges
    (file1 file2 : list string) (st0 : State) :
  wf st0 →
  firstLength file2 = firstLength file1 →
  let L := firstLength file1 in
  ∃ st1 st2,
    importStems (Some file1) st0
      = Some (Z.of_nat (List.length (accepted file1)), st1)
    ∧ importStems (Some file2) st1
      = Some (Z.of_nat (List.length (accepted file2)), st2)
    ∧ (∀ w, In w (accepted file1) ↔ In w (entries file1) ∧ QStr.len w = L)
    ∧ (∀ w, In w (accepted file2) ↔ In w (entries file2) ∧ QStr.len w = L)
    ∧ stems st1 !! L
      = Some (default [] (stems st0 !! L) ++ accepted file1)%list
    ∧ stems st2 !! L
      = Some (default [] (stems st0 !! L) ++ accepted file1 ++ accepted file2)%list
    ∧ stemAlphagrams st2 !! L
      = Some (default ∅ (stemAlphagrams st0 !! L)
              ∪ alphagramSet (accepted file1) ∪ alphagramSet (accepted file2))
    ∧ (∀ n, n ≠ L → stems st2 !! n = stems st0 !! n
                    ∧ stemAlphagrams st2 !! n = stemAlphagrams st0 !! n).
Proof.
intros Hwf HL L.
destruct (importStems_call file1 st0 Hwf) as (st1 & H1 & Hs1 & Ha1 & Ho1 & Hwf1).
destruct (importStems_call file2 st1 Hwf1) as (st2 & H2 & Hs2 & Ha2 & Ho2 & _).
rewrite HL in Hs2, Ha2, Ho2. fold L in Hs1, Ha1, Ho1, Hs2, Ha2, Ho2.
exists st1, st2. split; [exact H1|]. split; [exact H2|].
split; [|split].
- intros w. unfold accepted. rewrite filter_In, Z.eqb_eq. done.
- intros w. unfold accepted. rewrite filter_In, Z.eqb_eq, HL. done.
- split; [exact Hs1|]. split; [|split].
  + rewrite Hs2, Hs1. simpl. by rewrite <- app_assoc.
  + rewrite Ha2, Ha1. done.
  + intros n Hn. destruct (Ho1 n Hn) as [<- <-]. by apply Ho2.
Qed.

Lemma importStems_merges_witness :
  ∃ st1 st2,
    importStems (Some sixes) empty
      = Some (Z.of_nat (List.length (accepted sixes)), st1)
    ∧ importStems (Some moreSixes) st1
      = Some (Z.of_nat (List.length (accepted moreSixes)), st2)
    ∧ (∀ w, In w (accepted sixes) ↔ In w (entries sixes) ∧ QStr.len w = firstLength sixes)
    ∧ (∀ w, In w (accepted moreSixes)
            ↔ In w (entries moreSixes) ∧ QStr.len w = firstLength sixes)
    ∧ stems st1 !! firstLength sixes
      = Some (default [] (stems empty !! firstLength sixes) ++ accepted sixes)%list
    ∧ stems st2 !! firstLength sixes
      = Some (default [] (stems empty !! firstLength sixes)
              ++ accepted sixes ++ accepted moreSixes)%list
    ∧ stemAlphagrams st2 !! firstLength sixes
      = Some (default ∅ (stemAlphagrams empty !! firstLength sixes)
              ∪ alphagramSet (accepted sixes) ∪ alphagramSet (accepted moreSixes))
    ∧ (∀ n, n ≠ firstLength sixes →
            stems st2 !! n = stems empty !! n
            ∧ stemAlphagrams st2 !! n = stemAlphagrams empty !! n).
Proof.
apply (importStems_discards_counts_and_merges sixes moreSixes empty).
- exact wf_empty.
- reflexivity.
Defined.

End Stems.

(** ** Definitions and their links: [WordEngine::replaceDefinitionLinks] *)

Module Links.

(** A successful [QRegExp::indexIn]: where the match starts, the two
    captures and [matchedLength()]. *)
Record Match := mkMatch {
  index : nat;
  cap1 : string;
  cap2 : string;
  matchedLength : nat
}.

(** The longest prefix of word characters, and what follows it: how a greedy
    [\w+] matches when the next pattern character is not a word character. *)
Fixpoint spanWord (s : string) : string * string :=
match s with
| EmptyString => (EmptyString, EmptyString)
| String c r =>
    if QStr.isWordChar c
    then let (w, rest) := spanWord r in (String c w, rest)
    else (EmptyString, s)
end.

Definition isChar (c d : ascii) : bool := (QStr.code c =? QStr.code d)%N.

(** A match of [open (\w+)=(\w+) close] anchored at the start of [s]. *)
Definition matchHere (open close : ascii) (s : string) : option (string * string) :=
match s with
| String c r =>
    if isChar c open then
      let (w1, r1) := spanWord r in
      if QStr.isEmpty w1 then None
      else match r1 with
           | String e r2 =>
               if isChar e "=" then
                 let (w2, r3) := spanWord r2 in
                 if QStr.isEmpty w2 then None
                 else match r3 with
                      | String d _ => if isChar d close then Some (w1, w2) else None
                      | EmptyString => None
                      end
               else None
           | EmptyString => None
           end
    else None
| EmptyString => None
end.

(** [regex.indexIn (s, 0)], the leftmost match; [from] counts the characters
    already passed. *)
Fixpoint indexFrom (open close : ascii) (from : nat) (s : string) : option Match :=
match matchHere open close s with
| Some (w1, w2) =>
    Some (mkMatch from w1 w2 (String.length w1 + String.length w2 + 3))
| None =>
    match s with
    | EmptyString => None
    | String _ r => indexFrom open close (S from) r
    end
end.

(** [followRegex], [\{(\w+)=(\w+)\}], and [replaceRegex], [\<(\w+)=(\w+)\>]. *)
Definition followRegex (s : string) : option Match := indexFrom "{" "}" 0 s.
Definition replaceRegex (s : string) : option Match := indexFrom "<" ">" 0 s.

Section Resolver.

(** [getSubDefinition (word, pos)] reads the definitions in memory or the
    attribute store; the resolver only calls it, so it is a parameter here
    and the results hold whatever the definitions are, cyclic or not. *)
Variable getSubDefinition : string → string → string.

(** The marker found by one call: which of the two expressions matched
    ([true] for [followRegex]) and the match. *)
Definition findMarker (definition : string) : option (bool * Match) :=
match followRegex definition with
| Some m => Some (true, m)
| None =>
    match replaceRegex definition with
    | Some m => Some (false, m)
    | None => None
    end
end.

(** The text that takes the place of the marker; [useFollow] is the flag
    after the match was examined. *)
Definition replacementText (isFollow useFollow : bool) (word pos : string)
    (maxDepth : Z) : string :=
if maxDepth =? 0 then word
else
  let upper := QStr.toUpper word in
  let subdef := getSubDefinition upper pos in
  if QStr.isEmpty subdef then (if useFollow then word else upper)
  else if useFollow then (if isFollow then word ++ " (" ++ subdef ++ ")" else subdef)
  else upper ++ ", " ++ getSubDefinition upper pos.

(** [replaceDefinitionLinks (definition, maxDepth, useFollow)].  Every call
    of the C++ function takes one unit of [fuel]; [None] means that the
    calls did not come to an end within the fuel given. *)
Fixpoint replaceDefinitionLinks (fuel : nat) (definition : string)
    (maxDepth : Z) (useFollow : bool) : option string :=
match fuel with
| O => None
| S fuel' =>
    match findMarker definition with
    | None => Some definition
    | Some (isFollow, m) =>
        let useFollow := isFollow || useFollow in
        let replacement :=
          replacementText isFollow useFollow (cap1 m) (cap2 m) maxDepth in
        let modified :=
          QStr.replace (index m) (matchedLength m) replacement definition in
        if maxDepth =? 0 then Some modified
        else replaceDefinitionLinks fuel' modified (maxDepth - 1) useFollow
    end
end.

(** One substitution, as a call performs it. *)
Record Substitution := mkSubstitution {
  byFollowRegex : bool;
  withUseFollow : bool;
  atDepth : Z;
  linkWord : string;
  linkPos : string;
  replacement : string
}.

(** The same function, which also lists the substitutions of the call chain
    in the order they are made. *)
Fixpoint traceDefinitionLinks (fuel : nat) (definition : string)
    (maxDepth : Z) (useFollow : bool) : option (string * list Substitution) :=
match fuel with
| O => None
| S fuel' =>
    match findMarker definition with
    | None => Some (definition, [])
    | Some (isFollow, m) =>
        let useFollow := isFollow || useFollow in
        let replacement :=
          replacementText isFollow useFollow (cap1 m) (cap2 m) maxDepth in
        let modified :=
          QStr.replace (index m) (matchedLength m) replacement definition in
        let here :=
          mkSubstitution isFollow useFollow maxDepth (cap1 m) (cap2 m) replacement in
        if maxDepth =? 0 then Some (modified, [here])
        else
          match traceDefinitionLinks fuel' modified (maxDepth - 1) useFollow with
          | Some (result, later) => Some (result, here :: later)
          | None => None
          end
    end
end.

(** The follow style, written out on its own and not through
    [replacementText]: the word as the marker writes it, with the linked
    definition after it in parentheses, for a follow marker; the linked
    definition in place of the marker for a replace marker; the word alone
    when there is nothing to put (no linked definition, or the depth used
    up).  The replace style writes the word in upper case, then a comma and
    the linked definition. *)
Definition followStyle (byFollow : bool) (word pos : string) (depth : Z) : string :=
if depth =? 0 then word
else if QStr.isEmpty (getSubDefinition (QStr.toUpper word) pos) then word
else if byFollow
     then word ++ " (" ++ getSubDefinition (QStr.toUpper word) pos ++ ")"
     else getSubDefinition (QStr.toUpper word) pos.

(** The text that results when the substitutions of a list are made one
    after the other, each in place of the first marker of the text as it
    then stands, which must be the marker the substitution records. *)
Fixpoint replay (definition : string) (trace : list Substitution) : option string :=
match trace with
| [] => Some definition
| e :: later =>
    match findMarker definition with
    | Some (isFollow, m) =>
        if Bool.eqb isFollow (byFollowRegex e)
           && String.eqb (cap1 m) (linkWord e) && String.eqb (cap2 m) (linkPos e)
        then replay (QStr.replace (index m) (matchedLength m) (replacement e) definition)
               later
        else None
    | None => None
    end
end.

(** *** Termination *)

Lemma replaceDefinitionLinks_step fuel definition maxDepth useFollow :
  replaceDefinitionLinks (S fuel) definition maxDepth useFollow =
  match findMarker definition with
  | None => Some definition
  | Some (isFollow, m) =>
      let modified :=
        QStr.replace (index m) (matchedLength m)
          (replacementText isFollow (isFollow || useFollow) (cap1 m) (cap2 m) maxDepth)
          definition in
      if maxDepth =? 0 then Some modified
      else replaceDefinitionLinks fuel modified (maxDepth - 1) (isFollow || useFollow)
  end.
Proof. reflexivity. Qed.

Lemma replaceDefinitionLinks_enough (n : nat) : ∀ definition useFollow fuel,
  (n < fuel)%nat →
  replaceDefinitionLinks fuel definition (Z.of_nat n) useFollow
    = replaceDefinitionLinks (S n) definition (Z.of_nat n) useFollow
  ∧ is_Some (replaceDefinitionLinks (S n) definition (Z.of_nat n) useFollow).
Proof.
induction n as [|n IH]; intros definition useFollow fuel Hfuel;
  (destruct fuel as [|fuel]; [lia|]); rewrite !replaceDefinitionLinks_step;
  destruct (findMarker definition) as [[isFollow m]|]; try (split; eauto; fail).
cbv zeta. assert ((Z.of_nat (S n) =? 0) = false) as -> by (apply Z.eqb_neq; lia).
replace (Z.of_nat (S n) - 1) with (Z.of_nat n) by lia.
split; [|apply (IH _ _ (S n)); lia].
apply IH. lia.
Qed.

(** *** The list of substitutions *)

Lemma traceDefinitionLinks_result fuel : ∀ definition maxDepth useFollow,
  replaceDefinitionLinks fuel definition maxDepth useFollow
    = fst <$> traceDefinitionLinks fuel definition maxDepth useFollow.
Proof.
induction fuel as [|fuel IH]; intros definition maxDepth useFollow; [done|].
simpl. destruct (findMarker definition) as [[isFollow m]|]; [|done].
destruct (maxDepth =? 0); [done|]. rewrite IH.
by destruct (traceDefinitionLinks fuel _ _ _) as [[? ?]|].
Qed.

(** What a substitution records is what the call computed. *)
Definition recorded (e : Substitution) : Prop :=
replacement e
  = replacementText (byFollowRegex e) (withUseFollow e) (linkWord e) (linkPos e)
      (atDepth e).

Lemma traceDefinitionLinks_recorded fuel : ∀ definition maxDepth useFollow result trace,
  traceDefinitionLinks fuel definition maxDepth useFollow = Some (result, trace) →
  Forall recorded trace.
Proof.
induction fuel as [|fuel IH]; intros definition maxDepth useFollow result trace; [done|].
simpl. destruct (findMarker definition) as [[isFollow m]|]; [|by intros [= <- <-]].
destruct (maxDepth =? 0).
- intros [= <- <-]. by repeat constructor.
- destruct (traceDefinitionLinks fuel _ _ _) as [[r later]|] eqn:E; [|done].
  intros [= <- <-]. constructor; [done|]. by eapply IH.
Qed.

(** A call entered with the flag set makes every substitution with it set. *)
Lemma traceDefinitionLinks_true fuel : ∀ definition maxDepth result trace,
  traceDefinitionLinks fuel definition maxDepth true = Some (result, trace) →
  Forall (λ e, withUseFollow e = true) trace.
Proof.
induction fuel as [|fuel IH]; intros definition maxDepth result trace; [done|].
simpl. destruct (findMarker definition) as [[isFollow m]|]; [|by intros [= <- <-]].
rewrite orb_true_r. destruct (maxDepth =? 0).
- intros [= <- <-]. by repeat constructor.
- destruct (traceDefinitionLinks fuel _ _ _) as [[r later]|] eqn:E; [|done].
  intros [= <- <-]. constructor; [done|]. by eapply IH.
Qed.

(** The substitutions listed are those that make the result. *)
Lemma traceDefinitionLinks_replay fuel : ∀ definition maxDepth useFollow result trace,
  traceDefinitionLinks fuel definition maxDepth useFollow = Some (result, trace) →
  replay definition trace = Some result.
Proof.
induction fuel as [|fuel IH]; intros definition maxDepth useFollow result trace; [done|].
simpl. destruct (findMarker definition) as [[isFollow m]|] eqn:E;
  [|by intros [= <- <-]].
destruct (maxDepth =? 0).
- intros [= <- <-]. simpl. by rewrite E, eqb_reflx, !String.eqb_refl.
- destruct (traceDefinitionLinks fuel _ _ _) as [[r later]|] eqn:Et; [|done].
  intros [= <- <-]. simpl. rewrite E, eqb_reflx, !String.eqb_refl. simpl.
  by eapply IH.
Qed.

(** With the flag set the text of a substitution is the follow-style one. *)
Lemma replacementText_follow (isFollow : bool) (word pos : string) (maxDepth : Z) :
  replacementText isFollow true word pos maxDepth
  = followStyle isFollow word pos maxDepth.
Proof.
unfold replacementText, followStyle. destruct (maxDepth =? 0); [done|].
by destruct (QStr.isEmpty _).
Qed.

(** The substitutions from one made with the flag, or on a follow marker:
    all are made with the flag. *)
Lemma traceDefinitionLinks_after fuel : ∀ definition maxDepth useFollow result before e after,
  traceDefinitionLinks fuel definition maxDepth useFollow
    = Some (result, (before ++ e :: after)%list) →
  byFollowRegex e = true ∨ withUseFollow e = true →
  Forall (λ e', withUseFollow e' = true) (e :: after).
Proof.
induction fuel as [|fuel IH];
  intros definition maxDepth useFollow result before e after; [done|].
simpl. destruct (findMarker definition) as [[isFollow m]|].
2:{ intros [= _ H]. by destruct before. }
destruct (maxDepth =? 0).
- intros [= _ H] He. destruct before as [|? [|? ?]]; simplify_eq/=.
  repeat constructor. simpl. destruct He as [->|He]; [done|exact He].
- destruct (traceDefinitionLinks fuel _ _ _) as [[r later]|] eqn:E; [|done].
  intros [= _ H] He. destruct before as [|b before]; simplify_eq/=.
  + assert (isFollow || useFollow = true) as Hflag
      by (destruct He as [->|He]; [done|exact He]).
    constructor; [done|]. rewrite Hflag in E.
    by eapply traceDefinitionLinks_true.
  + by eapply IH.
Qed.

End Resolver.

(** *** [WordEngine::getSubDefinition] *)

Fixpoint isPrefix (p s : string) : bool :=
match p, s with
| EmptyString, _ => true
| String _ _, EmptyString => false
| String c p', String d s' => isChar c d && isPrefix p' s'
end.

(** [s.indexOf (pat)], counted from [from]. *)
Fixpoint indexOf (pat : string) (from : nat) (s : string) : option nat :=
if isPrefix pat s then Some from
else match s with
     | EmptyString => None
     | String _ r => indexOf pat (S from) r
     end.

(** [s.split (sep)] for a separator that is not empty; [skip] counts the
    characters of a separator still to pass. *)
Fixpoint splitGo (sep : string) (skip : nat) (cur s : string) : list string :=
match s with
| EmptyString => [cur]
| String c r =>
    match skip with
    | S k => splitGo sep k cur r
    | O =>
        if isPrefix sep s
        then cur :: splitGo sep (String.length sep - 1) EmptyString r
        else splitGo sep O (cur ++ String c EmptyString) r
    end
end.

Definition split (sep s : string) : list string := splitGo sep O EmptyString s.

(** [posRegex], [\[(\w+)]: where it matches first, and its capture. *)
Fixpoint posRegex (from : nat) (s : string) : option (nat * string) :=
match s with
| EmptyString => None
| String c r =>
    if isChar c "[" && negb (QStr.isEmpty (fst (spanWord r)))
    then Some (from, fst (spanWord r))
    else posRegex (S from) r
end.

(** [def.left (def.indexOf (pat))]; [left] of a negative count is the whole
    string. *)
Definition leftOf (pat def : string) : string :=
match indexOf pat 0 def with
| Some i => QStr.left i def
| None => def
end.

(** The member [definitions]: for a word, its definitions by part of speech,
    in the order [find] meets them. *)
Definition Definitions := gmap string (list (string * string)).

(** [dbOpen] is [db.isOpen()] and [getDefinition w] is
    [getDefinition (w, false)]. *)
Definition getSubDefinition (dbOpen : bool) (getDefinition : string → string)
    (definitions : Definitions) (word pos : string) : string :=
if dbOpen then
  let definition := getDefinition word in
  if QStr.isEmpty definition then EmptyString
  else
    let candidates :=
      List.filter
        (λ def,
           match posRegex 0 def with
           | Some (i, p) =>
               (0 <? i)%nat && String.eqb p pos
               && negb (QStr.isEmpty (QStr.simplified (leftOf "[" def)))
           | None => false
           end)
        (split " / " definition) in
    match candidates with
    | def :: _ => QStr.simplified (leftOf "[" def)
    | [] => EmptyString
    end
else
  match definitions !! word with
  | None => EmptyString
  | Some mmap =>
      match List.find (λ e, String.eqb (fst e) pos) mmap with
      | None => EmptyString
      | Some (_, def) => leftOf " [" def
      end
  end.

(** *** A lexicon whose definitions refer to each other in a circle *)

Definition circular : Definitions :=
{[ "LOOP" := [("n", "a ring, also {hoop=n} [n LOOPS]")];
   "HOOP" := [("n", "<loop=n> [n HOOPS]")] ]}.

Definition circularSub : string → string → string :=
getSubDefinition false (λ _, EmptyString) circular.

Example circular_depth0 :
  replaceDefinitionLinks circularSub 1 "see {loop=n} [n]" 0 false
  = Some "see loop [n]".
Proof. vm_compute. reflexivity. Qed.

Example circular_depth3 :
  replaceDefinitionLinks circularSub 4 "see {loop=n} [n]" 3 false
  = Some "see loop (a ring, also hoop (a ring, also hoop)) [n]".
Proof. vm_compute. reflexivity. Qed.

(** Entered through a replace marker the same data is written in the other
    style, until the first follow marker is met. *)
Example circular_replace_first :
  replaceDefinitionLinks circularSub 4 "<hoop=n> [n]" 2 false
  = Some "HOOP, LOOP, a ring, also hoop [n]".
Proof. vm_compute. reflexivity. Qed.

(** A definition that names itself. *)
Definition selfish : Definitions :=
{[ "SELF" := [("n", "<self=n> [n SELVES]")] ]}.

Definition selfishSub : string → string → string :=
getSubDefinition false (λ _, EmptyString) selfish.

(** The depth is what ends the calls: below zero it never reaches zero, and
    on the self-naming definition the calls go on whatever the fuel. *)
Lemma replaceDefinitionLinks_negative_depth fuel : ∀ maxDepth,
  maxDepth < 0 →
  replaceDefinitionLinks selfishSub fuel "<self=n>" maxDepth true = None.
Proof.
induction fuel as [|fuel IH]; intros maxDepth Hd; [done|].
rewrite replaceDefinitionLinks_step.
change (findMarker "<self=n>") with (Some (false, mkMatch 0 "self" "n" 8)).
cbv zeta. unfold replacementText.
assert ((maxDepth =? 0) = false) as -> by (apply Z.eqb_neq; lia).
change (selfishSub (QStr.toUpper (cap1 (mkMatch 0 "self" "n" 8)))
          (cap2 (mkMatch 0 "self" "n" 8))) with "<self=n>".
simpl. apply IH. lia.
Qed.

(** C5. For every definition text, whatever the definitions of the lexicon
    are, and every depth [maxDepth >= 0], the calls of
    [replaceDefinitionLinks] come to an end after at most [maxDepth + 1] of
    them and return a string; and at depth zero a marker that is still there
    is replaced by the word it names, nothing more being expanded. *)
Theorem replaceDefinitionLinks_terminates
    (getSubDefinition : string → string → string)
    (definition : string) (maxDepth : Z) (useFollow : bool) :
  0 ≤ maxDepth →
  (∃ result, ∀ fuel, (Z.to_nat maxDepth < fuel)%nat →
     replaceDefinitionLinks getSubDefinition fuel definition maxDepth useFollow
       = Some result)
  ∧ (∀ isFollow m fuel,
       findMarker definition = Some (isFollow, m) →
       replaceDefinitionLinks getSubDefinition (S fuel) definition 0 useFollow
         = Some (QStr.replace (index m) (matchedLength m) (cap1 m) definition)).
Proof.
intros Hd. split.
- destruct (replaceDefinitionLinks_enough getSubDefinition (Z.to_nat maxDepth)
              definition useFollow (S (Z.to_nat maxDepth)) ltac:(lia))
    as [_ [result Hresult]].
  exists result. intros fuel Hfuel.
  destruct (replaceDefinitionLinks_enough getSubDefinition (Z.to_nat maxDepth)
              definition useFollow fuel Hfuel) as [Heq _].
  rewrite Z2Nat.id in Heq, Hresult by done. by rewrite Heq.
- intros isFollow m fuel Hm. rewrite replaceDefinitionLinks_step, Hm. done.
Qed.

Lemma replaceDefinitionLinks_terminates_witness :
  (∃ result, ∀ fuel, (Z.to_nat 3 < fuel)%nat →
     replaceDefinitionLinks selfishSub fuel "one's <self=n>" 3 false = Some result)
  ∧ (∀ isFollow m fuel,
       findMarker "one's <self=n>" = Some (isFollow, m) →
       replaceDefinitionLinks selfishSub (S fuel) "one's <self=n>" 0 false
         = Some (QStr.replace (index m) (matchedLength m) (cap1 m) "one's <self=n>")).
Proof.
apply (replaceDefinitionLinks_terminates selfishSub "one's <self=n>" 3 false).
lia.
Defined.

Example selfish_depth3 :
  replaceDefinitionLinks selfishSub 4 "one's <self=n>" 3 false
  = Some "one's SELF, SELF, SELF, self".
Proof. vm_compute. reflexivity. Qed.

(** A run that starts on a replace marker and meets a follow marker at its
    third substitution. *)
Definition mixedRun : option (string * list Substitution) :=
traceDefinitionLinks circularSub 5 "<hoop=n> [n]" 4 false.

Definition mixedResult : string :=
Eval vm_compute in match mixedRun with Some (r, _) => r | None => EmptyString end.

Definition mixedTrace : list Substitution :=
Eval vm_compute in match mixedRun with Some (_, t) => t | None => [] end.

Example mixedTrace_flags :
  map (λ e, (byFollowRegex e, withUseFollow e, replacement e)) mixedTrace
  = [ (false, false, "HOOP, <loop=n>");
      (false, false, "LOOP, a ring, also {hoop=n}");
      (true, true, "hoop (<loop=n>)");
      (false, true, "a ring, also {hoop=n}");
      (true, true, "hoop") ].
Proof. reflexivity. Qed.

(** C6. In the chain of calls of one [replaceDefinitionLinks], from the
    substitution that matched a follow marker on (or from any substitution
    made with [useFollow] set), every substitution is made with [useFollow]
    set, the later ones that match a replace marker included, and the text
    it puts in place of its marker is the follow-style one: the word and the
    linked definition in parentheses for a follow marker, the linked
    definition alone for a replace marker, never the upper-case word and a
    comma of the replace style.  The substitutions are those that make the
    string returned: made one after the other, each at the first marker of
    the text, they turn the definition into the result. *)
Theorem useFollow_is_sticky
    (getSubDefinition : string → string → string) (fuel : nat)
    (definition : string) (maxDepth : Z) (useFollow : bool)
    (result : string) (before : list Substitution) (e : Substitution)
    (after : list Substitution) :
  traceDefinitionLinks getSubDefinition fuel definition maxDepth useFollow
    = Some (result, (before ++ e :: after)%list) →
  byFollowRegex e = true ∨ withUseFollow e = true →
  replaceDefinitionLinks getSubDefinition fuel definition maxDepth useFollow
    = Some result
  ∧ replay definition (before ++ e :: after) = Some result
  ∧ Forall (λ e', withUseFollow e' = true
                  ∧ replacement e'
                    = followStyle getSubDefinition (byFollowRegex e')
                        (linkWord e') (linkPos e') (atDepth e'))
      (e :: after).
Proof.
intros Hrun He. split; [|split].
- by rewrite traceDefinitionLinks_result, Hrun.
- by eapply traceDefinitionLinks_replay.
- pose proof (traceDefinitionLinks_after _ _ _ _ _ _ _ _ _ Hrun He) as Hflag.
  pose proof (traceDefinitionLinks_recorded _ _ _ _ _ _ _ Hrun) as Hrec.
  apply Forall_app in Hrec as [_ Hrec].
  revert Hflag Hrec. generalize (e :: after). intros l Hflag.
  induction Hflag as [|x l Hx Hl IH]; intros Hrec; [constructor|].
  apply Forall_cons in Hrec as [Hrx Hrl].
  constructor; [|by apply IH].
  split; [done|]. unfold recorded in Hrx.
  by rewrite Hx, replacementText_follow in Hrx.
Qed.

Lemma useFollow_is_sticky_witness :
  replaceDefinitionLinks circularSub 5 "<hoop=n> [n]" 4 false = Some mixedResult
  ∧ replay "<hoop=n> [n]" mixedTrace = Some mixedResult
  ∧ Forall (λ e', withUseFollow e' = true
                  ∧ replacement e'
                    = followStyle circularSub (byFollowRegex e')
                        (linkWord e') (linkPos e') (atDepth e'))
      (List.skipn 2 mixedTrace).
Proof.
apply (useFollow_is_sticky circularSub 5 "<hoop=n> [n]" 4 false mixedResult
         (List.firstn 2 mixedTrace)
         (mkSubstitution true true 2 "hoop" "n" "hoop (<loop=n>)")
         (List.skipn 3 mixedTrace)).
- vm_compute. reflexivity.
- left. reflexivity.
Defined.

End Links.

(** ** Search conditions and specifications *)

(** [SearchCondition::SearchType], as far as the engine tells the cases
    apart; [OtherSearchType] stands for every value it leaves to the
    [default] branches. *)
Inductive SearchType :=
| AnagramMatch | PatternMatch | SubanagramMatch | ConsistOf
| Length | InWordList | NumVowels | IncludeLetters | ProbabilityOrder
| NumUniqueLetters | PointValue | NumAnagrams
| BelongToGroup | Prefix | Suffix | LimitByProbabilityOrder
| OtherSearchType.

Record SearchCondition := mkCondition {
  type : SearchType;
  stringValue : string;
  minValue : Z;
  maxValue : Z;
  boolValue : bool;
  negated : bool;
  legacy : bool
}.

Record SearchSpec := mkSpec {
  conditions : list SearchCondition;
  conjunction : bool
}.

(** [Defs::SearchSet]. *)
Inductive SearchSet :=
| SetHookWords | SetFrontHooks | SetBackHooks
| SetTypeOneSevens | SetTypeOneEights | SetTypeTwoSevens | SetTypeTwoEights
| SetTypeThreeSevens | SetTypeThreeEights | SetEightsFromSevenLetterStems
| UnknownSearchSet.

(** The three stages of a search and the conditions each one takes, as the
    [switch] of [WordEngine::search] sorts them. *)
Definition isPostType (t : SearchType) : bool :=
match t with
| BelongToGroup | Prefix | Suffix | LimitByProbabilityOrder => true
| _ => false
end.

Definition isWordGraphType (t : SearchType) : bool :=
match t with
| AnagramMatch | PatternMatch | SubanagramMatch | ConsistOf => true
| _ => false
end.

Definition isDatabaseType (t : SearchType) : bool :=
match t with
| Length | InWordList | NumVowels | IncludeLetters | ProbabilityOrder
| NumUniqueLetters | PointValue | NumAnagrams => true
| _ => false
end.

Definition isLengthType (t : SearchType) : bool :=
match t with Length => true | _ => false end.

Definition countType (p : SearchType → bool) (cs : list SearchCondition) : nat :=
List.length (List.filter (λ c, p (type c)) cs).

(** ** The attribute store *)

Module Store.

(** The numeric columns of the table [words]. *)
Inductive Column :=
| length | num_vowels | num_unique_letters | point_value | num_anagrams
| probability_order | min_probability_order | max_probability_order.

Record Row := mkRow {
  word : string;
  number : Column → Z;
  front_hooks : string;
  back_hooks : string;
  definition : string
}.

(** The text of a [WHERE] clause, piece by piece as the engine appends it:
    [AND], [column=k], [column>=k], [column<=k], [word [NOT] LIKE '%c%']
    and [word [NOT] IN ('w1',...)], the character [c] and the words [w1],
    ... being pasted into the text as they are; and [word=?] with a word
    bound to the placeholder. *)
Inductive Comparison := Equal | AtLeast | AtMost.

Inductive Atom :=
| Compare (column : Column) (op : Comparison) (k : Z)
| Like (negated : bool) (c : ascii)
| InList (negated : bool) (words : list string)
| WordIs (w : string).

Inductive Token := AND | Test (a : Atom).

Definition compareZ (op : Comparison) (x k : Z) : bool :=
match op with
| Equal => x =? k
| AtLeast => k <=? x
| AtMost => x <=? k
end.

Fixpoint containsChar (c : ascii) (s : string) : bool :=
match s with
| EmptyString => false
| String d r => (QStr.code d =? QStr.code c)%N || containsChar c r
end.

(** [word LIKE '%c%']: [%] stands for any text and [_] for any one
    character; any other character is looked for, letters without regard to
    case. *)
Definition like (c : ascii) (w : string) : bool :=
if (QStr.code c =? 37)%N then true
else if (QStr.code c =? 95)%N then negb (QStr.isEmpty w)
else containsChar (QStr.toUpperChar c) (QStr.toUpper w).

Definition holds (a : Atom) (r : Row) : bool :=
match a with
| Compare column op k => compareZ op (number r column) k
| Like neg c => xorb neg (like c (word r))
| InList neg ws => xorb neg (existsb (String.eqb (word r)) ws)
| WordIs w => String.eqb (word r) w
end.

(** A clause is well formed when it is tests separated by single [AND]s;
    [parseFrom wantTest] reads it from left to right and returns its tests,
    [wantTest] telling whether a test or an [AND] must come next. *)
Fixpoint parseFrom (wantTest : bool) (ts : list Token) : option (list Atom) :=
match ts, wantTest with
| Test a :: rest, true =>
    match parseFrom false rest with
    | Some atoms => Some (a :: atoms)
    | None => None
    end
| AND :: rest, false => parseFrom true rest
| [], false => Some []
| _, _ => None
end.

Definition parse (ts : list Token) : option (list Atom) := parseFrom true ts.

(** Whether a row satisfies a clause; no row satisfies a clause that does
    not parse (the statement fails). *)
Definition satisfies (where_ : list Token) (r : Row) : bool :=
match parse where_ with
| Some atoms => forallb (λ a, holds a r) atoms
| None => false
end.

(** The pieces stand for the text as long as no pasted character or word
    holds an apostrophe: the engine pastes them between quotes without
    escaping.  A bound word is not part of the text. *)
Definition quoteFree (s : string) : bool := negb (containsChar "'" s).

Definition pastedWell (a : Atom) : bool :=
match a with
| Compare _ _ _ => true
| Like _ c => negb (QStr.code c =? QStr.code "'")%N
| InList _ ws => forallb quoteFree ws
| WordIs _ => true
end.

Definition wellQuoted (where_ : list Token) : bool :=
forallb (λ t, match t with AND => true | Test a => pastedWell a end) where_.

(** A clause with every [column=k] written [column>=k AND column<=k]. *)
Fixpoint asRanges (where_ : list Token) : list Token :=
match where_ with
| [] => []
| Test (Compare column Equal k) :: rest =>
    Test (Compare column AtLeast k) :: AND :: Test (Compare column AtMost k)
      :: asRanges rest
| t :: rest => t :: asRanges rest
end.

(** The table [words] behind an open connection: its rows, and the rows the
    database returns for a statement in which a pasted apostrophe ends a
    quoted text early.  What SQLite makes of such a text (an error and no
    row, or other tests than those written) is not modelled: [garbled] is
    any answer, taken on the clause with its equalities written as ranges,
    [column=k] and [column>=k AND column<=k] being one test to the
    database. *)
Record Table := mkTable {
  tableRows : list Row;
  garbled : list Token → list Row
}.

(** [SELECT ... FROM words WHERE ...] on a connection: no row comes back
    when the connection is not open. *)
Definition select (db : option Table) (where_ : list Token) : list Row :=
match db with
| Some table =>
    if wellQuoted where_
    then List.filter (satisfies where_) (tableRows table)
    else garbled table (asRanges where_)
| None => []
end.

End Store.

(** ** The word engine *)

Module WordEngine.

Import Store.

(** [WordEngine::WordInfo]. *)
Record WordInfo := mkWordInfo {
  info_word : string;
  probabilityOrder : Z;
  minProbabilityOrder : Z;
  maxProbabilityOrder : Z;
  numVowels : Z;
  numUniqueLetters : Z;
  numAnagrams : Z;
  pointValue : Z;
  frontHooks : string;
  backHooks : string;
  info_definition : string
}.

(** The default-constructed [WordInfo]. *)
Definition noInfo : WordInfo :=
mkWordInfo EmptyString 0 0 0 0 0 0 0 EmptyString EmptyString EmptyString.

Definition infoOfRow (r : Row) : WordInfo :=
mkWordInfo (word r)
  (number r probability_order) (number r min_probability_order)
  (number r max_probability_order) (number r num_vowels)
  (number r num_unique_letters) (number r num_anagrams) (number r point_value)
  (front_hooks r) (back_hooks r) (definition r).

(** The statements the engine sends to its connection. *)
Inductive Query :=
| SelectWords (where_ : list Token)
| SelectInfo (where_ : list Token).

(** What a [const] member function of the engine may still change: the
    [mutable] cache, and the statements sent so far (latest first). *)
Record State := mkState {
  wordCache : gmap string WordInfo;
  sent : list Query
}.


(** *** The predicate of [databaseSearch] *)

(** [column=min] when the bounds agree, [column>=min AND column<=max]
    otherwise. *)
Definition rangeSql (column : Column) (c : SearchCondition) : list Token :=
if minValue c =? maxValue c
then [Test (Compare column Equal (minValue c))]
else [Test (Compare column AtLeast (minValue c)); AND;
      Test (Compare column AtMost (maxValue c))].

Fixpoint lettersSql (neg : bool) (first : bool) (s : string) : list Token :=
match s with
| EmptyString => []
| String c r =>
    ((if first then [] else [AND]) ++ [Test (Like neg c)]
     ++ lettersSql neg false r)%list
end.

(** [stringValue.split (QChar (' '))]. *)
Definition splitWords (s : string) : list string := Links.split " " s.

(** The second [switch] of the loop: what one condition appends.  The
    letters of [IncludeLetters] and the words of [InWordList] are pasted
    between quotes as they are. *)
Definition conditionSql (c : SearchCondition) : list Token :=
match type c with
| ProbabilityOrder =>
    if boolValue c
    then [Test (Compare max_probability_order AtLeast (minValue c)); AND;
          Test (Compare min_probability_order AtMost (maxValue c))]
    else rangeSql probability_order c
| Length => rangeSql length c
| NumVowels => rangeSql num_vowels c
| NumUniqueLetters => rangeSql num_unique_letters c
| PointValue => rangeSql point_value c
| NumAnagrams => rangeSql num_anagrams c
| IncludeLetters => lettersSql (negated c) true (stringValue c)
| InWordList => [Test (InList (negated c) (splitWords (stringValue c)))]
| _ => []
end.

(** The loop over the conditions; [foundCondition] is the flag of the same
    name. *)
Fixpoint whereSql (foundCondition : bool) (cs : list SearchCondition) : list Token :=
match cs with
| [] => []
| c :: rest =>
    ((if isDatabaseType (type c) && foundCondition then [AND] else [])
     ++ conditionSql c
     ++ whereSql (foundCondition || isDatabaseType (type c)) rest)%list
end.

(** [upperToLower]: the last word of the list wins for an upper-case form. *)
Definition upperToLower (wordList : list string) : gmap string string :=
fold_left (λ m w, <[QStr.toUpper w := w]> m) wordList ∅.

(** [AND word IN ('W1', 'W2', ...)]: the words of the list in upper case,
    pasted between quotes as they are. *)
Definition wordListSql (wordList : option (list string)) : list Token :=
match wordList with
| Some ws => [AND; Test (InList false (map QStr.toUpper ws))]
| None => []
end.

Definition restoreCase (wordList : option (list string)) (w : string) : string :=
match wordList with
| Some ws => default w (upperToLower ws !! w)
| None => w
end.

(** *** The range predicate, as a range *)

















(** *** The pieces of the probability window *)

(** The locals of the loop over the [LimitByProbabilityOrder] conditions. *)
Record Limits := mkLimits {
  probLimitRangeCondition : bool;
  legacyProbCondition : bool;
  probLimitRangeMin : Z;
  probLimitRangeMax : Z;
  probLimitRangeMinLax : Z;
  probLimitRangeMaxLax : Z
}.

Definition limits0 : Limits := mkLimits false false 0 999999 0 999999.

Definition limitStep (l : Limits) (c : SearchCondition) : Limits :=
match type c with
| LimitByProbabilityOrder =>
    if boolValue c
    then mkLimits true (legacy c || legacyProbCondition l)
           (probLimitRangeMin l) (probLimitRangeMax l)
           (if minValue c >? probLimitRangeMinLax l
            then minValue c else probLimitRangeMinLax l)
           (if maxValue c <? probLimitRangeMaxLax l
            then maxValue c else probLimitRangeMaxLax l)
    else mkLimits true (legacy c || legacyProbCondition l)
           (if minValue c >? probLimitRangeMin l
            then minValue c else probLimitRangeMin l)
           (if maxValue c <? probLimitRangeMax l
            then maxValue c else probLimitRangeMax l)
           (probLimitRangeMinLax l) (probLimitRangeMaxLax l)
| _ => l
end.

Definition limitsOf (cs : list SearchCondition) : Limits :=
fold_left limitStep cs limits0.

(** Decimal digits.  [fixedDigits w n] writes the [w] lowest digits of [n],
    [numDigits n] is the number of digits of [n]. *)
Definition digitChar (d : N) : ascii := ascii_of_N (48 + d).

Fixpoint fixedDigits (w : nat) (n : N) : string :=
match w with
| O => EmptyString
| S w' => fixedDigits w' (n / 10) ++ String (digitChar (n mod 10)) EmptyString
end.

Fixpoint numDigitsFuel (fuel : nat) (n : N) : nat :=
match fuel with
| O => 1
| S fuel' => if (n <? 10)%N then 1%nat else S (numDigitsFuel fuel' (n / 10))
end.

Definition numDigits (n : N) : nat := numDigitsFuel (N.to_nat (N.size n)) n.

(** [sprintf ("%09.0f", v)] for a whole [v]: at least nine characters, the
    sign first and zeros after it. *)
Definition sprintf_09_0f (v : Z) : string :=
let a := Z.abs_N v in
if v <? 0 then String "-" (fixedDigits (Nat.max 8 (numDigits a)) a)
else fixedDigits (Nat.max 9 (numDigits a)) a.

(** [QMap::insert] on a map kept in ascending key order: the value of a key
    already present is replaced. *)
Fixpoint qmapInsert (k v : string) (m : list (string * string)) : list (string * string) :=
match m with
| [] => [(k, v)]
| (k', v') :: rest =>
    match String.compare k k' with
    | Lt => (k, v) :: m
    | Eq => (k, v) :: rest
    | Gt => (k', v') :: qmapInsert k v rest
    end
end.

(** [keys[i]]: undefined outside the list. *)
Definition at_ (keys : list string) (i : Z) : option string :=
if i <? 0 then None else keys !! Z.to_nat i.

(** [QList::mid (pos, length)] for [0 <= pos]: a negative length, or one that
    passes the end, takes the list to its end. *)
Definition mid {A} (l : list A) (pos len : Z) : list A :=
let size := Z.of_nat (List.length l) in
let len := if (len <? 0) || (pos + len >? size) then size - pos else len in
if len <=? 0 then [] else List.firstn (Z.to_nat len) (List.skipn (Z.to_nat pos) l).

(** The first [while]: [min] goes down while the key before it has the same
    nine leading characters and the strict lower bound allows. *)
Fixpoint widenMin (keys : list string) (minCombinations : string)
    (probLimitRangeMin : Z) (min : nat) : option nat :=
match min with
| O => Some O
| S below =>
    if Z.of_nat min >? probLimitRangeMin then
      match keys !! below with
      | None => None
      | Some k =>
          if String.eqb minCombinations (QStr.left 9 k)
          then widenMin keys minCombinations probLimitRangeMin below
          else Some min
      end
    else Some min
end.

(** The second [while]; [room] bounds the turns left before the last key. *)
Fixpoint widenMax (keys : list string) (maxCombinations : string)
    (probLimitRangeMax : Z) (room : nat) (max : Z) : option Z :=
match room with
| O => Some max
| S room' =>
    if (max <? Z.of_nat (List.length keys) - 1) && (max <? probLimitRangeMax) then
      match at_ keys (max + 1) with
      | None => None
      | Some k =>
          if String.eqb maxCombinations (QStr.left 9 k)
          then widenMax keys maxCombinations probLimitRangeMax room' (max + 1)
          else Some max
      end
    else Some max
end.

(** *** The order of the keys *)

Lemma compare_refl (s : string) : String.compare s s = Eq.
Proof.
induction s as [|c s IH]; simpl; [done|].
unfold Ascii.compare. by rewrite N.compare_refl.
Qed.

Lemma lt_irrefl (s : string) : ¬ QStr.lt s s.
Proof. unfold QStr.lt. by rewrite compare_refl. Qed.

Lemma lt_le (a b : string) : QStr.lt a b → String.le a b.
Proof. unfold QStr.lt, String.le, String.leb. by intros ->. Qed.

Lemma lt_trans (a b c : string) : QStr.lt a b → QStr.lt b c → QStr.lt a c.
Proof.
intros Hab Hbc.
assert (String.le a c) as Hac by (trans b; by apply lt_le).
unfold QStr.lt. unfold String.le, String.leb in Hac.
destruct (String.compare a c) eqn:E; [|done|done].
apply String.compare_eq_iff in E as ->.
assert (b = c) as -> by (apply (anti_symm String.le); by apply lt_le).
by apply lt_irrefl in Hbc.
Qed.

Lemma lt_asym (a b : string) : QStr.lt a b → ¬ QStr.lt b a.
Proof. intros H1 H2. exact (lt_irrefl a (lt_trans _ _ _ H1 H2)). Qed.

Lemma compare_Gt_lt (a b : string) : String.compare a b = Gt → QStr.lt b a.
Proof. unfold QStr.lt. rewrite (String.compare_antisym a b). by destruct (String.compare b a). Qed.

(** Two texts that start with equally long parts compare by these parts
    first. *)
Lemma compare_app (a : string) : ∀ b x y,
  String.length a = String.length b →
  String.compare (a ++ x) (b ++ y)
  = match String.compare a b with
    | Eq => String.compare x y
    | c => c
    end.
Proof.
induction a as [|c a IH]; intros [|d b] x y Hlen; simplify_eq/=; [done|].
destruct (Ascii.compare c d); [|done|done]. by apply IH.
Qed.

Lemma length_app (a b : string) :
  String.length (a ++ b) = (String.length a + String.length b)%nat.
Proof. induction a as [|c a IH]; simpl; [done|]. by rewrite IH. Qed.

Lemma left_app (a x : string) : QStr.left (String.length a) (a ++ x) = a.
Proof. induction a as [|c a IH]; simpl; [by destruct x|]. by rewrite IH. Qed.

Lemma fixedDigits_length (w : nat) : ∀ n, String.length (fixedDigits w n) = w.
Proof.
induction w as [|w IH]; intros n; simpl; [done|].
rewrite length_app, IH. simpl. lia.
Qed.

Lemma compare_digitChar (a b : N) :
  (a < 10)%N → (b < 10)%N →
  Ascii.compare (digitChar a) (digitChar b) = (a ?= b)%N.
Proof.
intros Ha Hb. unfold Ascii.compare, digitChar.
rewrite !N_ascii_embedding by lia.
destruct (N.compare_spec a b) as [->|H|H].
- apply N.compare_refl.
- apply N.compare_lt_iff. lia.
- apply N.compare_gt_iff. lia.
Qed.

(** Numbers written with the same number of digits compare as their
    texts. *)
Lemma compare_fixedDigits (w : nat) : ∀ m n,
  (m < 10 ^ N.of_nat w)%N → (n < 10 ^ N.of_nat w)%N →
  String.compare (fixedDigits w m) (fixedDigits w n) = (m ?= n)%N.
Proof.
induction w as [|w IH]; intros m n Hm Hn.
- simpl in *. assert (m = 0%N) as -> by lia. assert (n = 0%N) as -> by lia. done.
- rewrite Nat2N.inj_succ, N.pow_succ_r' in Hm, Hn.
  pose proof (N.div_mod m 10 ltac:(lia)) as Em.
  pose proof (N.div_mod n 10 ltac:(lia)) as En.
  pose proof (N.mod_lt m 10 ltac:(lia)) as Lm.
  pose proof (N.mod_lt n 10 ltac:(lia)) as Ln.
  cbn [fixedDigits].
  rewrite compare_app by (by rewrite !fixedDigits_length).
  rewrite IH by (apply N.Div0.div_lt_upper_bound; lia).
  simpl. rewrite compare_digitChar by done.
  clear IH Hm Hn.
  generalize dependent (m mod 10)%N. generalize dependent (n mod 10)%N.
  generalize dependent (m / 10)%N. generalize dependent (n / 10)%N.
  intros qn qm rn En Ln rm Em Lm.
  destruct (N.compare_spec qm qn) as [E|L|L].
  + destruct (N.compare_spec rm rn) as [E'|L'|L']; symmetry.
    * apply N.compare_eq_iff. lia.
    * apply N.compare_lt_iff. lia.
    * apply N.compare_gt_iff. lia.
  + symmetry. apply N.compare_lt_iff. lia.
  + symmetry. apply N.compare_gt_iff. lia.
Qed.

Lemma numDigitsFuel_bound (fuel : nat) : ∀ n k,
  (n < 10 ^ N.of_nat (S k))%N → (numDigitsFuel fuel n ≤ S k)%nat.
Proof.
induction fuel as [|fuel IH]; intros n k Hn; simpl; [lia|].
destruct (N.ltb_spec n 10) as [H|H]; [lia|].
destruct k as [|k]; [simpl in Hn; lia|].
apply le_n_S, IH.
rewrite Nat2N.inj_succ, N.pow_succ_r' in Hn.
apply N.Div0.div_lt_upper_bound. lia.
Qed.

(** The nine digits of a value that fits in nine digits. *)
Lemma sprintf_09_0f_in_range (v : Z) :
  0 ≤ v ≤ 999999999 → sprintf_09_0f v = fixedDigits 9 (Z.to_N v).
Proof.
intros Hv. unfold sprintf_09_0f.
destruct (Z.ltb_spec v 0) as [H|_]; [lia|].
replace (Z.abs_N v) with (Z.to_N v) by lia.
pose proof (numDigitsFuel_bound (N.to_nat (N.size (Z.to_N v))) (Z.to_N v) 8) as B.
unfold numDigits. rewrite Nat.max_l; [done|]. apply B. simpl. lia.
Qed.

(** *** [probMap] as a sorted list *)

Definition keysOf (m : list (string * string)) : list string := map fst m.
Definition valuesOf (m : list (string * string)) : list string := map snd m.

Lemma qmapInsert_In (k v : string) (m : list (string * string)) (e : string * string) :
  In e (qmapInsert k v m) → e = (k, v) ∨ In e m.
Proof.
induction m as [|[k' v'] m IH]; simpl; [intuition|].
destruct (String.compare k k'); simpl; intuition.
Qed.

Lemma qmapInsert_key (k v : string) (m : list (string * string)) :
  In k (keysOf (qmapInsert k v m)).
Proof.
induction m as [|[k' v'] m IH]; simpl; [by left|].
destruct (String.compare k k'); simpl; auto.
Qed.

Lemma qmapInsert_keys (k v : string) (m : list (string * string)) (k0 : string) :
  In k0 (keysOf m) → In k0 (keysOf (qmapInsert k v m)).
Proof.
induction m as [|[k' v'] m IH]; simpl; [done|].
destruct (String.compare k k') eqn:E; simpl; [|tauto|tauto].
apply String.compare_eq_iff in E as ->. tauto.
Qed.

Lemma qmapInsert_keys_inv (k v : string) (m : list (string * string)) (k0 : string) :
  In k0 (keysOf (qmapInsert k v m)) → k0 = k ∨ In k0 (keysOf m).
Proof.
unfold keysOf. intros ((k1 & v1) & <- & [[= -> ->]|H]%qmapInsert_In)%in_map_iff;
  [by left|right]. by apply (in_map fst) in H.
Qed.

Lemma qmapInsert_sorted (k v : string) (m : list (string * string)) :
  StronglySorted QStr.lt (keysOf m) →
  StronglySorted QStr.lt (keysOf (qmapInsert k v m)).
Proof.
induction m as [|[k' v'] m IH]; simpl; intros Hs.
- repeat constructor.
- apply StronglySorted_inv in Hs as [Hs Hall].
  destruct (String.compare k k') eqn:E; simpl.
  + apply String.compare_eq_iff in E as ->. by constructor.
  + constructor; [by constructor|]. constructor; [done|].
    eapply List.Forall_impl; [|exact Hall]. intros a Ha. by eapply lt_trans.
  + constructor; [by apply IH|].
    apply List.Forall_forall. intros k0 [->|H]%qmapInsert_keys_inv.
    * by apply compare_Gt_lt.
    * by eapply List.Forall_forall in Hall.
Qed.

Lemma sorted_lookup {A} (R : A → A → Prop) (l : list A) :
  StronglySorted R l →
  ∀ i j a b, (i < j)%nat → l !! i = Some a → l !! j = Some b → R a b.
Proof.
induction 1 as [|x l Hs IH Hall]; intros i j a b Hij Hi Hj; [done|].
destruct j as [|j]; [lia|]. simpl in Hj.
destruct i as [|i]; simpl in Hi.
- simplify_eq. eapply List.Forall_forall in Hall; [done|].
  apply list_elem_of_In. by eapply list_elem_of_lookup_2.
- eapply (IH i j); [lia|done..].
Qed.

(** *** [mid], [widenMin] and [widenMax] *)

Lemma mid_In {A} (l : list A) (pos : nat) (len : Z) (x : A) :
  In x (mid l (Z.of_nat pos) len) →
  ∃ i, l !! i = Some x ∧ (pos ≤ i)%nat
       ∧ (Z.of_nat i < Z.of_nat pos + len
          ∨ len < 0 ∨ Z.of_nat pos + len > Z.of_nat (List.length l)).
Proof.
unfold mid. intros H.
set (size := Z.of_nat (List.length l)) in *.
destruct ((len <? 0) || (Z.of_nat pos + len >? size)) eqn:E.
- destruct (_ <=? 0); [done|].
  apply list_elem_of_In, list_elem_of_lookup in H as [i Hi].
  rewrite Nat2Z.id in Hi.
  apply lookup_take_Some in Hi as [Hi _]. rewrite lookup_drop in Hi.
  exists (pos + i)%nat. split; [done|]. split; [lia|]. right.
  apply orb_true_iff in E as [E|E]; lia.
- apply orb_false_iff in E as [E1 E2].
  destruct (Z.leb_spec len 0) as [|Hpos]; [done|].
  apply list_elem_of_In, list_elem_of_lookup in H as [i Hi].
  rewrite Nat2Z.id in Hi.
  apply lookup_take_Some in Hi as [Hi Hlt]. rewrite lookup_drop in Hi.
  exists (pos + i)%nat. split; [done|]. split; [lia|]. left. lia.
Qed.

Lemma mid_window {A} (l : list A) (pos : nat) (len : Z) (i : nat) (x : A) :
  l !! i = Some x → (pos ≤ i)%nat → Z.of_nat i < Z.of_nat pos + len →
  In x (mid l (Z.of_nat pos) len).
Proof.
intros Hi Hpos Hlen. unfold mid.
pose proof (lookup_lt_Some _ _ _ Hi) as Hsize.
set (size := Z.of_nat (List.length l)) in *.
assert (Z.of_nat i < size) by (unfold size; lia).
apply list_elem_of_In, list_elem_of_lookup.
destruct ((len <? 0) || (Z.of_nat pos + len >? size)) eqn:E.
- destruct (Z.leb_spec (size - Z.of_nat pos) 0); [lia|].
  exists (i - pos)%nat. rewrite Nat2Z.id.
  apply lookup_take_Some. split; [|lia].
  rewrite lookup_drop. by replace (pos + (i - pos))%nat with i by lia.
- destruct (Z.leb_spec len 0); [lia|].
  exists (i - pos)%nat. rewrite Nat2Z.id.
  apply lookup_take_Some. split; [|lia].
  rewrite lookup_drop. by replace (pos + (i - pos))%nat with i by lia.
Qed.

Lemma widenMin_spec (keys : list string) (comb : string) (lim : Z) :
  ∀ min min',
    widenMin keys comb lim min = Some min' →
    (min' ≤ min)%nat
    ∧ (∀ i k, (min' ≤ i < min)%nat → keys !! i = Some k → QStr.left 9 k = comb)
    ∧ (min' = O ∨ Z.of_nat min' ≤ lim
       ∨ ∃ k, keys !! (min' - 1)%nat = Some k ∧ QStr.left 9 k ≠ comb).
Proof.
induction min as [|below IH]; intros min' H.
- simpl in H. simplify_eq. split; [lia|]. split; [lia|by left].
- cbn [widenMin] in H.
  destruct (Z.gtb_spec (Z.of_nat (S below)) lim) as [Hlim|Hlim].
  2:{ simplify_eq. split; [lia|]. split; [lia|]. right. left. lia. }
  destruct (keys !! below) as [k|] eqn:Hk; [|done].
  destruct (String.eqb comb (QStr.left 9 k)) eqn:E.
  + apply String.eqb_eq in E. destruct (IH _ H) as (H1 & H2 & H3).
    split; [lia|]. split; [|done].
    intros i k' Hi Hk'. destruct (decide (i = below)) as [->|Hne].
    * congruence.
    * apply (H2 i); [lia|done].
  + apply String.eqb_neq in E. simplify_eq.
    split; [lia|]. split; [lia|]. right. right. exists k.
    replace (S below - 1)%nat with below by lia. split; [done|congruence].
Qed.

Lemma widenMax_spec (keys : list string) (comb : string) (lim : Z) :
  ∀ room max max',
    0 ≤ max →
    widenMax keys comb lim room max = Some max' →
    max ≤ max'
    ∧ (max ≤ Z.of_nat (List.length keys) - 1 → max' ≤ Z.of_nat (List.length keys) - 1)
    ∧ (∀ i k, (Z.to_nat max < i ≤ Z.to_nat max')%nat →
              keys !! i = Some k → QStr.left 9 k = comb)
    ∧ (Z.of_nat (List.length keys) - 1 ≤ Z.of_nat room + max →
       Z.of_nat (List.length keys) - 1 ≤ max' ∨ lim ≤ max'
       ∨ ∃ k, keys !! (Z.to_nat max' + 1)%nat = Some k ∧ QStr.left 9 k ≠ comb).
Proof.
induction room as [|room IH]; intros max max' Hmax H.
- simpl in H. simplify_eq. split; [lia|]. split; [done|]. split; [lia|].
  intros. left. lia.
- cbn [widenMax] in H.
  destruct (Z.ltb_spec max (Z.of_nat (List.length keys) - 1)) as [Hsize|Hsize];
    destruct (Z.ltb_spec max lim) as [Hlim|Hlim]; cbn [andb] in H;
    try (injection H as <-; split; [lia|]; split; [done|]; split; [lia|];
         intros; first [left; lia | right; left; lia]).
  unfold at_ in H. destruct (Z.ltb_spec (max + 1) 0); [lia|].
  destruct (keys !! Z.to_nat (max + 1)) as [k|] eqn:Hk; [|done].
  destruct (String.eqb comb (QStr.left 9 k)) eqn:E.
  + apply String.eqb_eq in E.
    destruct (IH (max + 1) max' ltac:(lia) H) as (H1 & H2 & H3 & H4).
    split; [lia|]. split; [intros; apply H2; lia|]. split.
    * intros i k' Hi Hk'.
      destruct (decide (i = Z.to_nat (max + 1))) as [->|Hne]; [congruence|].
      apply (H3 i); [lia|done].
    * intros Hroom. apply H4. lia.
  + apply String.eqb_neq in E. simplify_eq.
    split; [lia|]. split; [done|]. split; [lia|].
    intros _. right. right. exists k.
    replace (Z.to_nat max' + 1)%nat with (Z.to_nat (max' + 1)) by lia.
    split; [done|congruence].
Qed.

Lemma qmapInsert_length (k v : string) (m : list (string * string)) :
  (List.length (qmapInsert k v m) ≤ S (List.length m))%nat.
Proof.
induction m as [|[k' v'] m IH]; simpl; [lia|].
destruct (String.compare k k'); simpl; lia.
Qed.

Lemma mid_In_iff {A} (l : list A) (pos : nat) (len : Z) (x : A) :
  In x (mid l (Z.of_nat pos) len) ↔
  ∃ i, l !! i = Some x ∧ (pos ≤ i)%nat
       ∧ (Z.of_nat i < Z.of_nat pos + len
          ∨ len < 0 ∨ Z.of_nat pos + len > Z.of_nat (List.length l)).
Proof.
split; [apply mid_In|]. intros (i & Hi & Hpos & Hwin).
pose proof (lookup_lt_Some _ _ _ Hi) as Hsize.
destruct (Z.lt_ge_cases (Z.of_nat i) (Z.of_nat pos + len)) as [H|H];
  [by eapply mid_window|].
destruct Hwin as [?|Hwin]; [lia|].
unfold mid. set (size := Z.of_nat (List.length l)) in *.
assert (Z.of_nat i < size) by (unfold size; lia).
assert ((len <? 0) || (Z.of_nat pos + len >? size) = true) as ->.
{ apply orb_true_iff. destruct Hwin; [left|right]; lia. }
destruct (Z.leb_spec (size - Z.of_nat pos) 0); [lia|].
apply list_elem_of_In, list_elem_of_lookup.
exists (i - pos)%nat. rewrite Nat2Z.id.
apply lookup_take_Some. split; [|lia].
rewrite lookup_drop. by replace (pos + (i - pos))%nat with i by lia.
Qed.

Lemma mid_sorted {A} (R : A → A → Prop) (l : list A) (pos : nat) (len : Z) :
  StronglySorted R l → StronglySorted R (mid l (Z.of_nat pos) len).
Proof.
intros Hs. unfold mid. destruct (_ <=? 0); [constructor|].
rewrite Nat2Z.id.
eapply StronglySorted_app_1_l. rewrite take_drop.
eapply StronglySorted_app_1_r. by rewrite take_drop.
Qed.

Lemma sorted_by {A B} (f : A → B) (R : B → B → Prop) (l : list A) :
  StronglySorted R (map f l) → StronglySorted (λ a b, R (f a) (f b)) l.
Proof.
induction l as [|a l IH]; simpl; intros H; [constructor|].
apply StronglySorted_inv in H as [Hs Hall]. constructor; [by apply IH|].
apply List.Forall_forall. intros b Hb.
eapply List.Forall_forall in Hall; [exact Hall|]. by apply in_map.
Qed.

Lemma sorted_weaken {A} (R R' : A → A → Prop) (l : list A) :
  (∀ a b, In a l → In b l → R a b → R' a b) →
  StronglySorted R l → StronglySorted R' l.
Proof.
induction l as [|a l IH]; intros Himp H; [constructor|].
apply StronglySorted_inv in H as [Hs Hall]. constructor.
- apply IH; [|done]. intros x y Hx Hy. apply Himp; by right.
- apply List.Forall_forall. intros b Hb. apply Himp; [by left|by right|].
  by eapply List.Forall_forall in Hall.
Qed.

Lemma toUpper_length (s : string) :
  String.length (QStr.toUpper s) = String.length s.
Proof. induction s as [|c s IH]; simpl; [done|]. by rewrite IH. Qed.

Lemma insertChar_length (c : ascii) (s : string) :
  String.length (Auxil.insertChar c s) = S (String.length s).
Proof.
induction s as [|d s IH]; simpl; [done|].
destruct (_ <=? _)%N; simpl; [done|]. by rewrite IH.
Qed.

Lemma getAlphagram_length (s : string) :
  String.length (Auxil.getAlphagram s) = String.length s.
Proof.
induction s as [|c s IH]; simpl; [done|]. by rewrite insertChar_length, IH.
Qed.

Lemma app_inj_prefix (a : string) : ∀ b x y,
  String.length a = String.length b → a ++ x = b ++ y → a = b ∧ x = y.
Proof.
induction a as [|c a IH]; intros [|d b] x y Hlen H; simplify_eq/=; [done|].
destruct (IH b x y) as [-> ->]; done.
Qed.

Lemma app_inj_suffix (a b x y : string) :
  String.length x = String.length y → a ++ x = b ++ y → x = y.
Proof.
intros Hlen H. apply (app_inj_prefix a b x y); [|done].
apply (f_equal String.length) in H. rewrite !length_app in H. lia.
Qed.

Section Engine.

(** The parts of the engine that live in other files: the connection [db]
    ([None] when it is not open), [SearchSpec::optimize],
    [WordGraph::search] and [WordGraph::containsWord],
    [LetterBag::getNumCombinations] of the default bag (a whole number of
    combinations) and [Auxil::stringToSearchSet]; then the member
    [stemAlphagrams], and [getNumCombinations] of the bag that [isSetMember]
    builds from its list of tiles. *)
Variable db : option Table.
Variable optimize : SearchSpec → SearchSpec.
Variable wordGraphSearch : SearchSpec → list string.
Variable containsWord : string → bool.
Variable getNumCombinations : string → N.
Variable stringToSearchSet : string → SearchSet.
Variable stemAlphagrams : gmap Z (gset string).
Variable letterBag : string → N.

Definition dbIsOpen : bool :=
match db with Some _ => true | None => false end.

(** [databaseSearch (optimizedSpec, wordList)]. *)
Definition databaseQuery (optimizedSpec : SearchSpec)
    (wordList : option (list string)) : list Token :=
(whereSql false (conditions optimizedSpec) ++ wordListSql wordList)%list.

Definition databaseSearch (optimizedSpec : SearchSpec)
    (wordList : option (list string)) (st : State) : list string * State :=
let queryStr := databaseQuery optimizedSpec wordList in
(map (λ r, restoreCase wordList (word r)) (select db queryStr),
 mkState (wordCache st) (SelectWords queryStr :: sent st)).



(** *** [matchesConditions] *)

Definition isAcceptable (w : string) : bool := containsWord w.

(** *** [isSetMember] *)

(** [w.left (w.length() - 1)] and [w.right (w.length() - 1)]. *)
Definition allButLast (w : string) : string :=
QStr.left (String.length w - 1) w.

Definition allButFirst (w : string) : string :=
QStr.drop (String.length w - (String.length w - 1)) w.

(** The words that are a stem of the set [alphaset] and one more letter:
    some letter of the alphagram left out, the rest is a stem. *)
Fixpoint stemPlusOne (alphaset : gset string) (before after : string) : bool :=
match after with
| EmptyString => false
| String c rest =>
    bool_decide (before ++ rest ∈ alphaset)
    || stemPlusOne alphaset (before ++ String c EmptyString) rest
end.

(** The inner loop of the Type I eights: the letters of the alphagram that
    do not follow the stem, counted until there are three. *)
Fixpoint missingLetters (agram setAlphagram : string) (missing : nat) : nat :=
match agram, setAlphagram with
| String a rest, String b stemRest =>
    if Links.isChar a b then missingLetters rest stemRest missing
    else if (2 <? S missing)%nat then S missing
         else missingLetters rest setAlphagram (S missing)
| _, _ => missing
end.

(** The loop over [typeTwoChars]: whether the letters of the alphagram are
    met in this order. *)
Fixpoint followsTypeTwo (alphagram typeTwoChars : string) : bool :=
match typeTwoChars with
| EmptyString => false
| String tc rest =>
    match alphagram with
    | EmptyString => false
    | String wc more =>
        if Links.isChar tc wc
        then (if QStr.isEmpty more then true else followsTypeTwo more rest)
        else followsTypeTwo alphagram rest
    end
end.

Definition typeTwoChars : string := "AAADEEEEGIIILNNOORRSSTTU".

Definition isTypeOneSeven (w : string) : bool :=
if negb (QStr.len w =? 7) then false
else match stemAlphagrams !! (QStr.len w - 1) with
     | None => false
     | Some alphaset => stemPlusOne alphaset EmptyString (Auxil.getAlphagram w)
     end.

Definition isTypeOneEight (w : string) : bool :=
if negb (QStr.len w =? 8) then false
else match stemAlphagrams !! (QStr.len w - 2) with
     | None => false
     | Some alphaset =>
         existsb (λ setAlphagram,
                    (missingLetters (Auxil.getAlphagram w) setAlphagram 0 <=? 2)%nat)
           (elements alphaset)
     end.

Definition isTypeTwoSeven (w : string) : bool :=
if negb (QStr.len w =? 7) then false
else followsTypeTwo (Auxil.getAlphagram w) typeTwoChars && negb (isTypeOneSeven w).

Definition isTypeTwoEight (w : string) : bool :=
if negb (QStr.len w =? 8) then false
else followsTypeTwo (Auxil.getAlphagram w) typeTwoChars && negb (isTypeOneEight w).

(** [isSetMember (word, ss)]. *)
Definition isSetMember (w : string) (ss : SearchSet) : bool :=
match ss with
| SetHookWords => isAcceptable (allButLast w) || isAcceptable (allButFirst w)
| SetFrontHooks => isAcceptable (allButFirst w)
| SetBackHooks => isAcceptable (allButLast w)
| SetTypeOneSevens => isTypeOneSeven w
| SetTypeOneEights => isTypeOneEight w
| SetTypeTwoSevens => isTypeTwoSeven w
| SetTypeTwoEights => isTypeTwoEight w
| SetTypeThreeSevens =>
    if negb (QStr.len w =? 7) then false
    else (letterBag "HUNTERS" <=? letterBag w)%N
         && negb (isTypeOneSeven w) && negb (isTypeTwoSeven w)
| SetTypeThreeEights =>
    if negb (QStr.len w =? 8) then false
    else (letterBag "NOTIFIED" <=? letterBag w)%N
         && negb (isTypeOneEight w) && negb (isTypeTwoEight w)
| SetEightsFromSevenLetterStems =>
    if negb (QStr.len w =? 8) then false
    else match stemAlphagrams !! (QStr.len w - 1) with
         | None => false
         | Some alphaset => stemPlusOne alphaset EmptyString (Auxil.getAlphagram w)
         end
| UnknownSearchSet => false
end.

Definition searchSetEq (a b : SearchSet) : bool :=
match a, b with
| SetHookWords, SetHookWords | SetFrontHooks, SetFrontHooks
| SetBackHooks, SetBackHooks | SetTypeOneSevens, SetTypeOneSevens
| SetTypeOneEights, SetTypeOneEights | SetTypeTwoSevens, SetTypeTwoSevens
| SetTypeTwoEights, SetTypeTwoEights | SetTypeThreeSevens, SetTypeThreeSevens
| SetTypeThreeEights, SetTypeThreeEights
| SetEightsFromSevenLetterStems, SetEightsFromSevenLetterStems
| UnknownSearchSet, UnknownSearchSet => true
| _, _ => false
end.

(** One condition: [false] is the [return false] of the loop. *)
Definition matchesCondition (wordUpper : string) (c : SearchCondition) : bool :=
match type c with
| Prefix =>
    negb (xorb (negb (isAcceptable (stringValue c ++ wordUpper))) (negated c))
| Suffix =>
    negb (xorb (negb (isAcceptable (wordUpper ++ stringValue c))) (negated c))
| BelongToGroup =>
    let searchSet := stringToSearchSet (stringValue c) in
    if searchSetEq searchSet UnknownSearchSet then true
    else negb (xorb (negb (isSetMember wordUpper searchSet)) (negated c))
| _ => true
end.

Definition matchesConditions (w : string) (cs : list SearchCondition) : bool :=
forallb (matchesCondition (QStr.toUpper w)) cs.

(** *** [applyPostConditions] *)

(** The key under which a word enters [probMap]. *)
Definition radixOf (legacyProbCondition : bool) (w : string) : string :=
let wordUpper := QStr.toUpper w in
sprintf_09_0f (999999999 - Z.of_N (getNumCombinations wordUpper))
++ (if legacyProbCondition then EmptyString else Auxil.getAlphagram wordUpper)
++ wordUpper.

Definition probMapOf (legacyProbCondition : bool) (returnList : list string)
  : list (string * string) :=
fold_left (λ m w, qmapInsert (radixOf legacyProbCondition w) w m) returnList [].

(** The part of [applyPostConditions] under [if (probLimitRangeCondition)]. *)
Definition limitByProbabilityOrder (l : Limits) (returnList : list string)
  : option (list string) :=
let size := Z.of_nat (List.length returnList) in
if (probLimitRangeMin l >? size) || (probLimitRangeMinLax l >? size) then Some []
else
  let probLimitRangeMin := Z.max 0 (probLimitRangeMin l - 1) in
  let probLimitRangeMinLax := Z.max 0 (probLimitRangeMinLax l - 1) in
  let probLimitRangeMax := Z.min (size - 1) (probLimitRangeMax l - 1) in
  let probLimitRangeMaxLax := Z.min (size - 1) (probLimitRangeMaxLax l - 1) in
  let min := Z.max probLimitRangeMin probLimitRangeMinLax in
  let max := Z.min probLimitRangeMax probLimitRangeMaxLax in
  let probMap := probMapOf (legacyProbCondition l) returnList in
  let keys := map fst probMap in
  match at_ keys min with
  | None => None
  | Some minRadix =>
      match widenMin keys (QStr.left 9 minRadix) probLimitRangeMin (Z.to_nat min) with
      | None => None
      | Some min' =>
          match at_ keys max with
          | None => None
          | Some maxRadix =>
              match widenMax keys (QStr.left 9 maxRadix) probLimitRangeMax
                      (List.length keys) max with
              | None => None
              | Some max' =>
                  Some (mid (map snd probMap) (Z.of_nat min') (max' - Z.of_nat min' + 1))
              end
          end
      end
  end.

(** [applyPostConditions (optimizedSpec, wordList)]; [None] when a key is
    read outside [keys]. *)
Definition applyPostConditions (optimizedSpec : SearchSpec)
    (wordList : list string) : option (list string) :=
let returnList :=
  List.filter (λ w, matchesConditions w (conditions optimizedSpec)) wordList in
let l := limitsOf (conditions optimizedSpec) in
if probLimitRangeCondition l then limitByProbabilityOrder l returnList
else Some returnList.

(** *** The cache *)

Definition clearCache (st : State) : State := mkState ∅ (sent st).

(** The clause of [addToCache]: [word IN ('w1', 'w2', ...)], every word
    pasted between quotes as it is. *)
Definition infoQuery (words : list string) : list Token :=
[Test (InList false words)].

(** [addToCache (words)]. *)
Definition addToCache (words : list string) (st : State) : State :=
match words with
| [] => st
| _ :: _ =>
    if negb dbIsOpen then st
    else
      mkState
        (fold_left (λ cache r, <[word r := infoOfRow r]> cache)
           (select db (infoQuery words)) (wordCache st))
        (SelectInfo (infoQuery words) :: sent st)
end.

(** [getWordInfo (word)]. *)
Definition getWordInfo (w : string) (st : State) : WordInfo * State :=
if QStr.isEmpty w then (noInfo, st)
else
  match wordCache st !! w with
  | Some info => (info, st)
  | None =>
      if negb dbIsOpen then (noInfo, st)
      else
        let st' := mkState (wordCache st)
                     (SelectInfo [Test (WordIs w)] :: sent st) in
        match select db [Test (WordIs w)] with
        | r :: _ =>
            let info :=
              mkWordInfo w
                (number r probability_order) (number r min_probability_order)
                (number r max_probability_order) (number r num_vowels)
                (number r num_unique_letters) (number r num_anagrams)
                (number r point_value)
                (front_hooks r) (back_hooks r) (definition r) in
            (info, mkState (<[w := info]> (wordCache st')) (sent st'))
        | [] => (noInfo, st')
        end
  end.

(** *** [search] *)

(** [databaseConditions] once the "Length only" correction is made. *)
Definition databaseStage (cs : list SearchCondition) : nat :=
let wordGraphConditions := countType isWordGraphType cs in
let databaseConditions := countType isDatabaseType cs in
let lengthConditions := countType isLengthType cs in
if negb (wordGraphConditions =? 0)%nat && (1 <=? databaseConditions)%nat
   && (lengthConditions =? databaseConditions)%nat
then (databaseConditions - 1)%nat
else databaseConditions.

Definition isNil {A} (l : list A) : bool :=
match l with [] => true | _ => false end.

(** What is done with a result list that passed the first two stages. *)
Definition finish (optimizedSpec : SearchSpec) (allCaps : bool)
    (resultList : list string) (st : State) : option (list string * State) :=
let postConditions := countType isPostType (conditions optimizedSpec) in
match (if (postConditions =? 0)%nat then Some resultList
       else applyPostConditions optimizedSpec resultList) with
| None => None
| Some resultList =>
    let resultList := if allCaps then map QStr.toUpper resultList else resultList in
    if isNil resultList then Some (resultList, st)
    else Some (resultList, addToCache resultList (clearCache st))
end.

(** [search (spec, allCaps)]. *)
Definition search (spec : SearchSpec) (allCaps : bool) (st : State)
  : option (list string * State) :=
let optimizedSpec := optimize spec in
let wordGraphConditions := countType isWordGraphType (conditions optimizedSpec) in
let databaseConditions := databaseStage (conditions optimizedSpec) in
let useGraph := negb (wordGraphConditions =? 0)%nat || (databaseConditions =? 0)%nat in
let resultList := if useGraph then wordGraphSearch optimizedSpec else [] in
if useGraph && isNil resultList then Some ([], st)
else if negb (databaseConditions =? 0)%nat then
  let (resultList, st) :=
    databaseSearch optimizedSpec
      (if negb (wordGraphConditions =? 0)%nat then Some resultList else None) st in
  if isNil resultList then Some ([], st)
  else finish optimizedSpec allCaps resultList st
else finish optimizedSpec allCaps resultList st.

(** The first two stages: the list the post-conditions receive, empty when
    a stage that ran found nothing. *)
Definition stages (optimizedSpec : SearchSpec) (st : State) : list string * State :=
let wordGraphConditions := countType isWordGraphType (conditions optimizedSpec) in
let databaseConditions := databaseStage (conditions optimizedSpec) in
let useGraph := negb (wordGraphConditions =? 0)%nat || (databaseConditions =? 0)%nat in
let resultList := if useGraph then wordGraphSearch optimizedSpec else [] in
if useGraph && isNil resultList then ([], st)
else if negb (databaseConditions =? 0)%nat then
  databaseSearch optimizedSpec
    (if negb (wordGraphConditions =? 0)%nat then Some resultList else None) st
else (resultList, st).

(** The words that are left when the window of [LimitByProbabilityOrder] is
    taken. *)
Definition survivors (optimizedSpec : SearchSpec) (st : State) : list string :=
List.filter (λ w, matchesConditions w (conditions optimizedSpec))
  (fst (stages optimizedSpec st)).

(** What [search] returns when the attribute-store stage is left out. *)
Definition graphOnly (optimizedSpec : SearchSpec) (allCaps : bool) (st : State)
  : option (list string * State) :=
if isNil (wordGraphSearch optimizedSpec) then Some ([], st)
else finish optimizedSpec allCaps (wordGraphSearch optimizedSpec) st.

(** *** Results on [search] *)

Lemma search_stages (spec : SearchSpec) (allCaps : bool) (st : State) :
  search spec allCaps st
  = if isNil (fst (stages (optimize spec) st))
    then Some ([], snd (stages (optimize spec) st))
    else finish (optimize spec) allCaps
           (fst (stages (optimize spec) st)) (snd (stages (optimize spec) st)).
Proof.
unfold search, stages. cbv zeta.
destruct (countType isWordGraphType (conditions (optimize spec)) =? 0)%nat eqn:Ewg;
  destruct (databaseStage (conditions (optimize spec)) =? 0)%nat eqn:Edb; simpl.
- by destruct (wordGraphSearch (optimize spec)).
- by destruct (isNil (map _ _)).
- by destruct (wordGraphSearch (optimize spec)).
- destruct (wordGraphSearch (optimize spec)); simpl; [done|].
  by destruct (isNil (map _ _)).
Qed.

Lemma stages_cache (optimizedSpec : SearchSpec) (st : State) :
  wordCache (snd (stages optimizedSpec st)) = wordCache st.
Proof.
unfold stages. cbv zeta.
repeat match goal with |- context [if ?b then _ else _] => destruct b end; done.
Qed.

Lemma finish_cache (optimizedSpec : SearchSpec) (allCaps : bool)
    (resultList : list string) (st : State) (result : list string) (st' : State) :
  finish optimizedSpec allCaps resultList st = Some (result, st') →
  (result = [] → st' = st)
  ∧ (result ≠ [] → st' = addToCache result (clearCache st)).
Proof.
unfold finish.
destruct (if (countType isPostType (conditions optimizedSpec) =? 0)%nat
          then Some resultList
          else applyPostConditions optimizedSpec resultList) as [r|]; [|done].
destruct (isNil (if allCaps then map QStr.toUpper r else r)) eqn:E.
- intros [= <- <-]. split; [done|].
  by destruct (if allCaps then map QStr.toUpper r else r).
- intros [= <- <-]. split; [|done]. intros H. by rewrite H in E.
Qed.

Lemma addToCache_cache (words : list string) (st1 st2 : State) :
  wordCache st1 = wordCache st2 →
  wordCache (addToCache words st1) = wordCache (addToCache words st2).
Proof.
intros H. unfold addToCache. destruct words; [done|].
destruct (negb dbIsOpen); [done|]. simpl. by rewrite H.
Qed.

(** C10. When [search] returns the empty list the cache is what it was, and
    a word it held is still answered from it by [getWordInfo] without any
    statement being sent; the cache is emptied and filled again from the
    rows of the result only when the result is not empty. *)
Theorem search_empty_keeps_cache
    (spec : SearchSpec) (allCaps : bool) (st : State)
    (result : list string) (st' : State) :
  search spec allCaps st = Some (result, st') →
  (result = [] →
     wordCache st' = wordCache st
     ∧ ∀ w info, QStr.isEmpty w = false → wordCache st !! w = Some info →
         getWordInfo w st' = (info, st'))
  ∧ (result ≠ [] →
       wordCache st' = wordCache (addToCache result (clearCache st))).
Proof.
rewrite search_stages. pose proof (stages_cache (optimize spec) st) as Hc.
destruct (isNil (fst (stages (optimize spec) st))) eqn:E.
- intros [= <- <-]. split; [|done]. intros _. split; [done|].
  intros w info Hw Hinfo. unfold getWordInfo. by rewrite Hw, Hc, Hinfo.
- intros [Hempty Hfull]%finish_cache. split.
  + intros ->%Hempty. split; [done|].
    intros w info Hw Hinfo. unfold getWordInfo. by rewrite Hw, Hc, Hinfo.
  + intros ->%Hfull. apply addToCache_cache. simpl. done.
Qed.

(** A [LimitByProbabilityOrder] condition is present. *)
Definition hasLimit (optimizedSpec : SearchSpec) : Prop :=
∃ c, In c (conditions optimizedSpec) ∧ type c = LimitByProbabilityOrder.

(** The lower bounds only go up along the conditions, and the flag stays. *)
Lemma limitStep_mono (l : Limits) (c : SearchCondition) :
  probLimitRangeMin l ≤ probLimitRangeMin (limitStep l c)
  ∧ probLimitRangeMinLax l ≤ probLimitRangeMinLax (limitStep l c)
  ∧ (probLimitRangeCondition l = true →
     probLimitRangeCondition (limitStep l c) = true).
Proof.
unfold limitStep. destruct (type c); try done.
destruct (boolValue c); simpl.
- destruct (Z.gtb_spec (minValue c) (probLimitRangeMinLax l)); lia.
- destruct (Z.gtb_spec (minValue c) (probLimitRangeMin l)); lia.
Qed.

Lemma limits_mono (cs : list SearchCondition) : ∀ l,
  probLimitRangeMin l ≤ probLimitRangeMin (fold_left limitStep cs l)
  ∧ probLimitRangeMinLax l ≤ probLimitRangeMinLax (fold_left limitStep cs l)
  ∧ (probLimitRangeCondition l = true →
     probLimitRangeCondition (fold_left limitStep cs l) = true).
Proof.
induction cs as [|c cs IH]; intros l; simpl; [done|].
destruct (IH (limitStep l c)) as (H1 & H2 & H3).
destruct (limitStep_mono l c) as (G1 & G2 & G3).
split; [lia|]. split; [lia|auto].
Qed.

Lemma limitStep_bound (l : Limits) (c : SearchCondition) :
  type c = LimitByProbabilityOrder →
  probLimitRangeCondition (limitStep l c) = true
  ∧ (minValue c ≤ probLimitRangeMin (limitStep l c)
     ∨ minValue c ≤ probLimitRangeMinLax (limitStep l c)).
Proof.
unfold limitStep. intros ->. destruct (boolValue c); simpl.
- split; [done|]. right.
  destruct (Z.gtb_spec (minValue c) (probLimitRangeMinLax l)); lia.
- split; [done|]. left.
  destruct (Z.gtb_spec (minValue c) (probLimitRangeMin l)); lia.
Qed.

Lemma limitsOf_bound (cs : list SearchCondition) (c : SearchCondition) :
  In c cs → type c = LimitByProbabilityOrder →
  probLimitRangeCondition (limitsOf cs) = true
  ∧ (minValue c ≤ probLimitRangeMin (limitsOf cs)
     ∨ minValue c ≤ probLimitRangeMinLax (limitsOf cs)).
Proof.
unfold limitsOf. generalize limits0.
induction cs as [|c0 cs IH]; intros l Hin Hc; [done|]. simpl.
destruct Hin as [->|Hin]; [|by apply IH].
destruct (limitStep_bound l c Hc) as [Hflag Hmin].
destruct (limits_mono cs (limitStep l c)) as (H1 & H2 & H3).
split; [auto|]. destruct Hmin; [left|right]; lia.
Qed.

Lemma hasLimit_flag (optimizedSpec : SearchSpec) :
  hasLimit optimizedSpec →
  probLimitRangeCondition (limitsOf (conditions optimizedSpec)) = true.
Proof. intros (c & Hin & Hc). by destruct (limitsOf_bound _ c Hin Hc). Qed.

Lemma countType_In (p : SearchType → bool) (cs : list SearchCondition)
    (c : SearchCondition) :
  In c cs → p (type c) = true → (countType p cs =? 0)%nat = false.
Proof.
intros Hin Hp. apply Nat.eqb_neq. unfold countType.
assert (In c (List.filter (λ c, p (type c)) cs)) as H by (by apply filter_In).
destruct (List.filter _ cs); [done|]. simpl. lia.
Qed.

(** C7. When the optimized specification holds a [LimitByProbabilityOrder]
    condition whose lower bound is above the number of words that passed
    the stages before and the other post-conditions, [search] returns the
    empty list. *)
Theorem search_limit_beyond_survivors
    (spec : SearchSpec) (allCaps : bool) (st : State) (c : SearchCondition) :
  In c (conditions (optimize spec)) →
  type c = LimitByProbabilityOrder →
  Z.of_nat (List.length (survivors (optimize spec) st)) < minValue c →
  ∃ st', search spec allCaps st = Some ([], st')
         ∧ wordCache st' = wordCache st.
Proof.
intros Hin Hc Hmin. rewrite search_stages.
pose proof (stages_cache (optimize spec) st) as Hcache.
destruct (isNil (fst (stages (optimize spec) st))) eqn:E; [eauto|].
unfold finish.
rewrite (countType_In isPostType _ c Hin) by (by rewrite Hc).
unfold applyPostConditions.
destruct (limitsOf_bound _ c Hin Hc) as [-> Hbound].
unfold limitByProbabilityOrder. fold (survivors (optimize spec) st).
set (l := limitsOf (conditions (optimize spec))) in *.
assert ((probLimitRangeMin l >? Z.of_nat (List.length (survivors (optimize spec) st)))
        || (probLimitRangeMinLax l >? Z.of_nat (List.length (survivors (optimize spec) st)))
        = true) as ->.
{ apply orb_true_iff. destruct Hbound; [left|right]; apply Z.gtb_lt; lia. }
destruct allCaps; simpl; eauto.
Qed.

(** C2 (as the code has it). With the connection to the attribute store not
    open, a search that still has an attribute-store stage returns the empty
    list, whatever the word graph found; the cache is left as it was. *)
Theorem search_closed_store_is_empty
    (spec : SearchSpec) (allCaps : bool) (st : State) :
  db = None →
  databaseStage (conditions (optimize spec)) ≠ O →
  ∃ st', search spec allCaps st = Some ([], st')
         ∧ wordCache st' = wordCache st.
Proof.
intros Hdb Hstage. unfold search. cbv zeta.
apply Nat.eqb_neq in Hstage. rewrite Hstage. simpl.
unfold select. rewrite Hdb. simpl.
destruct (negb _ || false) eqn:E; simpl.
- destruct (isNil (wordGraphSearch (optimize spec))); simpl; eauto.
- eauto.
Qed.




(** *** Results on the probability window *)

Definition countOf (w : string) : N := getNumCombinations (QStr.toUpper w).

(** The counts for which nine digits are enough. *)
Definition inRange (w : string) : Prop := (countOf w ≤ 999999999)%N.

Definition keyLt (legacyProbCondition : bool) (a b : string) : Prop :=
QStr.lt (radixOf legacyProbCondition a) (radixOf legacyProbCondition b).

(** The order the words are meant to come in: more combinations first, then
    the alphagram unless the ordering is the legacy one, then the
    upper-case word. *)
Definition rankedBefore (legacyProbCondition : bool) (a b : string) : Prop :=
let wa := QStr.toUpper a in
let wb := QStr.toUpper b in
(countOf b < countOf a)%N
∨ (countOf a = countOf b
   ∧ if legacyProbCondition then QStr.lt wa wb
     else QStr.lt (Auxil.getAlphagram wa) (Auxil.getAlphagram wb)
          ∨ (Auxil.getAlphagram wa = Auxil.getAlphagram wb ∧ QStr.lt wa wb)).

Definition tailOf (legacyProbCondition : bool) (w : string) : string :=
(if legacyProbCondition then EmptyString else Auxil.getAlphagram (QStr.toUpper w))
++ QStr.toUpper w.

Lemma radixOf_in_range (legacyProbCondition : bool) (w : string) :
  inRange w →
  radixOf legacyProbCondition w
  = fixedDigits 9 (999999999 - countOf w) ++ tailOf legacyProbCondition w.
Proof.
unfold inRange, radixOf, tailOf, countOf. intros H.
rewrite sprintf_09_0f_in_range by lia. f_equal. f_equal. lia.
Qed.

Lemma radixOf_prefix (legacyProbCondition : bool) (w : string) :
  inRange w →
  QStr.left 9 (radixOf legacyProbCondition w)
  = fixedDigits 9 (999999999 - countOf w).
Proof.
intros H. rewrite radixOf_in_range by done.
rewrite <- (fixedDigits_length 9 (999999999 - countOf w)) at 1.
apply left_app.
Qed.

Lemma compare_radix (legacyProbCondition : bool) (a b : string) :
  inRange a → inRange b →
  String.compare (radixOf legacyProbCondition a) (radixOf legacyProbCondition b)
  = match (countOf b ?= countOf a)%N with
    | Eq => String.compare (tailOf legacyProbCondition a) (tailOf legacyProbCondition b)
    | c => c
    end.
Proof.
intros Ha Hb. unfold inRange in *. rewrite !radixOf_in_range by done.
rewrite compare_app by (by rewrite !fixedDigits_length).
rewrite compare_fixedDigits by (simpl; lia).
destruct (N.compare_spec (countOf b) (countOf a)) as [E|L|L].
- rewrite E. by rewrite N.compare_refl.
- assert ((999999999 - countOf a ?= 999999999 - countOf b)%N = Lt) as ->; [|done].
  apply N.compare_lt_iff. lia.
- assert ((999999999 - countOf a ?= 999999999 - countOf b)%N = Gt) as ->; [|done].
  apply N.compare_gt_iff. lia.
Qed.

Lemma prefix_count (legacyProbCondition : bool) (a b : string) :
  inRange a → inRange b →
  QStr.left 9 (radixOf legacyProbCondition a) = QStr.left 9 (radixOf legacyProbCondition b)
  ↔ countOf a = countOf b.
Proof.
intros Ha Hb. rewrite !radixOf_prefix by done. unfold inRange in *. split.
- intros H. apply (f_equal (String.compare (fixedDigits 9 (999999999 - countOf a)))) in H.
  rewrite compare_refl, compare_fixedDigits in H by (simpl; lia).
  symmetry in H. apply N.compare_eq_iff in H. lia.
- by intros ->.
Qed.

Lemma keyLt_count (legacyProbCondition : bool) (a b : string) :
  inRange a → inRange b → keyLt legacyProbCondition a b →
  (countOf b ≤ countOf a)%N.
Proof.
intros Ha Hb. unfold keyLt, QStr.lt. rewrite compare_radix by done.
destruct (N.compare_spec (countOf b) (countOf a)); [lia|lia|done].
Qed.

(** For words of one length, and counts that fit in nine digits, the order
    of the keys is the order meant. *)
Lemma keyLt_rankedBefore (legacyProbCondition : bool) (a b : string) :
  inRange a → inRange b →
  legacyProbCondition = true ∨ String.length a = String.length b →
  keyLt legacyProbCondition a b → rankedBefore legacyProbCondition a b.
Proof.
intros Ha Hb Hlen. unfold keyLt, QStr.lt, rankedBefore.
rewrite compare_radix by done.
destruct (N.compare_spec (countOf b) (countOf a)) as [E|L|L]; [|by left|done].
intros H. right. split; [done|]. unfold tailOf in H.
destruct legacyProbCondition; [exact H|].
destruct Hlen as [?|Hlen]; [done|].
rewrite compare_app in H
  by (by rewrite !getAlphagram_length, !toUpper_length).
destruct (String.compare (Auxil.getAlphagram _) (Auxil.getAlphagram _)) eqn:E';
  [|by left|done].
right. split; [by apply String.compare_eq_iff|done].
Qed.

(** What [probMap] holds: its keys ascend, every entry is a word of the list
    under its own key, and the key of every word of the list is there. *)
Lemma probMap_fold (legacyProbCondition : bool) (returnList : list string) :
  ∀ m,
    StronglySorted QStr.lt (keysOf m) →
    StronglySorted QStr.lt
      (keysOf (fold_left (λ m w, qmapInsert (radixOf legacyProbCondition w) w m)
                 returnList m))
    ∧ (∀ e, In e (fold_left (λ m w, qmapInsert (radixOf legacyProbCondition w) w m)
                    returnList m) →
            In e m ∨ (fst e = radixOf legacyProbCondition (snd e) ∧ In (snd e) returnList))
    ∧ (∀ k, In k (keysOf m) ∨ In k (map (radixOf legacyProbCondition) returnList) →
            In k (keysOf (fold_left (λ m w, qmapInsert (radixOf legacyProbCondition w) w m)
                            returnList m)))
    ∧ (List.length (fold_left (λ m w, qmapInsert (radixOf legacyProbCondition w) w m)
                      returnList m)
       ≤ List.length m + List.length returnList)%nat.
Proof.
induction returnList as [|w rest IH]; intros m Hs; simpl.
- split; [done|]. split; [auto|]. split; [tauto|lia].
- destruct (IH (qmapInsert (radixOf legacyProbCondition w) w m)
              (qmapInsert_sorted _ _ _ Hs)) as (H1 & H2 & H3 & H4).
  split; [done|]. split; [|split].
  + intros e [[->|He]%qmapInsert_In|[He1 He2]]%H2; simpl; auto.
  + intros k [Hk|[<-|Hk]]; apply H3; auto using qmapInsert_keys, qmapInsert_key.
  + pose proof (qmapInsert_length (radixOf legacyProbCondition w) w m). lia.
Qed.

Lemma probMap_sorted (legacyProbCondition : bool) (returnList : list string) :
  StronglySorted QStr.lt (keysOf (probMapOf legacyProbCondition returnList)).
Proof. apply probMap_fold. constructor. Qed.

Lemma probMap_entry (legacyProbCondition : bool) (returnList : list string)
    (e : string * string) :
  In e (probMapOf legacyProbCondition returnList) →
  fst e = radixOf legacyProbCondition (snd e) ∧ In (snd e) returnList.
Proof.
intros H. destruct (probMap_fold legacyProbCondition returnList [] (SSorted_nil _))
  as (_ & H2 & _). by destruct (H2 e H).
Qed.

Lemma probMap_keys (legacyProbCondition : bool) (returnList : list string) :
  keysOf (probMapOf legacyProbCondition returnList)
  = map (radixOf legacyProbCondition) (valuesOf (probMapOf legacyProbCondition returnList)).
Proof.
unfold keysOf, valuesOf. rewrite map_map. apply map_ext_in.
intros e He. by apply probMap_entry in He as [-> _].
Qed.

Lemma probMap_values_sorted (legacyProbCondition : bool) (returnList : list string) :
  StronglySorted (keyLt legacyProbCondition)
    (valuesOf (probMapOf legacyProbCondition returnList)).
Proof.
apply (sorted_by (radixOf legacyProbCondition) QStr.lt).
rewrite <- probMap_keys. apply probMap_sorted.
Qed.

Lemma probMap_values_In (legacyProbCondition : bool) (returnList : list string)
    (v : string) :
  In v (valuesOf (probMapOf legacyProbCondition returnList)) → In v returnList.
Proof.
unfold valuesOf. intros (e & <- & He)%in_map_iff. by apply probMap_entry in He as [_ ?].
Qed.

Lemma limitByProbabilityOrder_within (l : Limits) (returnList out : list string) :
  limitByProbabilityOrder l returnList = Some out →
  out = [] ∨ ∃ pos len,
    out = mid (valuesOf (probMapOf (legacyProbCondition l) returnList))
            (Z.of_nat pos) len.
Proof.
unfold limitByProbabilityOrder.
destruct (_ || _); [intros [= <-]; by left|].
cbv zeta.
destruct (at_ _ _); [|done]. destruct (widenMin _ _ _ _) as [min'|]; [|done].
destruct (at_ _ _); [|done]. destruct (widenMax _ _ _ _ _) as [max'|]; [|done].
intros [= <-]. right. eauto.
Qed.

(** The order of the list when a [LimitByProbabilityOrder] condition is in
    the specification: the
    list [applyPostConditions] returns ascends in the key of [probMap]: nine
    digits of 999999999 minus the number of combinations, then the
    alphagram unless a condition is a legacy one, then the upper-case word,
    all in one text.  For words of one length whose counts fit in nine
    digits (of any length under the legacy ordering) that is: count
    descending, then alphagram ascending, then word ascending; with the
    legacy flag: count descending, then word ascending. *)
Theorem applyPostConditions_order
    (optimizedSpec : SearchSpec) (wordList out : list string) :
  hasLimit optimizedSpec →
  applyPostConditions optimizedSpec wordList = Some out →
  let legacyOrder := legacyProbCondition (limitsOf (conditions optimizedSpec)) in
  StronglySorted (keyLt legacyOrder) out
  ∧ ((∀ w, In w wordList → inRange w) →
     legacyOrder = true
     ∨ (∀ a b, In a wordList → In b wordList → String.length a = String.length b) →
     StronglySorted (rankedBefore legacyOrder) out).
Proof.
intros Hflag%hasLimit_flag Hout legacyOrder. unfold applyPostConditions in Hout.
rewrite Hflag in Hout.
set (returnList := List.filter _ wordList) in Hout.
assert (StronglySorted (keyLt legacyOrder) out
        ∧ ∀ w, In w out → In w wordList) as [Hsorted Hsub].
{ apply limitByProbabilityOrder_within in Hout as [->|(pos & len & ->)].
  - split; [constructor|done].
  - split; [apply mid_sorted, probMap_values_sorted|].
    intros w (i & Hi & _)%mid_In.
    apply list_elem_of_lookup_2, list_elem_of_In, probMap_values_In in Hi.
    by apply filter_In in Hi as [? _]. }
split; [done|]. intros Hrange Hlen.
eapply sorted_weaken; [|exact Hsorted].
intros a b Ha Hb. apply keyLt_rankedBefore; auto.
destruct Hlen as [?|Hlen]; auto.
Qed.

Lemma lax_limits (cs : list SearchCondition) :
  (∀ c, In c cs → type c = LimitByProbabilityOrder → boolValue c = true) →
  probLimitRangeMin (limitsOf cs) = 0 ∧ probLimitRangeMax (limitsOf cs) = 999999.
Proof.
unfold limitsOf.
assert (probLimitRangeMin limits0 = 0 ∧ probLimitRangeMax limits0 = 999999) as H0
  by done.
revert H0. generalize limits0.
induction cs as [|c cs IH]; intros l H0 Hlax; simpl; [done|].
apply IH; [|intros; apply Hlax; [by right|done]].
unfold limitStep. destruct (type c) eqn:E; try done.
by rewrite (Hlax c (or_introl eq_refl) E).
Qed.

Lemma radixOf_inj (legacyOrder : bool) (a b : string) :
  inRange a → inRange b →
  radixOf legacyOrder a = radixOf legacyOrder b →
  QStr.toUpper a = QStr.toUpper b.
Proof.
intros Ha Hb. rewrite !radixOf_in_range by done. intros H.
apply app_inj_prefix in H as [_ H]; [|by rewrite !fixedDigits_length].
unfold tailOf in H. destruct legacyOrder; [exact H|].
eapply app_inj_suffix; [|exact H].
apply (f_equal String.length) in H.
rewrite !length_app, !getAlphagram_length in H. lia.
Qed.

Section Window.

(** The list the window is taken from: counts that fit in nine digits, and
    no two words alike but for the case of their letters. *)
Variable legacyOrder : bool.
Variable returnList : list string.
Hypothesis rangeOk : ∀ w, In w returnList → inRange w.
Hypothesis distinct :
  ∀ a b, In a returnList → In b returnList →
         QStr.toUpper a = QStr.toUpper b → a = b.

Let keys := keysOf (probMapOf legacyOrder returnList).
Let values := valuesOf (probMapOf legacyOrder returnList).

Lemma keys_lookup (i : nat) (k : string) :
  keys !! i = Some k ↔ ∃ v, values !! i = Some v ∧ k = radixOf legacyOrder v.
Proof.
unfold keys. rewrite probMap_keys. fold values.
rewrite list_lookup_fmap. destruct (values !! i); simpl; naive_solver.
Qed.

Lemma values_In (i : nat) (v : string) : values !! i = Some v → In v returnList.
Proof.
intros H. eapply probMap_values_In, list_elem_of_In, list_elem_of_lookup_2, H.
Qed.

Lemma values_index (w : string) : In w returnList → ∃ i, values !! i = Some w.
Proof.
intros Hw.
destruct (probMap_fold legacyOrder returnList [] (SSorted_nil _)) as (_ & _ & H3 & _).
specialize (H3 (radixOf legacyOrder w) (or_intror (in_map _ _ _ Hw))).
apply list_elem_of_In, list_elem_of_lookup in H3 as [i Hi].
apply keys_lookup in Hi as (v & Hv & Hk). exists i.
pose proof (values_In _ _ Hv) as Hin.
by rewrite (distinct v w Hin Hw
              (eq_sym (radixOf_inj legacyOrder w v (rangeOk _ Hw) (rangeOk _ Hin) Hk)))
  in Hv.
Qed.

Lemma values_count (i j : nat) (a b : string) :
  (i ≤ j)%nat → values !! i = Some a → values !! j = Some b →
  (countOf b ≤ countOf a)%N.
Proof.
intros Hij Ha Hb. destruct (decide (i = j)) as [->|Hne].
- rewrite Ha in Hb. injection Hb as ->. lia.
- apply (keyLt_count legacyOrder); eauto using values_In.
  eapply (sorted_lookup _ _ (probMap_values_sorted legacyOrder returnList) i j);
    [lia|done..].
Qed.

Lemma keys_prefix (i j : nat) (ki kj a b : string) :
  keys !! i = Some ki → keys !! j = Some kj →
  values !! i = Some a → values !! j = Some b →
  QStr.left 9 ki = QStr.left 9 kj ↔ countOf a = countOf b.
Proof.
intros (a' & Ha' & ->)%keys_lookup (b' & Hb' & ->)%keys_lookup Ha Hb.
simplify_eq. apply prefix_count; eauto using values_In.
Qed.

Lemma keys_size : (List.length keys ≤ List.length returnList)%nat.
Proof.
unfold keys, keysOf. rewrite length_map.
destruct (probMap_fold legacyOrder returnList [] (SSorted_nil _)) as (_ & _ & _ & H).
simpl in H. exact H.
Qed.

Lemma keys_values_size : List.length values = List.length keys.
Proof. unfold values, keys, valuesOf, keysOf. by rewrite !length_map. Qed.

(** The window of lax conditions alone, on a list of at most 999999 words:
    ties in the count are never cut, and the window [1, 1] is the words of
    the highest count. *)
Lemma lax_window (l : Limits) (out : list string) :
  legacyProbCondition l = legacyOrder →
  probLimitRangeMin l = 0 → probLimitRangeMax l = 999999 →
  Z.of_nat (List.length returnList) ≤ 999999 →
  limitByProbabilityOrder l returnList = Some out →
  (∀ w w', In w returnList → In w' out → countOf w = countOf w' → In w out)
  ∧ (probLimitRangeMinLax l = 1 → probLimitRangeMaxLax l = 1 →
     ∀ w, In w out ↔ In w returnList ∧ ∀ v, In v returnList → (countOf v ≤ countOf w)%N).
Proof.
intros Hlegacy Hmin Hmax Hsize. unfold limitByProbabilityOrder.
rewrite Hmin, Hmax, Hlegacy.
change (map fst (probMapOf legacyOrder returnList)) with keys.
change (map snd (probMapOf legacyOrder returnList)) with values.
set (size := Z.of_nat (List.length returnList)).
destruct ((0 >? size) || (probLimitRangeMinLax l >? size)) eqn:Eearly.
{ intros [= <-]. split; [done|]. intros H1 _ w. split; [done|]. intros [Hw _].
  rewrite H1 in Eearly. destruct returnList; [done|]. simpl in size.
  apply orb_true_iff in Eearly as [E|E]; lia. }
apply orb_false_iff in Eearly as [_ Elax].
cbv zeta.
replace (Z.max 0 (0 - 1)) with 0 by lia.
replace (Z.min (size - 1) (999999 - 1)) with (size - 1) by lia.
set (min := Z.max 0 (Z.max 0 (probLimitRangeMinLax l - 1))).
set (max := Z.min (size - 1) (Z.min (size - 1) (probLimitRangeMaxLax l - 1))).
unfold at_.
destruct (Z.ltb_spec min 0) as [|Hmin0]; [lia|].
destruct (keys !! Z.to_nat min) as [minRadix|] eqn:Hkmin; [|done].
destruct (widenMin keys (QStr.left 9 minRadix) 0 (Z.to_nat min)) as [min'|] eqn:Hwmin;
  [|done].
destruct (Z.ltb_spec max 0) as [|Hmax0]; [done|].
destruct (keys !! Z.to_nat max) as [maxRadix|] eqn:Hkmax; [|done].
destruct (widenMax keys (QStr.left 9 maxRadix) (size - 1) (List.length keys) max)
  as [max'|] eqn:Hwmax; [|done].
intros [= <-].
destruct (widenMin_spec _ _ _ _ _ Hwmin) as (Hm1 & Hm2 & Hm3).
destruct (widenMax_spec _ _ _ _ _ _ Hmax0 Hwmax) as (Hx1 & Hx2 & Hx3 & Hx4).
pose proof keys_size as Hks. pose proof keys_values_size as Hvs.
pose proof (lookup_lt_Some _ _ _ Hkmin) as Hminlt.
pose proof (lookup_lt_Some _ _ _ Hkmax) as Hmaxlt.
specialize (Hx2 ltac:(lia)). specialize (Hx4 ltac:(lia)).
(* the keys from [min'] to [min], and from [max] to [max'], start alike *)
assert (∀ i k, (min' ≤ i ≤ Z.to_nat min)%nat → keys !! i = Some k →
               QStr.left 9 k = QStr.left 9 minRadix) as Hlow.
{ intros i k Hi Hk. destruct (decide (i = Z.to_nat min)) as [->|Hne];
    [congruence|]. apply (Hm2 i); [lia|done]. }
assert (∀ i k, (Z.to_nat max ≤ i ≤ Z.to_nat max')%nat → keys !! i = Some k →
               QStr.left 9 k = QStr.left 9 maxRadix) as Hhigh.
{ intros i k Hi Hk. destruct (decide (i = Z.to_nat max)) as [->|Hne];
    [congruence|]. apply (Hx3 i); [lia|done]. }
(* below [min'] the count is higher *)
assert (∀ i j a b, (i < min' ≤ j)%nat → values !! i = Some a → values !! j = Some b →
                   (countOf b < countOf a)%N) as Hbelow.
{ intros i j a b Hij Ha Hb.
  destruct Hm3 as [?|[?|(k & Hk & Hne)]]; [lia|lia|].
  destruct (lookup_lt_is_Some_2 keys min' ltac:(lia)) as [k' Hk'].
  pose proof (Hlow min' k' ltac:(lia) Hk') as Hk'eq.
  pose proof Hk as Hk2. pose proof Hk' as Hk'2.
  apply keys_lookup in Hk2 as (p & Hp & _).
  apply keys_lookup in Hk'2 as (q & Hq & _).
  pose proof (keys_prefix _ _ _ _ _ _ Hk Hk' Hp Hq) as Hpq.
  pose proof (values_count (min' - 1) min' p q ltac:(lia) Hp Hq).
  pose proof (values_count i (min' - 1) a p ltac:(lia) Ha Hp).
  pose proof (values_count min' j q b ltac:(lia) Hq Hb).
  assert (countOf p ≠ countOf q) by (intros E; apply Hne; rewrite Hk'eq in Hpq; tauto).
  lia. }
(* above [max'] the count is lower *)
assert (∀ i j a b, (j ≤ Z.to_nat max' < i)%nat → values !! i = Some a →
                   values !! j = Some b → (countOf a < countOf b)%N) as Habove.
{ intros i j a b Hij Ha Hb.
  pose proof (lookup_lt_Some _ _ _ Ha) as Hilt.
  destruct Hx4 as [?|[?|(k & Hk & Hne)]]; [lia|lia|].
  destruct (lookup_lt_is_Some_2 keys (Z.to_nat max') ltac:(lia)) as [k' Hk'].
  pose proof (Hhigh (Z.to_nat max') k' ltac:(lia) Hk') as Hk'eq.
  pose proof Hk as Hk2. pose proof Hk' as Hk'2.
  apply keys_lookup in Hk2 as (p & Hp & _).
  apply keys_lookup in Hk'2 as (q & Hq & _).
  pose proof (keys_prefix _ _ _ _ _ _ Hk Hk' Hp Hq) as Hpq.
  pose proof (values_count (Z.to_nat max') (Z.to_nat max' + 1) q p ltac:(lia) Hq Hp).
  pose proof (values_count (Z.to_nat max' + 1) i p a ltac:(lia) Hp Ha).
  pose proof (values_count j (Z.to_nat max') b q ltac:(lia) Hb Hq).
  assert (countOf p ≠ countOf q) by (intros E; apply Hne; rewrite Hk'eq in Hpq; tauto).
  lia. }
assert (∀ w w', In w returnList →
          In w' (mid values (Z.of_nat min') (max' - Z.of_nat min' + 1)) →
          countOf w = countOf w' →
          In w (mid values (Z.of_nat min') (max' - Z.of_nat min' + 1))) as Hclosed.
{ intros w w' Hw (j & Hj & Hjmin & Hjwin)%mid_In_iff Hcount.
  destruct (values_index w Hw) as [i Hi].
  apply mid_In_iff. exists i. split; [done|].
  assert (min' ≤ i)%nat as Himin.
  { destruct (le_lt_dec min' i) as [|Hlt]; [done|].
    pose proof (Hbelow i j w w' ltac:(lia) Hi Hj). lia. }
  split; [done|].
  destruct Hjwin as [Hjwin|Hjwin]; [|by right].
  destruct (Z.lt_ge_cases (Z.of_nat i) (Z.of_nat min' + (max' - Z.of_nat min' + 1)))
    as [|Hge]; [by left|].
  pose proof (Habove i j w w' ltac:(lia) Hi Hj). lia. }
split; [exact Hclosed|].
intros Hlax1 Hlax2 w.
assert (0 < size) as Hpos by (rewrite Hlax1 in Elax; lia).
assert (min = 0) as Hmin00 by (unfold min; lia).
assert (max = 0) as Hmax00 by (unfold max; lia).
assert (min' = O) as -> by (rewrite Hmin00 in Hm1; simpl in Hm1; lia).
rewrite Hmax00 in *. simpl in Hhigh, Hkmax.
destruct (lookup_lt_is_Some_2 values O ltac:(lia)) as [top Htop].
assert (In top (mid values (Z.of_nat 0) (max' - Z.of_nat 0 + 1))) as Htopin.
{ apply mid_In_iff. exists O. split; [done|]. split; [lia|]. left. lia. }
split.
- intros (j & Hj & _ & Hjwin)%mid_In_iff.
  assert (j ≤ Z.to_nat max')%nat as Hjmax by lia.
  split; [by eapply values_In|].
  intros v Hv. destruct (values_index v Hv) as [i Hi].
  destruct (le_lt_dec j i) as [Hle|Hlt]; [by eapply values_count|].
  destruct (lookup_lt_is_Some_2 keys i ltac:(rewrite <- Hvs; by eapply lookup_lt_Some))
    as [ki Hki].
  destruct (lookup_lt_is_Some_2 keys j ltac:(rewrite <- Hvs; by eapply lookup_lt_Some))
    as [kj Hkj].
  pose proof (Hhigh i ki ltac:(lia) Hki) as E1.
  pose proof (Hhigh j kj ltac:(lia) Hkj) as E2.
  rewrite <- E2 in E1.
  apply (keys_prefix _ _ _ _ _ _ Hki Hkj Hi Hj) in E1. lia.
- intros [Hw Hbest]. apply (Hclosed w top Hw Htopin).
  destruct (values_index w Hw) as [i Hi].
  pose proof (values_count O i top w ltac:(lia) Htop Hi).
  pose proof (Hbest top (values_In _ _ Htop)). lia.
Qed.

End Window.

(** C3. When every [LimitByProbabilityOrder] condition of the specification
    is a lax one (and the list has at most 999999 words, with counts that fit
    in nine digits and no two words alike but for case), the window
    [applyPostConditions] takes never cuts a tie: a surviving word whose
    count is that of a word of the result is in the result.  In particular
    the lax window [1, 1] is exactly the surviving words of the highest
    count. *)
Theorem lax_limit_keeps_ties
    (optimizedSpec : SearchSpec) (wordList out : list string) :
  let cs := conditions optimizedSpec in
  let returnList := List.filter (λ w, matchesConditions w cs) wordList in
  hasLimit optimizedSpec →
  (∀ c, In c cs → type c = LimitByProbabilityOrder → boolValue c = true) →
  Z.of_nat (List.length returnList) ≤ 999999 →
  (∀ w, In w returnList → inRange w) →
  (∀ a b, In a returnList → In b returnList →
          QStr.toUpper a = QStr.toUpper b → a = b) →
  applyPostConditions optimizedSpec wordList = Some out →
  (∀ w w', In w returnList → In w' out → countOf w = countOf w' → In w out)
  ∧ (probLimitRangeMinLax (limitsOf cs) = 1 →
     probLimitRangeMaxLax (limitsOf cs) = 1 →
     ∀ w, In w out
          ↔ In w returnList ∧ ∀ v, In v returnList → (countOf v ≤ countOf w)%N).
Proof.
intros cs returnList Hflag%hasLimit_flag Hlax Hsize Hrange Hdistinct Hout.
unfold applyPostConditions in Hout. rewrite Hflag in Hout.
fold cs returnList in Hout.
destruct (lax_limits cs Hlax) as [Hmin Hmax].
exact (lax_window (legacyProbCondition (limitsOf cs)) returnList Hrange Hdistinct
         (limitsOf cs) out eq_refl Hmin Hmax Hsize Hout).
Qed.

(** *** The statements that do not hold as they are worded *)


(** "With a word-graph condition and an attribute-store condition, and the
    store not connected, the word-graph-only result is returned." *)
Definition degradesToGraph (spec : SearchSpec) (allCaps : bool) (st : State)
  : Prop :=
(1 ≤ countType isWordGraphType (conditions (optimize spec)))%nat →
(1 ≤ countType isDatabaseType (conditions (optimize spec)))%nat →
db = None →
fst <$> search spec allCaps st = fst <$> graphOnly (optimize spec) allCaps st.

(** "For every LimitByProbabilityOrder condition, words that share the
    count of a word of the window are not left outside it." *)
Definition keepsTies (optimizedSpec : SearchSpec) (wordList : list string) : Prop :=
∀ out,
  hasLimit optimizedSpec →
  applyPostConditions optimizedSpec wordList = Some out →
  ∀ w w',
    In w (List.filter (λ w, matchesConditions w (conditions optimizedSpec)) wordList) →
    In w' out → countOf w = countOf w' → In w out.

(** "The list returned is sorted by count descending, then alphagram
    ascending unless legacy, then word ascending." *)
Definition isRanked (optimizedSpec : SearchSpec) (wordList : list string) : Prop :=
∀ out,
  hasLimit optimizedSpec →
  applyPostConditions optimizedSpec wordList = Some out →
  StronglySorted
    (rankedBefore (legacyProbCondition (limitsOf (conditions optimizedSpec)))) out.

(** *** Further results on the cache *)

(** The statement of [addToCache] selects the rows of the listed words, when
    no listed word holds an apostrophe. *)
Lemma select_infoQuery (table : Table) (words : list string) :
  forallb quoteFree words = true →
  select (Some table) (infoQuery words)
  = List.filter (λ r, existsb (String.eqb (word r)) words) (tableRows table).
Proof.
intros Hq. unfold select, infoQuery, wellQuoted. cbn [forallb pastedWell].
rewrite Hq. cbn [andb]. apply filter_ext. intros r.
unfold satisfies, parse. simpl. by rewrite andb_true_r.
Qed.

(** The statement of [getWordInfo] selects the rows of the word, whatever
    the word is: it is bound, not pasted. *)
Lemma select_wordIs (table : Table) (w : string) :
  select (Some table) [Test (WordIs w)]
  = List.filter (λ r, String.eqb (word r) w) (tableRows table).
Proof.
unfold select. cbn. apply filter_ext. intros r.
unfold satisfies, parse. simpl. by rewrite andb_true_r.
Qed.

(** What the loop over the rows leaves under a word: the information of a
    row of that word, or what was there when no row has the word. *)
Lemma cache_fold (rs : list Row) : ∀ (cache : gmap string WordInfo) (w : string),
  (∃ r, In r rs ∧ word r = w
        ∧ fold_left (λ c r, <[word r := infoOfRow r]> c) rs cache !! w
          = Some (infoOfRow r))
  ∨ ((∀ r, In r rs → word r ≠ w)
     ∧ fold_left (λ c r, <[word r := infoOfRow r]> c) rs cache !! w = cache !! w).
Proof.
induction rs as [|r rs IH]; intros cache w; simpl; [right; split; [by intros ? []|done]|].
destruct (IH (<[word r := infoOfRow r]> cache) w) as [(r0 & Hin & Hw & H)|[Hno H]].
- left. exists r0. auto.
- destruct (decide (word r = w)) as [Hw|Hw].
  + left. exists r. rewrite H, <- Hw, lookup_insert_eq. auto.
  + right. rewrite H, lookup_insert_ne by done. split; [|done].
    intros r0 [<-|Hin]; auto.
Qed.

(** What a lookup by [getWordInfo] does to the cache.  The entries of the
    other words stay.  A word that is cached is answered from the cache and
    nothing changes.  A word that is not cached and that the table has a row
    for is answered with the columns of a row of the word and cached with
    that answer, so that the next lookup is answered from the cache.  In
    every other case (an empty word, the store closed, no row of the word)
    the answer is the default information and the cache stays as it was: a
    word the store does not know is never cached, nor is anything while the
    store is closed, and with the store closed no statement is sent. *)
Theorem getWordInfo_caches_what_it_finds (w : string) (st : State) :
  let info := fst (getWordInfo w st) in
  let st' := snd (getWordInfo w st) in
  (∀ w', w' ≠ w → wordCache st' !! w' = wordCache st !! w')
  ∧ (∀ cached, QStr.isEmpty w = false → wordCache st !! w = Some cached →
       info = cached ∧ st' = st)
  ∧ (QStr.isEmpty w = false → wordCache st !! w = None →
     ∀ table, db = Some table →
       (∃ r, In r (tableRows table) ∧ word r = w) →
       ∃ r, In r (tableRows table) ∧ word r = w ∧ info = infoOfRow r
            ∧ wordCache st' = <[w := info]> (wordCache st)
            ∧ getWordInfo w st' = (info, st'))
  ∧ (QStr.isEmpty w = true
     ∨ (wordCache st !! w = None
        ∧ (db = None
           ∨ ∃ table, db = Some table ∧ ∀ r, In r (tableRows table) → word r ≠ w)) →
     info = noInfo ∧ wordCache st' = wordCache st)
  ∧ (db = None → st' = st).
Proof.
clear optimize wordGraphSearch containsWord getNumCombinations stringToSearchSet
  stemAlphagrams letterBag.
cbv zeta. unfold getWordInfo, dbIsOpen.
destruct (QStr.isEmpty w) eqn:Hw.
{ cbn [fst snd]. do 4 (split; [done|]). done. }
destruct (wordCache st !! w) as [cached|] eqn:Hc.
{ cbn [fst snd]. split; [done|]. split; [by intros ? _ [= <-]|].
  split; [done|]. split; [|done]. by intros [?|[? _]]. }
destruct db as [table|]; cbn [negb fst snd].
2:{ do 4 (split; [done|]). done. }
rewrite select_wordIs.
destruct (List.filter (λ r, String.eqb (word r) w) (tableRows table))
  as [|r rs] eqn:Hrows; cbn [fst snd wordCache sent].
- split; [done|]. split; [done|]. split; [|split; done].
  intros _ _ table' [= <-] (r & Hr & Hrw).
  assert (In r []) as []. rewrite <- Hrows. apply filter_In. split; [done|].
  by apply String.eqb_eq.
- assert (In r (tableRows table) ∧ word r = w) as [Hr Hrw].
  { assert (In r (r :: rs)) as Hin by (by left). rewrite <- Hrows in Hin.
    apply filter_In in Hin as [? ?%String.eqb_eq]. done. }
  split; [intros w' Hw'; by rewrite lookup_insert_ne|].
  split; [done|]. split; [|split; [|done]].
  + intros _ _ table' [= <-] _. exists r. split; [done|]. split; [done|].
    split; [unfold infoOfRow; by rewrite Hrw|]. split; [done|].
    cbn [wordCache]. by rewrite lookup_insert_eq.
  + intros [?|[_ [?|(table' & [= <-] & Hno)]]]; try done. by destruct (Hno r).
Qed.

(** [addToCache] on an open store, for words that hold no apostrophe (they
    are pasted into the statement between quotes): every listed word the
    table has a row for is then answered by [getWordInfo] from the cache,
    with the information of a row of that word and without a statement; the
    entries of the words that are not listed stay as they were. *)
Theorem addToCache_serves_lookups
    (table : Table) (words : list string) (st : State) :
  db = Some table →
  forallb quoteFree words = true →
  (∀ w, In w words → QStr.isEmpty w = false →
     (∃ r, In r (tableRows table) ∧ word r = w) →
     ∃ r, In r (tableRows table) ∧ word r = w
          ∧ getWordInfo w (addToCache words st)
            = (infoOfRow r, addToCache words st))
  ∧ (∀ w, ¬ In w words →
       wordCache (addToCache words st) !! w = wordCache st !! w).
Proof.
clear optimize wordGraphSearch containsWord getNumCombinations stringToSearchSet
  stemAlphagrams letterBag.
intros Hdb Hq. unfold addToCache, dbIsOpen. rewrite Hdb.
rewrite select_infoQuery by done. cbn [negb]. split.
- intros w Hw Hne (r0 & Hr0 & Hword).
  destruct (cache_fold (List.filter (λ r, existsb (String.eqb (word r)) words)
                          (tableRows table))
              (wordCache st) w) as [(r & Hin & Hrw & Hc)|[Hno _]].
  + exists r. apply filter_In in Hin as [Hin _]. split; [done|]. split; [done|].
    destruct words as [|w0 words']; [done|].
    unfold getWordInfo. cbn [wordCache]. by rewrite Hne, Hc.
  + destruct (Hno r0); [|done]. apply filter_In. split; [done|].
    apply existsb_exists. exists w. split; [done|]. by apply String.eqb_eq.
- intros w Hw.
  destruct (cache_fold (List.filter (λ r, existsb (String.eqb (word r)) words)
                          (tableRows table))
              (wordCache st) w) as [(r & Hin & Hrw & _)|[_ Hc]].
  + destruct Hw. apply filter_In in Hin as [_ Hin].
    apply existsb_exists in Hin as (w' & Hw' & Heq%String.eqb_eq).
    by rewrite <- Hrw, Heq.
  + by destruct words.
Qed.

(** After a search with a result that is not empty, and in which no word
    holds an apostrophe (the words are pasted into the statement of
    [addToCache] between quotes), the cache holds the words of the result
    that the table has a row for, each with the information of a row of that
    word, and nothing else: what earlier searches and lookups left there is
    gone, and with the store closed the cache is empty. *)
Theorem search_caches_the_result_only
    (spec : SearchSpec) (allCaps : bool) (st : State)
    (result : list string) (st' : State) :
  search spec allCaps st = Some (result, st') →
  result ≠ [] →
  forallb quoteFree result = true →
  ∀ w,
    (is_Some (wordCache st' !! w)
     ↔ In w result
       ∧ ∃ table r, db = Some table ∧ In r (tableRows table) ∧ word r = w)
    ∧ (∀ info, wordCache st' !! w = Some info →
         ∃ table r, db = Some table ∧ In r (tableRows table) ∧ word r = w
                    ∧ info = infoOfRow r).
Proof.
rewrite search_stages.
destruct (isNil (fst (stages (optimize spec) st))); [by intros [= <- <-]|].
intros [_ Hfull]%finish_cache Hne Hq w. rewrite (Hfull Hne). clear Hfull.
unfold addToCache, dbIsOpen. destruct result as [|w0 result']; [done|].
set (result := w0 :: result') in *.
destruct db as [table|] eqn:Hdb; cbn [negb wordCache clearCache].
2:{ rewrite lookup_empty. split; [|done]. split; [by intros [? ?]|].
    by intros [_ (? & ? & ? & _)]. }
rewrite select_infoQuery by done.
destruct (cache_fold (List.filter (λ r, existsb (String.eqb (word r)) result)
                        (tableRows table))
            ∅ w) as [(r & Hin & Hrw & Hc)|[Hno Hc]]; rewrite Hc.
- apply filter_In in Hin as [Hin Hres].
  apply existsb_exists in Hres as (w' & Hw' & Heq%String.eqb_eq).
  split.
  + split; [|by eauto]. intros _. split; [by rewrite <- Hrw, Heq|]. eauto 6.
  + intros info [= <-]. eauto 8.
- rewrite lookup_empty. split; [|done]. split; [by intros [? ?]|].
  intros [Hw (table' & r & [= <-] & Hr & Hrw)]. destruct (Hno r); [|done].
  apply filter_In. split; [done|]. apply existsb_exists. exists w.
  split; [done|]. by apply String.eqb_eq.
Qed.

(** *** Further results on the post-conditions *)

Lemma mid_length {A} (l : list A) (pos len : Z) :
  (List.length (mid l pos len) ≤ List.length l)%nat.
Proof.
unfold mid. destruct (_ <=? 0); simpl; [lia|].
rewrite length_take, length_drop. lia.
Qed.

Lemma sorted_NoDup {A B} (f : A → B) (R : A → A → Prop) (l : list A) :
  (∀ a b, R a b → f a ≠ f b) → StronglySorted R l → List.NoDup (map f l).
Proof.
intros HR. induction 1 as [|a l Hs IH Hall]; simpl; constructor; [|done].
intros (b & Hb & Hin)%in_map_iff. symmetry in Hb.
eapply List.Forall_forall in Hall; [|exact Hin]. by apply HR in Hall.
Qed.

(** What the window is cut from. *)
Lemma limitByProbabilityOrder_sorted (l : Limits) (returnList out : list string) :
  limitByProbabilityOrder l returnList = Some out →
  StronglySorted (keyLt (legacyProbCondition l)) out
  ∧ (∀ w, In w out → In w returnList)
  ∧ (List.length out ≤ List.length returnList)%nat.
Proof.
intros [->|(pos & len & ->)]%limitByProbabilityOrder_within.
- split; [constructor|]. split; [done|simpl; lia].
- split; [apply mid_sorted, probMap_values_sorted|]. split.
  + intros w (i & Hi & _)%mid_In.
    by apply list_elem_of_lookup_2, list_elem_of_In, probMap_values_In in Hi.
  + pose proof (mid_length (valuesOf (probMapOf (legacyProbCondition l) returnList))
                  (Z.of_nat pos) len) as H1.
    pose proof (keys_size (legacyProbCondition l) returnList) as H2.
    pose proof (keys_values_size (legacyProbCondition l) returnList) as H3. lia.
Qed.

Lemma applyPostConditions_within
    (optimizedSpec : SearchSpec) (wordList out : list string) :
  applyPostConditions optimizedSpec wordList = Some out →
  ∀ w, In w out →
       In w (List.filter (λ w, matchesConditions w (conditions optimizedSpec)) wordList).
Proof.
unfold applyPostConditions. destruct (probLimitRangeCondition _).
- by intros (_ & Hsub & _)%limitByProbabilityOrder_sorted.
- by intros [= <-].
Qed.

(** [applyPostConditions] only takes words away: a word it returns is a word
    of the list it was given, and one that [matchesConditions] accepts; the
    list returned is no longer than the list given. *)
Theorem applyPostConditions_only_narrows
    (optimizedSpec : SearchSpec) (wordList out : list string) :
  applyPostConditions optimizedSpec wordList = Some out →
  (∀ w, In w out →
        In w wordList ∧ matchesConditions w (conditions optimizedSpec) = true)
  ∧ (List.length out ≤ List.length wordList)%nat.
Proof.
intros Hout. split.
- intros w Hw. by apply (applyPostConditions_within _ _ _ Hout), filter_In in Hw.
- revert Hout. unfold applyPostConditions.
  pose proof (filter_length_le (λ w, matchesConditions w (conditions optimizedSpec))
                wordList) as Hlen.
  destruct (probLimitRangeCondition _).
  + intros (_ & _ & Hsize)%limitByProbabilityOrder_sorted. lia.
  + by intros [= <-].
Qed.

(** With a [LimitByProbabilityOrder] condition no two words of the result
    are the same word up to the case of its letters: [probMap] has one entry
    for each upper-case word, so of several spellings of a word at most one
    is returned. *)
Theorem limit_returns_one_spelling
    (optimizedSpec : SearchSpec) (wordList out : list string) :
  hasLimit optimizedSpec →
  applyPostConditions optimizedSpec wordList = Some out →
  List.NoDup (map QStr.toUpper out).
Proof.
intros Hflag%hasLimit_flag. unfold applyPostConditions. rewrite Hflag.
intros (Hsorted & _)%limitByProbabilityOrder_sorted.
eapply sorted_NoDup; [|exact Hsorted].
intros a b Hlt Heq. unfold keyLt, radixOf in Hlt. rewrite Heq in Hlt.
by apply lt_irrefl in Hlt.
Qed.



(** Neither loop reads outside [keys] when it starts inside. *)
Lemma widenMin_defined (keys : list string) (comb : string) (lim : Z) :
  ∀ min, (min ≤ List.length keys)%nat → is_Some (widenMin keys comb lim min).
Proof.
induction min as [|below IH]; intros H; cbn [widenMin]; [eauto|].
destruct (_ >? _); [|eauto].
destruct (lookup_lt_is_Some_2 keys below) as [k ->]; [lia|].
destruct (String.eqb _ _); [apply IH; lia|eauto].
Qed.

Lemma widenMax_defined (keys : list string) (comb : string) (lim : Z) :
  ∀ room max, -1 ≤ max → is_Some (widenMax keys comb lim room max).
Proof.
induction room as [|room IH]; intros max Hmax; cbn [widenMax]; [eauto|].
destruct (Z.ltb_spec max (Z.of_nat (List.length keys) - 1)); cbn [andb]; [|eauto].
destruct (max <? lim); [|eauto].
unfold at_. destruct (Z.ltb_spec (max + 1) 0); [lia|].
destruct (lookup_lt_is_Some_2 keys (Z.to_nat (max + 1))) as [k ->]; [lia|].
destruct (String.eqb _ _); [apply IH; lia|eauto].
Qed.

Section Slice.

(** A list without repetition, of counts that fit in nine digits and words
    that are not alike but for the case of their letters. *)
Variable legacyOrder : bool.
Variable returnList : list string.
Hypothesis rangeOk : ∀ w, In w returnList → inRange w.
Hypothesis distinct :
  ∀ a b, In a returnList → In b returnList →
         QStr.toUpper a = QStr.toUpper b → a = b.
Hypothesis nodup : List.NoDup returnList.

(** Every word has a key of its own. *)
Lemma probMap_size :
  List.length (keysOf (probMapOf legacyOrder returnList)) = List.length returnList.
Proof.
apply Nat.le_antisymm; [apply keys_size|].
rewrite <- (keys_values_size legacyOrder returnList).
apply List.NoDup_incl_length; [done|]. intros w Hw.
destruct (values_index legacyOrder returnList rangeOk distinct w Hw) as [i Hi].
eapply list_elem_of_In, list_elem_of_lookup_2, Hi.
Qed.

Lemma limit_undefined (l : Limits) :
  legacyProbCondition l = legacyOrder →
  1 ≤ probLimitRangeMax l → 1 ≤ probLimitRangeMaxLax l →
  limitByProbabilityOrder l returnList = None
  ↔ returnList = [] ∧ probLimitRangeMin l ≤ 0 ∧ probLimitRangeMinLax l ≤ 0.
Proof.
intros Hlegacy Hmax HmaxLax. unfold limitByProbabilityOrder.
rewrite Hlegacy. pose proof probMap_size as Hsize.
change (map fst (probMapOf legacyOrder returnList))
  with (keysOf (probMapOf legacyOrder returnList)).
set (keys := keysOf (probMapOf legacyOrder returnList)) in *.
set (n := Z.of_nat (List.length returnList)).
assert (Z.of_nat (List.length keys) = n) as Hn by (unfold n; lia).
destruct (Z.gtb_spec (probLimitRangeMin l) n) as [H1|H1]; cbn [orb].
{ split; [done|]. intros (-> & ? & ?). simpl in *. lia. }
destruct (Z.gtb_spec (probLimitRangeMinLax l) n) as [H2|H2].
{ split; [done|]. intros (-> & ? & ?). simpl in *. lia. }
cbv zeta.
set (min := Z.max (Z.max 0 (probLimitRangeMin l - 1))
                  (Z.max 0 (probLimitRangeMinLax l - 1))).
set (max := Z.min (Z.min (n - 1) (probLimitRangeMax l - 1))
                  (Z.min (n - 1) (probLimitRangeMaxLax l - 1))).
destruct returnList as [|w rest] eqn:E.
- destruct keys; [|done]. unfold at_.
  assert (min = 0) as -> by (unfold min; simpl in *; lia). simpl. split; [|done].
  intros _. simpl in *. split; [done|lia].
- assert (1 ≤ n) by (unfold n; simpl; lia).
  unfold at_ at 1. destruct (Z.ltb_spec min 0); [lia|].
  destruct (lookup_lt_is_Some_2 keys (Z.to_nat min)) as [kmin ->]; [lia|].
  destruct (widenMin_defined keys (QStr.left 9 kmin)
              (Z.max 0 (probLimitRangeMin l - 1)) (Z.to_nat min)) as [min' ->]; [lia|].
  unfold at_ at 1. destruct (Z.ltb_spec max 0); [lia|].
  destruct (lookup_lt_is_Some_2 keys (Z.to_nat max)) as [kmax ->]; [lia|].
  destruct (widenMax_defined keys (QStr.left 9 kmax)
              (Z.min (n - 1) (probLimitRangeMax l - 1)) (List.length keys) max)
    as [max' ->]; [lia|].
  split; [done|]. by intros [? _].
Qed.


End Slice.


(** When the upper bounds are at least 1, [applyPostConditions] reads
    outside the list of keys in one case only: no word passes
    [matchesConditions] and neither lower bound is above 0, so that
    [keys[0]] is read from the empty list.  (The list is one without
    repetition, with counts that fit in nine digits and no two words alike
    but for case.) *)
Theorem limit_reads_outside_only_on_nothing
    (optimizedSpec : SearchSpec) (wordList : list string) :
  let cs := conditions optimizedSpec in
  let returnList := List.filter (λ w, matchesConditions w cs) wordList in
  let l := limitsOf cs in
  hasLimit optimizedSpec →
  List.NoDup wordList →
  (∀ w, In w returnList → inRange w) →
  (∀ a b, In a returnList → In b returnList →
          QStr.toUpper a = QStr.toUpper b → a = b) →
  1 ≤ probLimitRangeMax l → 1 ≤ probLimitRangeMaxLax l →
  applyPostConditions optimizedSpec wordList = None
  ↔ returnList = [] ∧ probLimitRangeMin l ≤ 0 ∧ probLimitRangeMinLax l ≤ 0.
Proof.
intros cs returnList l Hflag%hasLimit_flag Hnodup Hrange Hdistinct Hmax HmaxLax.
unfold applyPostConditions. rewrite Hflag. fold cs returnList l.
apply (limit_undefined (legacyProbCondition l)); try done.
by apply List.NoDup_filter.
Qed.

(** *** Further results on [isSetMember] *)

Lemma isChar_eq (c d : ascii) : Links.isChar c d = true ↔ c = d.
Proof.
unfold Links.isChar, QStr.code. rewrite N.eqb_eq. split; [|by intros ->].
intros H. by rewrite <- (ascii_N_embedding c), H, ascii_N_embedding.
Qed.

Lemma append_cons (x : ascii) (a b : string) : String x a ++ b = String x (a ++ b).
Proof. reflexivity. Qed.

Lemma append_assoc (a b c : string) : (a ++ b) ++ c = a ++ b ++ c.
Proof.
induction a as [|x a IH]; [done|]. by rewrite !append_cons, IH.
Qed.

(** The loop over the positions of the alphagram finds a stem exactly when
    leaving out one letter gives a stem of the set. *)
Lemma stemPlusOne_spec (alphaset : gset string) : ∀ after before,
  stemPlusOne alphaset before after = true
  ↔ ∃ x c y, after = x ++ String c y ∧ before ++ x ++ y ∈ alphaset.
Proof.
induction after as [|c rest IH]; intros before; cbn [stemPlusOne].
- split; [done|]. intros (x & c & y & H & _). by destruct x.
- rewrite orb_true_iff, bool_decide_eq_true, IH. split.
  + intros [H|(x & d & y & -> & H)].
    * by exists EmptyString, c, rest.
    * exists (String c x), d, y. split; [done|]. by rewrite append_assoc in H.
  + intros (x & d & y & Heq & H). destruct x as [|e x].
    * injection Heq as -> ->. by left.
    * rewrite append_cons in Heq. injection Heq as -> ->.
      right. exists x, d, y. split; [done|]. by rewrite append_assoc.
Qed.

(** The Type I sevens are the words of seven letters whose alphagram is the
    alphagram of a six-letter stem with one letter put in, and the "eights
    from seven-letter stems" the words of eight letters whose alphagram is
    that of a seven-letter stem with one letter put in; without a stem list
    of that length the set is empty. *)
Theorem stem_sets_are_a_stem_and_a_letter (w : string) :
  (isSetMember w SetTypeOneSevens = true
   ↔ QStr.len w = 7
     ∧ ∃ alphaset x c y,
         stemAlphagrams !! 6 = Some alphaset
         ∧ Auxil.getAlphagram w = x ++ String c y ∧ x ++ y ∈ alphaset)
  ∧ (isSetMember w SetEightsFromSevenLetterStems = true
     ↔ QStr.len w = 8
       ∧ ∃ alphaset x c y,
           stemAlphagrams !! 7 = Some alphaset
           ∧ Auxil.getAlphagram w = x ++ String c y ∧ x ++ y ∈ alphaset).
Proof.
split; simpl; unfold isTypeOneSeven.
- destruct (Z.eqb_spec (QStr.len w) 7) as [Hlen|Hlen]; simpl; [|by split; [|intros []]].
  rewrite Hlen. change (7 - 1) with 6.
  destruct (stemAlphagrams !! 6) as [alphaset|].
  + rewrite stemPlusOne_spec. split.
    * intros (x & c & y & H1 & H2). split; [done|]. by exists alphaset, x, c, y.
    * intros (_ & alphaset' & x & c & y & [= <-] & H1 & H2). by exists x, c, y.
  + split; [done|]. by intros (_ & ? & ? & ? & ? & ? & _).
- destruct (Z.eqb_spec (QStr.len w) 8) as [Hlen|Hlen]; simpl; [|by split; [|intros []]].
  rewrite Hlen. change (8 - 1) with 7.
  destruct (stemAlphagrams !! 7) as [alphaset|].
  + rewrite stemPlusOne_spec. split.
    * intros (x & c & y & H1 & H2). split; [done|]. by exists alphaset, x, c, y.
    * intros (_ & alphaset' & x & c & y & [= <-] & H1 & H2). by exists x, c, y.
  + split; [done|]. by intros (_ & ? & ? & ? & ? & ? & _).
Qed.

(** A word is of one type at most: no word is in two of the sets of Type I,
    Type II and Type III sevens, nor in two of those of the eights; the
    sevens have seven letters and the eights eight. *)
Theorem type_sets_do_not_overlap (w : string) :
  (∀ ss, In ss [SetTypeOneSevens; SetTypeTwoSevens; SetTypeThreeSevens] →
         isSetMember w ss = true → QStr.len w = 7)
  ∧ (∀ ss, In ss [SetTypeOneEights; SetTypeTwoEights; SetTypeThreeEights;
                  SetEightsFromSevenLetterStems] →
           isSetMember w ss = true → QStr.len w = 8)
  ∧ (∀ a b, In a [SetTypeOneSevens; SetTypeTwoSevens; SetTypeThreeSevens] →
            In b [SetTypeOneSevens; SetTypeTwoSevens; SetTypeThreeSevens] →
            isSetMember w a = true → isSetMember w b = true → a = b)
  ∧ (∀ a b, In a [SetTypeOneEights; SetTypeTwoEights; SetTypeThreeEights] →
            In b [SetTypeOneEights; SetTypeTwoEights; SetTypeThreeEights] →
            isSetMember w a = true → isSetMember w b = true → a = b).
Proof.
assert (∀ ss, In ss [SetTypeOneSevens; SetTypeTwoSevens; SetTypeThreeSevens] →
              ss = SetTypeOneSevens ∨ ss = SetTypeTwoSevens ∨ ss = SetTypeThreeSevens)
  as Hsevens by (intros ss [<-|[<-|[<-|[]]]]; auto).
assert (∀ ss, In ss [SetTypeOneEights; SetTypeTwoEights; SetTypeThreeEights] →
              ss = SetTypeOneEights ∨ ss = SetTypeTwoEights ∨ ss = SetTypeThreeEights)
  as Heights by (intros ss [<-|[<-|[<-|[]]]]; auto).
split; [|split; [|split]].
- intros ss [-> | [-> | ->]]%Hsevens; cbn [isSetMember];
    unfold isTypeTwoSeven, isTypeOneSeven;
    by destruct (Z.eqb_spec (QStr.len w) 7).
- intros ss [<-|[<-|[<-|[<-|[ ] ] ] ] ]; cbn [isSetMember];
    unfold isTypeTwoEight, isTypeOneEight;
    by destruct (Z.eqb_spec (QStr.len w) 8).
- intros a b [-> | [-> | ->]]%Hsevens [-> | [-> | ->]]%Hsevens; cbn [isSetMember];
    unfold isTypeTwoSeven; try done;
    destruct (negb (QStr.len w =? 7)); try done;
    destruct (isTypeOneSeven w); cbn [negb]; rewrite ?andb_false_r; try done;
    destruct (followsTypeTwo _ _); cbn [negb andb]; rewrite ?andb_false_r; done.
- intros a b [-> | [-> | ->]]%Heights [-> | [-> | ->]]%Heights; cbn [isSetMember];
    unfold isTypeTwoEight; try done;
    destruct (negb (QStr.len w =? 8)); try done;
    destruct (isTypeOneEight w); cbn [negb]; rewrite ?andb_false_r; try done;
    destruct (followsTypeTwo _ _); cbn [negb andb]; rewrite ?andb_false_r; done.
Qed.

(** The loop over [typeTwoChars] succeeds exactly when the letters of the
    alphagram can be picked, in their order, from the letters of the list. *)
Lemma followsTypeTwo_spec : ∀ t a,
  a ≠ EmptyString →
  followsTypeTwo a t = true
  ↔ sublist (list_ascii_of_string a) (list_ascii_of_string t).
Proof.
induction t as [|tc rest IH]; intros a Ha; cbn [followsTypeTwo list_ascii_of_string].
- split; [done|]. intros H%sublist_nil_r. by destruct a.
- destruct a as [|wc more]; [done|]. cbn [list_ascii_of_string].
  destruct (Links.isChar tc wc) eqn:E.
  + apply isChar_eq in E as ->. destruct more as [|c more'].
    * cbn [QStr.isEmpty list_ascii_of_string]. split; [intros _|done].
      apply sublist_skip, sublist_nil_l.
    * cbn [QStr.isEmpty]. rewrite IH by done. split; [apply sublist_skip|].
      intros [H|(l' & [= <-] & H)]%sublist_cons_r; [|done].
      etrans; [apply sublist_cons; reflexivity|exact H].
  + assert (tc ≠ wc) as Hne.
    { intros ->. by rewrite (proj2 (isChar_eq wc wc) eq_refl) in E. }
    rewrite IH by done. split; [apply sublist_cons|].
    intros [H|(l' & [= ? ?] & _)]%sublist_cons_r; [done|congruence].
Qed.

(** The Type II sevens and eights are the words of that length whose
    letters can all be picked, each letter as often as it occurs, from the
    letters AAADEEEEGIIILNNOORRSSTTU, and that are not of Type I. *)
Theorem type_two_letters_come_from_the_list (w : string) :
  (isSetMember w SetTypeTwoSevens = true
   ↔ QStr.len w = 7
     ∧ sublist (list_ascii_of_string (Auxil.getAlphagram w))
               (list_ascii_of_string typeTwoChars)
     ∧ isSetMember w SetTypeOneSevens = false)
  ∧ (isSetMember w SetTypeTwoEights = true
     ↔ QStr.len w = 8
       ∧ sublist (list_ascii_of_string (Auxil.getAlphagram w))
                 (list_ascii_of_string typeTwoChars)
       ∧ isSetMember w SetTypeOneEights = false).
Proof.
clear db optimize wordGraphSearch getNumCombinations stringToSearchSet.
assert (∀ n, QStr.len w = Z.pos n → Auxil.getAlphagram w ≠ EmptyString) as Hne.
{ intros n Hn E. apply (f_equal String.length) in E.
  rewrite getAlphagram_length in E. unfold QStr.len in Hn. simpl in E. lia. }
split; cbn [isSetMember]; unfold isTypeTwoSeven, isTypeTwoEight.
- destruct (Z.eqb_spec (QStr.len w) 7) as [Hlen|Hlen]; cbn [negb];
    [|by split; [|intros []]].
  rewrite andb_true_iff, negb_true_iff, (followsTypeTwo_spec _ _ (Hne _ Hlen)).
  tauto.
- destruct (Z.eqb_spec (QStr.len w) 8) as [Hlen|Hlen]; cbn [negb];
    [|by split; [|intros []]].
  rewrite andb_true_iff, negb_true_iff, (followsTypeTwo_spec _ _ (Hne _ Hlen)).
  tauto.
Qed.

Lemma letters_length (s : string) :
  List.length (list_ascii_of_string s) = String.length s.
Proof. induction s as [|c s IH]; simpl; [done|]. by rewrite IH. Qed.

(** The loop that counts the letters missing from a stem: when the alphagram
    has as many letters more than the stem as may still be missed, at most
    two are counted exactly when the letters of the stem can be picked, in
    their order, from the alphagram. *)
Lemma missingLetters_spec : ∀ agram s missing,
  (missing ≤ 2)%nat →
  String.length agram = (String.length s + (2 - missing))%nat →
  (missingLetters agram s missing ≤ 2)%nat
  ↔ sublist (list_ascii_of_string s) (list_ascii_of_string agram).
Proof.
induction agram as [|a rest IH]; intros s missing Hm Hlen.
- destruct s; simpl in Hlen; [|lia]. simpl. split; [constructor|lia].
- destruct s as [|b stemRest].
  + cbn [missingLetters list_ascii_of_string]. split; [intros _; apply sublist_nil_l|lia].
  + cbn [missingLetters list_ascii_of_string]. simpl in Hlen.
    destruct (Links.isChar a b) eqn:E.
    * apply isChar_eq in E as ->. rewrite IH by lia. split; [apply sublist_skip|].
      intros [H|(l' & [= <-] & H)]%sublist_cons_r; [|done].
      etrans; [apply sublist_cons; reflexivity|exact H].
    * assert (a ≠ b) as Hne.
      { intros ->. by rewrite (proj2 (isChar_eq b b) eq_refl) in E. }
      destruct (Nat.ltb_spec 2 (S missing)) as [Hover|Hroom].
      -- split; [lia|].
         intros [H%sublist_length|(l' & [= ? ?] & _)]%sublist_cons_r; [|congruence].
         simpl in H. rewrite !letters_length in H. lia.
      -- rewrite (IH (String b stemRest) (S missing)) by (simpl; lia).
         cbn [list_ascii_of_string]. split; [apply sublist_cons|].
         intros [H|(l' & [= ? ?] & _)]%sublist_cons_r; [done|congruence].
Qed.

(** When the stems kept under the length six have six letters, the Type I
    eights are the words of eight letters whose alphagram holds the letters
    of a six-letter stem, each as often as the stem has it: a stem and two
    more letters. *)
Theorem type_one_eights_hold_a_stem (w : string) :
  (∀ alphaset a, stemAlphagrams !! 6 = Some alphaset → a ∈ alphaset →
                 String.length a = 6%nat) →
  isSetMember w SetTypeOneEights = true
  ↔ QStr.len w = 8
    ∧ ∃ alphaset a,
        stemAlphagrams !! 6 = Some alphaset ∧ a ∈ alphaset
        ∧ sublist (list_ascii_of_string a)
                  (list_ascii_of_string (Auxil.getAlphagram w)).
Proof.
intros Hsix. cbn [isSetMember]. unfold isTypeOneEight.
destruct (Z.eqb_spec (QStr.len w) 8) as [Hlen|Hlen]; cbn [negb];
  [|by split; [|intros []]].
rewrite Hlen. change (8 - 2) with 6.
destruct (stemAlphagrams !! 6) as [alphaset|] eqn:E.
2:{ split; [done|]. by intros (_ & ? & ? & ? & _). }
assert (∀ a, a ∈ alphaset →
          (missingLetters (Auxil.getAlphagram w) a 0 ≤ 2)%nat
          ↔ sublist (list_ascii_of_string a)
                    (list_ascii_of_string (Auxil.getAlphagram w))) as Hspec.
{ intros a Ha. apply missingLetters_spec; [lia|].
  rewrite getAlphagram_length, (Hsix alphaset a eq_refl Ha).
  unfold QStr.len in Hlen. lia. }
rewrite existsb_exists. split.
- intros (a & Ha%list_elem_of_In%elem_of_elements & Hle%Nat.leb_le).
  split; [done|]. exists alphaset, a. split; [done|]. split; [done|].
  by apply Hspec.
- intros (_ & alphaset' & a & [= <-] & Ha & Hsub). exists a. split.
  + by apply list_elem_of_In, elem_of_elements.
  + by apply Nat.leb_le, Hspec.
Qed.

(** *** Further results on the statement of [databaseSearch] *)

(** The tests of a clause, and the clauses that are tests with one [AND]
    between each two. *)
Definition testsOf (ts : list Token) : list Atom :=
flat_map (λ t, match t with Test a => [a] | AND => [] end) ts.

Fixpoint alternates (ts : list Token) : bool :=
match ts with
| [Test _] => true
| Test _ :: AND :: rest => alternates rest
| _ => false
end.

Lemma alternates_parse_bounded (n : nat) : ∀ ts post,
  (List.length ts ≤ n)%nat → alternates ts = true →
  parseFrom true (ts ++ post) = (λ atoms, testsOf ts ++ atoms)%list <$> parseFrom false post.
Proof.
induction n as [|n IH]; intros ts post Hn Hts.
- destruct ts; [done|]. simpl in Hn. lia.
- destruct ts as [|[|a] [|[|b] rest]]; try done.
  simpl in Hts, Hn. change ((Test a :: AND :: rest) ++ post)%list
    with (Test a :: AND :: (rest ++ post))%list.
  cbn [parseFrom]. rewrite IH by (done || lia).
  by destruct (parseFrom false post).
Qed.

Lemma alternates_parse (ts post : list Token) :
  alternates ts = true →
  parseFrom true (ts ++ post) = (λ atoms, testsOf ts ++ atoms)%list <$> parseFrom false post.
Proof. by apply (alternates_parse_bounded (List.length ts)). Qed.

Lemma alternates_app_bounded (n : nat) : ∀ a b,
  (List.length a ≤ n)%nat → alternates a = true → alternates b = true →
  alternates (a ++ AND :: b) = true.
Proof.
induction n as [|n IH]; intros a b Hn Ha Hb.
- destruct a; [done|]. simpl in Hn. lia.
- destruct a as [|[|x] [|[|y] rest]]; try done.
  simpl in Ha, Hn. change ((Test x :: AND :: rest) ++ AND :: b)%list
    with (Test x :: AND :: (rest ++ AND :: b))%list.
  cbn [alternates]. apply IH; (done || lia).
Qed.

Lemma alternates_app (a b : list Token) :
  alternates a = true → alternates b = true → alternates (a ++ AND :: b) = true.
Proof. by apply (alternates_app_bounded (List.length a)). Qed.

Lemma lettersSql_alternates (neg : bool) (s : string) (a : Atom) :
  alternates (Test a :: lettersSql neg false s) = true.
Proof.
revert a. induction s as [|c s IH]; intros a; [done|].
cbn [lettersSql]. apply (IH (Like neg c)).
Qed.

(** What one attribute-store condition appends is such a clause, unless it
    is an [IncludeLetters] condition without letters, which appends
    nothing. *)
Lemma conditionSql_alternates (c : SearchCondition) :
  isDatabaseType (type c) = true →
  (type c = IncludeLetters → stringValue c ≠ EmptyString) →
  alternates (conditionSql c) = true.
Proof.
unfold conditionSql, rangeSql. intros Hdb Hletters.
destruct (type c) eqn:E; try done;
  try (by destruct (minValue c =? maxValue c));
  try (by destruct (boolValue c), (minValue c =? maxValue c)).
destruct (stringValue c) as [|x s]; [by destruct Hletters|].
apply lettersSql_alternates.
Qed.

Lemma conditionSql_other (c : SearchCondition) :
  isDatabaseType (type c) = false → conditionSql c = [].
Proof. unfold conditionSql. by destruct (type c). Qed.

Lemma whereSql_alternates (cs : list SearchCondition) :
  (∀ c, In c cs → type c = IncludeLetters → stringValue c ≠ EmptyString) →
  ∀ foundCondition,
    (existsb (λ c, isDatabaseType (type c)) cs = false
     ∧ whereSql foundCondition cs = [])
    ∨ ∃ ts, alternates ts = true
            ∧ whereSql foundCondition cs = if foundCondition then AND :: ts else ts.
Proof.
induction cs as [|c cs IH]; intros Hletters foundCondition; [by left|].
cbn [whereSql existsb].
assert (∀ c', In c' cs → type c' = IncludeLetters → stringValue c' ≠ EmptyString)
  as Hrest by (intros; apply Hletters; [by right|done]).
destruct (isDatabaseType (type c)) eqn:Hdb.
- right. pose proof (conditionSql_alternates c Hdb (Hletters c (or_introl eq_refl))) as Hc.
  rewrite orb_true_r. cbn [andb orb].
  destruct (IH Hrest true) as [[_ ->]|(ts & Hts & ->)].
  + exists (conditionSql c). rewrite app_nil_r. split; [done|].
    by destruct foundCondition.
  + exists (conditionSql c ++ AND :: ts)%list. split; [by apply alternates_app|].
    by destruct foundCondition.
- rewrite (conditionSql_other c Hdb), orb_false_r. cbn [andb orb app].
  apply (IH Hrest).
Qed.

Lemma databaseQuery_alternates (optimizedSpec : SearchSpec)
    (wordList : option (list string)) :
  existsb (λ c, isDatabaseType (type c)) (conditions optimizedSpec) = true →
  (∀ c, In c (conditions optimizedSpec) →
        type c = IncludeLetters → stringValue c ≠ EmptyString) →
  alternates (databaseQuery optimizedSpec wordList) = true.
Proof.
intros Hdb Hletters. unfold databaseQuery.
destruct (whereSql_alternates _ Hletters false) as [[Hno _]|(ts & Hts & ->)];
  [congruence|].
destruct wordList as [ws|]; simpl.
- by apply alternates_app.
- by rewrite app_nil_r.
Qed.

(** On an open store, a statement in which no pasted text holds an
    apostrophe is answered by the rows that satisfy it. *)
Lemma select_wellQuoted (table : Table) (where_ : list Token) :
  wellQuoted where_ = true →
  select (Some table) where_ = List.filter (satisfies where_) (tableRows table).
Proof. intros H. unfold select. by rewrite H. Qed.

(** The statement [databaseSearch] builds is well formed, tests with one
    [AND] between each two, when an attribute-store condition is present, no
    [IncludeLetters] condition has an empty string and nothing that is
    pasted between quotes (a letter of [IncludeLetters], a word of
    [InWordList] or of the word list) holds an apostrophe: every test it
    wrote counts, and on an open store the words [databaseSearch] returns
    are the words of the rows that pass them all, in the spelling of the
    word list when there is one. *)
Theorem databaseSearch_statement_is_well_formed
    (optimizedSpec : SearchSpec) (wordList : option (list string)) (st : State) :
  (∃ c, In c (conditions optimizedSpec) ∧ isDatabaseType (type c) = true) →
  (∀ c, In c (conditions optimizedSpec) →
        type c = IncludeLetters → stringValue c ≠ EmptyString) →
  wellQuoted (databaseQuery optimizedSpec wordList) = true →
  parse (databaseQuery optimizedSpec wordList)
  = Some (testsOf (databaseQuery optimizedSpec wordList))
  ∧ ∀ table, db = Some table →
      ∀ w, In w (fst (databaseSearch optimizedSpec wordList st))
           ↔ ∃ r, In r (tableRows table)
                  ∧ forallb (λ a, holds a r)
                      (testsOf (databaseQuery optimizedSpec wordList)) = true
                  ∧ w = restoreCase wordList (word r).
Proof.
clear optimize wordGraphSearch containsWord getNumCombinations stringToSearchSet
  stemAlphagrams letterBag.
intros (c & Hin & Hc) Hletters Hq.
assert (parse (databaseQuery optimizedSpec wordList)
        = Some (testsOf (databaseQuery optimizedSpec wordList))) as Hparse.
{ unfold parse.
  rewrite <- (app_nil_r (databaseQuery optimizedSpec wordList)) at 1.
  rewrite alternates_parse; [simpl; by rewrite app_nil_r|].
  apply databaseQuery_alternates; [|done].
  apply existsb_exists. eauto. }
split; [done|]. intros table Hdb w. unfold databaseSearch. cbn [fst].
rewrite Hdb, select_wellQuoted, in_map_iff by done. unfold satisfies.
rewrite Hparse. split.
- intros (r & <- & [? ?]%filter_In). eauto.
- intros (r & Hr & Hpass & ->). exists r. split; [done|]. by apply filter_In.
Qed.

(** *** Further results on the stages of a search *)

Lemma parseFrom_last (a : Atom) : ∀ pre wantTest atoms,
  parseFrom wantTest (pre ++ [AND; Test a]) = Some atoms → In a atoms.
Proof.
induction pre as [|t pre IH]; intros wantTest atoms.
- destruct wantTest; simpl; [done|]. intros [= <-]. by left.
- destruct t, wantTest; simpl; try done; [apply IH|].
  destruct (parseFrom false (pre ++ _)) eqn:E; [|done].
  intros [= <-]. right. by eapply IH.
Qed.

(** [upperToLower] holds, under the upper-case form of every word of the
    list, a word of the list with that upper-case form. *)
Lemma upperToLower_fold (ws : list string) : ∀ (m : gmap string string) k v,
  fold_left (λ m w, <[QStr.toUpper w := w]> m) ws m !! k = Some v →
  (In v ws ∧ QStr.toUpper v = k) ∨ m !! k = Some v.
Proof.
induction ws as [|w ws IH]; intros m k v; simpl; [auto|].
intros [[? ?]|H]%IH; [auto|].
destruct (decide (QStr.toUpper w = k)) as [<-|Hne].
- rewrite lookup_insert_eq in H. injection H as <-. auto.
- rewrite lookup_insert_ne in H by done. auto.
Qed.

Lemma upperToLower_keeps (ws : list string) : ∀ (m : gmap string string) k,
  is_Some (m !! k) →
  is_Some (fold_left (λ m w, <[QStr.toUpper w := w]> m) ws m !! k).
Proof.
induction ws as [|w ws IH]; intros m k H; simpl; [done|]. apply IH.
destruct (decide (QStr.toUpper w = k)) as [<-|Hne].
- rewrite lookup_insert_eq. eauto.
- by rewrite lookup_insert_ne.
Qed.

Lemma upperToLower_has (ws : list string) : ∀ (m : gmap string string) w,
  In w ws →
  is_Some (fold_left (λ m w, <[QStr.toUpper w := w]> m) ws m !! QStr.toUpper w).
Proof.
induction ws as [|w0 ws IH]; intros m w Hw; [done|].
destruct Hw as [->|Hin]; simpl.
- apply upperToLower_keeps. rewrite lookup_insert_eq. eauto.
- by apply IH.
Qed.

Lemma databaseSearch_within
    (optimizedSpec : SearchSpec) (ws : list string) (st : State) (w : string) :
  wellQuoted (databaseQuery optimizedSpec (Some ws)) = true →
  In w (fst (databaseSearch optimizedSpec (Some ws) st)) →
  In w ws
  ∧ ∃ r, In r (select db (databaseQuery optimizedSpec (Some ws)))
         ∧ word r = QStr.toUpper w.
Proof.
unfold databaseSearch. cbn [fst]. intros Hq (r & <- & Hr)%in_map_iff.
assert (satisfies (databaseQuery optimizedSpec (Some ws)) r = true) as Hsat.
{ destruct db as [table|]; [|done]. rewrite select_wellQuoted in Hr by done.
  by apply filter_In in Hr as [_ ?]. }
unfold satisfies, parse in Hsat.
destruct (parseFrom true _) as [atoms|] eqn:E; [|done].
unfold databaseQuery, wordListSql in E. apply parseFrom_last in E.
rewrite forallb_forall in Hsat. apply Hsat in E. cbn [holds xorb] in E.
apply existsb_exists in E as (u & Hu & Heq%String.eqb_eq).
apply in_map_iff in Hu as (w0 & Hw0 & Hin).
destruct (upperToLower_has ws ∅ w0 Hin) as [v Hv].
rewrite Hw0, <- Heq in Hv.
unfold restoreCase, upperToLower. rewrite Hv. cbn [default].
apply upperToLower_fold in Hv as [[? ?]|Hv]; [|by rewrite lookup_empty in Hv].
split; [done|]. exists r. auto.
Qed.

(** Given the words the word graph found, and when nothing that is pasted
    between quotes into the statement (these words in upper case, the
    letters of [IncludeLetters], the words of [InWordList]) holds an
    apostrophe, [databaseSearch] returns words of that list only, in the
    spelling of the list: one word for each row the statement selects, whose
    upper-case form is the word of the row, a row of the table that passes
    the tests of the statement. *)
Theorem databaseSearch_restores_the_listed_spelling
    (optimizedSpec : SearchSpec) (ws : list string) (st : State) :
  wellQuoted (databaseQuery optimizedSpec (Some ws)) = true →
  (∀ w, In w (fst (databaseSearch optimizedSpec (Some ws) st)) →
        In w ws
        ∧ ∃ table r, db = Some table ∧ In r (tableRows table)
                     ∧ satisfies (databaseQuery optimizedSpec (Some ws)) r = true
                     ∧ word r = QStr.toUpper w)
  ∧ (∀ table, db = Some table →
       List.length (fst (databaseSearch optimizedSpec (Some ws) st))
       = List.length
           (List.filter (satisfies (databaseQuery optimizedSpec (Some ws)))
              (tableRows table))).
Proof.
clear optimize wordGraphSearch containsWord getNumCombinations stringToSearchSet
  stemAlphagrams letterBag.
intros Hq. split.
- intros w Hw. destruct (databaseSearch_within _ _ _ _ Hq Hw) as [Hin (r & Hr & Hrw)].
  split; [done|]. destruct db as [table|]; [|done].
  rewrite select_wellQuoted in Hr by done. apply filter_In in Hr as [? ?].
  exists table, r. auto.
- intros table Hdb. unfold databaseSearch. cbn [fst].
  by rewrite Hdb, length_map, select_wellQuoted.
Qed.

Lemma toUpperChar_idem (c : ascii) :
  QStr.toUpperChar (QStr.toUpperChar c) = QStr.toUpperChar c.
Proof.
unfold QStr.toUpperChar at 2 3. destruct (QStr.isLower c) eqn:E; unfold QStr.toUpperChar.
- assert (QStr.isLower (ascii_of_N (QStr.code c - 32)) = false) as ->; [|done].
  unfold QStr.isLower, QStr.code in *. apply andb_true_iff in E as [E1 E2].
  apply N.leb_le in E1, E2. rewrite N_ascii_embedding by lia.
  apply andb_false_iff. left. apply N.leb_gt. lia.
- by rewrite E.
Qed.

Lemma toUpper_idem (s : string) : QStr.toUpper (QStr.toUpper s) = QStr.toUpper s.
Proof. induction s as [|c s IH]; simpl; [done|]. by rewrite toUpperChar_idem, IH. Qed.

(** The list the finishing steps return is made of words of the list they
    were given, put in upper case when [allCaps] is set. *)
Lemma finish_within (optimizedSpec : SearchSpec) (allCaps : bool)
    (resultList : list string) (st : State) (result : list string) (st' : State) :
  finish optimizedSpec allCaps resultList st = Some (result, st') →
  ∀ w, In w result →
       ∃ g, In g resultList ∧ w = if allCaps then QStr.toUpper g else g.
Proof.
unfold finish.
destruct (if (countType isPostType (conditions optimizedSpec) =? 0)%nat
          then Some resultList
          else applyPostConditions optimizedSpec resultList) as [r|] eqn:E; [|done].
assert (∀ w, In w r → In w resultList) as Hsub.
{ destruct (_ =? _)%nat; [by injection E as <-|].
  intros w Hw. by apply (applyPostConditions_within _ _ _ E), filter_In in Hw as [? _]. }
assert (∀ w, In w (if allCaps then map QStr.toUpper r else r) →
             ∃ g, In g resultList ∧ w = if allCaps then QStr.toUpper g else g) as H.
{ destruct allCaps; [|by eauto]. intros w (g & <- & Hg)%in_map_iff. eauto. }
by destruct (isNil _); intros [= <- <-].
Qed.

(** Every word [search] returns is a word of one of its two sources, put in
    upper case when [allCaps] is set: a word the word graph found, when the
    graph is searched (a word-graph condition is present, or no
    attribute-store stage is left) and, if the attribute-store stage runs
    too, nothing pasted into its statement holds an apostrophe; and, when
    the graph is not searched, the word of a row that the database returns
    for the statement of [databaseSearch].  With [allCaps] every word of the
    result is in upper case. *)
Theorem search_returns_words_of_its_sources
    (spec : SearchSpec) (allCaps : bool) (st : State)
    (result : list string) (st' : State) :
  search spec allCaps st = Some (result, st') →
  (allCaps = true → ∀ w, In w result → QStr.toUpper w = w)
  ∧ ((1 ≤ countType isWordGraphType (conditions (optimize spec)))%nat
     ∨ databaseStage (conditions (optimize spec)) = O →
     (databaseStage (conditions (optimize spec)) ≠ O →
      wellQuoted
        (databaseQuery (optimize spec) (Some (wordGraphSearch (optimize spec))))
      = true) →
     ∀ w, In w result →
          ∃ g, In g (wordGraphSearch (optimize spec))
               ∧ w = if allCaps then QStr.toUpper g else g)
  ∧ (countType isWordGraphType (conditions (optimize spec)) = O →
     databaseStage (conditions (optimize spec)) ≠ O →
     ∀ w, In w result →
          ∃ r, In r (select db (databaseQuery (optimize spec) None))
               ∧ w = if allCaps then QStr.toUpper (word r) else word r).
Proof.
rewrite search_stages. intros Hsearch.
assert (∀ w, In w result →
             ∃ g, In g (fst (stages (optimize spec) st))
                  ∧ w = if allCaps then QStr.toUpper g else g) as Hfinish.
{ destruct (isNil _); [by injection Hsearch as <- <-|].
  by eapply finish_within. }
clear Hsearch. split; [|split].
- intros -> w (g & _ & ->)%Hfinish. apply toUpper_idem.
- intros Hgraph Hq w (g & Hg & ->)%Hfinish. exists g. split; [|done].
  revert Hg. unfold stages. cbv zeta.
  destruct (countType isWordGraphType (conditions (optimize spec)) =? 0)%nat eqn:Ewg;
    destruct (databaseStage (conditions (optimize spec)) =? 0)%nat eqn:Edb;
    cbn [negb orb andb].
  + by destruct (isNil _).
  + apply Nat.eqb_eq in Ewg. apply Nat.eqb_neq in Edb. lia.
  + by destruct (isNil _).
  + destruct (isNil _); [done|]. apply Nat.eqb_neq in Edb.
    intros Hg. by apply databaseSearch_within in Hg as [? _]; [|apply Hq].
- intros Hwg Hdb w (g & Hg & ->)%Hfinish.
  revert Hg. unfold stages. cbv zeta.
  apply Nat.eqb_eq in Hwg as ->. apply Nat.eqb_neq in Hdb as ->.
  cbn [negb orb andb fst databaseSearch restoreCase].
  intros (r & <- & Hr)%in_map_iff. eauto.
Qed.


(** A search sends two statements at most, whatever the number of words:
    the statement of [databaseSearch] when the attribute-store stage runs,
    then, when the result is not empty and the store is open, the one
    statement by which [addToCache] reads the rows of the whole result. *)
Theorem search_sends_two_statements_at_most
    (spec : SearchSpec) (allCaps : bool) (st : State)
    (result : list string) (st' : State) :
  search spec allCaps st = Some (result, st') →
  ∃ info words,
    sent st' = (info ++ words ++ sent st)%list
    ∧ (words = []
       ∨ ∃ wordList, words = [SelectWords (databaseQuery (optimize spec) wordList)])
    ∧ (info = []
       ∨ (result ≠ [] ∧ dbIsOpen = true ∧ info = [SelectInfo (infoQuery result)])).
Proof.
rewrite search_stages. intros Hsearch.
assert (∃ words,
          sent (snd (stages (optimize spec) st)) = (words ++ sent st)%list
          ∧ (words = []
             ∨ ∃ wordList,
                 words = [SelectWords (databaseQuery (optimize spec) wordList)]))
  as (words & Hwords & Hshape).
{ unfold stages. cbv zeta.
  destruct (_ && isNil _); [exists []; auto|].
  destruct (negb (databaseStage _ =? 0)%nat); [|exists []; auto].
  unfold databaseSearch. cbn [snd sent]. eexists [_]. split; [done|]. eauto. }
destruct (isNil _).
{ injection Hsearch as <- <-. exists [], words. auto. }
apply finish_cache in Hsearch as [Hempty Hfull].
destruct result as [|w result'].
- rewrite Hempty by done. exists [], words. auto.
- rewrite Hfull by done. unfold addToCache.
  destruct dbIsOpen eqn:Hdb; cbn [negb].
  + exists [SelectInfo (infoQuery (w :: result'))], words. cbn [sent clearCache].
    rewrite Hwords. split; [done|]. split; [done|]. right. auto.
  + exists [], words. auto.
Qed.

End Engine.

(** ** A small lexicon *)

Module Demo.

Definition numbers (len vowels unique points anagrams order minOrder maxOrder : Z)
  : Column → Z :=
λ column,
  match column with
  | length => len
  | num_vowels => vowels
  | num_unique_letters => unique
  | point_value => points
  | num_anagrams => anagrams
  | probability_order => order
  | min_probability_order => minOrder
  | max_probability_order => maxOrder
  end.

Definition rows : list Row :=
[ mkRow "ACRE" (numbers 4 2 4 6 3 4 4 6) "nt" "ds" "a unit of area [n ACRES]";
  mkRow "CARE" (numbers 4 2 4 6 3 5 4 6) "s" "dfrstx" "to be concerned [v CARED]";
  mkRow "RACE" (numbers 4 2 4 6 3 6 4 6) "bgt" "drs" "to run swiftly [v RACED]";
  mkRow "EARS" (numbers 4 2 4 4 7 1 1 3) "bdfghlnprstwy" "" "<ear=n> [n]";
  mkRow "SEAR" (numbers 4 2 4 4 7 3 1 3) "" "s" "to burn the surface of [v SEARED]" ].

(** The store with this table; it answers a statement that a pasted
    apostrophe has broken with no row. *)
Definition table : Table := mkTable rows (λ _, []).

Definition lexicon : list string := map word rows.

(** The word graph of the lexicon, as far as the examples ask it: the
    anagrams of the operand of the first word-graph condition. *)
Definition graphSearch (spec : SearchSpec) : list string :=
match List.filter (λ c, isWordGraphType (type c)) (conditions spec) with
| c :: _ =>
    List.filter
      (λ w, String.eqb (Auxil.getAlphagram w) (Auxil.getAlphagram (stringValue c)))
      lexicon
| [] => lexicon
end.

Definition inLexicon (w : string) : bool := existsb (String.eqb w) lexicon.

(** The combinations of the four letters drawn from the standard bag, blanks
    left aside: 9 A, 2 C, 12 E, 6 R, 4 S. *)
Definition combinations (w : string) : N :=
if String.eqb (Auxil.getAlphagram w) "ACER" then 1296
else if String.eqb (Auxil.getAlphagram w) "AERS" then 2592
else 0.

Definition noSearchSet (s : string) : SearchSet := UnknownSearchSet.
Definition noStems : gmap Z (gset string) := ∅.

(** An optimizer that changes nothing, and one that writes down, once, the
    length that the first operand without [*] fixes, unless the
    specification has a [Length] condition already: it only adds, and
    applying it twice is applying it once. *)
Definition keep (spec : SearchSpec) : SearchSpec := spec.

Definition impliedLength (c : SearchCondition) : list SearchCondition :=
match type c with
| AnagramMatch | PatternMatch =>
    if Store.containsChar "*" (stringValue c) then []
    else [mkCondition Length EmptyString (QStr.len (stringValue c))
            (QStr.len (stringValue c)) false false false]
| _ => []
end.

Definition lengthOnce (spec : SearchSpec) : SearchSpec :=
if existsb (λ c, isLengthType (type c)) (conditions spec) then spec
else match flat_map impliedLength (conditions spec) with
     | c :: _ => mkSpec (c :: conditions spec) (conjunction spec)
     | [] => spec
     end.

Lemma impliedLength_type (cs : list SearchCondition) (c : SearchCondition) :
  In c (flat_map impliedLength cs) → type c = Length.
Proof.
intros (c0 & _ & Hc)%in_flat_map. unfold impliedLength in Hc.
destruct (type c0); try done;
  (destruct (Store.containsChar _ _); [done|]); by destruct Hc as [<-|[]].
Qed.

Lemma lengthOnce_idempotent (spec : SearchSpec) :
  lengthOnce (lengthOnce spec) = lengthOnce spec.
Proof.
unfold lengthOnce at 2 3.
destruct (existsb _ (conditions spec)) eqn:E; [unfold lengthOnce; by rewrite E|].
destruct (flat_map impliedLength (conditions spec)) as [|c rest] eqn:Ec;
  [unfold lengthOnce; by rewrite E, Ec|].
unfold lengthOnce. cbn [conditions existsb].
by rewrite (impliedLength_type (conditions spec) c) by (rewrite Ec; by left).
Qed.

Definition condition (t : SearchType) (s : string) (lo hi : Z) (lax : bool)
  : SearchCondition :=
mkCondition t s lo hi lax false false.

Definition fresh : State := mkState ∅ [].

(** *** Leaving the attribute store out *)

Definition anagramsOfCare : SearchSpec :=
mkSpec [condition AnagramMatch "CARE" 0 0 false] true.

Example lengthOnce_anagramsOfCare :
  map type (conditions (lengthOnce anagramsOfCare)) = [Length; AnagramMatch].
Proof. reflexivity. Qed.


(** The anagrams of CARE: the store is not asked for words, and is read
    once for the rows of the three words found. *)
Example anagramsOfCare_sent :
  (λ r, (fst r, sent (snd r)))
    <$> search (Some table) lengthOnce graphSearch inLexicon combinations noSearchSet
          noStems combinations anagramsOfCare false fresh
  = Some (["ACRE"; "CARE"; "RACE"],
          [SelectInfo (infoQuery ["ACRE"; "CARE"; "RACE"])]).
Proof. vm_compute. reflexivity. Qed.


(** *** The store not connected *)

Definition careTwoVowels : SearchSpec :=
mkSpec [condition AnagramMatch "CARE" 0 0 false;
        condition NumVowels "" 2 2 false] true.

Example careTwoVowels_connected :
  fst <$> search (Some table) keep graphSearch inLexicon combinations noSearchSet
            noStems combinations careTwoVowels false fresh
  = Some ["ACRE"; "CARE"; "RACE"].
Proof. vm_compute. reflexivity. Qed.

Lemma closed_store_is_empty_witness :
  ∃ st', search None keep graphSearch inLexicon combinations noSearchSet
           noStems combinations careTwoVowels false fresh = Some ([], st')
         ∧ wordCache st' = wordCache fresh.
Proof.
apply (search_closed_store_is_empty None keep graphSearch inLexicon combinations
         noSearchSet noStems combinations careTwoVowels false fresh).
- reflexivity.
- vm_compute. lia.
Defined.

Lemma closed_store_loses_graph_result :
  ¬ degradesToGraph None keep graphSearch inLexicon combinations noSearchSet
      noStems combinations careTwoVowels false fresh.
Proof.
intros H. unfold degradesToGraph in H.
assert (fst <$> search None keep graphSearch inLexicon combinations noSearchSet
                  noStems combinations careTwoVowels false fresh
        = fst <$> graphOnly None graphSearch inLexicon combinations noSearchSet
                    noStems combinations (keep careTwoVowels) false fresh) as E.
{ apply H; [vm_compute; lia|vm_compute; lia|reflexivity]. }
vm_compute in E. discriminate.
Qed.

(** *** The probability window *)

Definition limit (lo hi : Z) (lax : bool) : SearchSpec :=
mkSpec [condition LimitByProbabilityOrder EmptyString lo hi lax] true.

Definition fourWords : list string := ["CARE"; "EARS"; "RACE"; "SEAR"].

Lemma hasLimit_limit (lo hi : Z) (lax : bool) : hasLimit (limit lo hi lax).
Proof. eexists. split; [by left|reflexivity]. Qed.

Example lax_first_of_four :
  applyPostConditions inLexicon combinations noSearchSet noStems combinations
    (limit 1 1 true) fourWords
  = Some ["EARS"; "SEAR"].
Proof. vm_compute. reflexivity. Qed.

Example strict_first_of_four :
  applyPostConditions inLexicon combinations noSearchSet noStems combinations
    (limit 1 1 false) fourWords
  = Some ["EARS"].
Proof. vm_compute. reflexivity. Qed.

Lemma inRange_fourWords (w : string) : In w fourWords → inRange combinations w.
Proof.
intros [<-|[<-|[<-|[<-|[]]]]]; vm_compute; discriminate.
Qed.

Lemma distinct_fourWords (a b : string) :
  In a fourWords → In b fourWords → QStr.toUpper a = QStr.toUpper b → a = b.
Proof.
intros [<-|[<-|[<-|[<-|[]]]]] [<-|[<-|[<-|[<-|[]]]]] H;
  first [reflexivity | vm_compute in H; discriminate].
Qed.

Lemma lax_limit_keeps_ties_witness :
  (∀ w w', In w fourWords → In w' ["EARS"; "SEAR"] →
           countOf combinations w = countOf combinations w' →
           In w ["EARS"; "SEAR"])
  ∧ (probLimitRangeMinLax (limitsOf (conditions (limit 1 1 true))) = 1 →
     probLimitRangeMaxLax (limitsOf (conditions (limit 1 1 true))) = 1 →
     ∀ w, In w ["EARS"; "SEAR"]
          ↔ In w fourWords
            ∧ ∀ v, In v fourWords →
                   (countOf combinations v ≤ countOf combinations w)%N).
Proof.
apply (lax_limit_keeps_ties inLexicon combinations noSearchSet noStems combinations
         (limit 1 1 true) fourWords ["EARS"; "SEAR"]).
- apply hasLimit_limit.
- intros c [<-|[]] _. reflexivity.
- vm_compute. discriminate.
- exact inRange_fourWords.
- exact distinct_fourWords.
- vm_compute. reflexivity.
Defined.

(** A strict window cuts a tie: of the two words of the highest count only
    the first is returned. *)
Lemma strict_limit_cuts_tie :
  ¬ keepsTies inLexicon combinations noSearchSet noStems combinations
      (limit 1 1 false) fourWords.
Proof.
intros H.
specialize (H ["EARS"] (hasLimit_limit 1 1 false) eq_refl "SEAR" "EARS").
destruct H as [H|[]].
- vm_compute. auto.
- by left.
- reflexivity.
- discriminate.
Qed.

Lemma applyPostConditions_order_witness :
  StronglySorted (keyLt combinations false) ["EARS"; "SEAR"]
  ∧ ((∀ w, In w fourWords → inRange combinations w) →
     false = true
     ∨ (∀ a b, In a fourWords → In b fourWords → String.length a = String.length b) →
     StronglySorted (rankedBefore combinations false) ["EARS"; "SEAR"]).
Proof.
apply (applyPostConditions_order inLexicon combinations noSearchSet noStems combinations
         (limit 1 1 true) fourWords ["EARS"; "SEAR"]).
- apply hasLimit_limit.
- vm_compute. reflexivity.
Defined.

(** Two words no bag can supply, so that both counts are zero, of different
    lengths: the key of the longer one comes first, its alphagram second. *)
Definition none (w : string) : N := 0.

Example keys_of_unequal_lengths :
  map (radixOf none false) ["ZZZZA"; "AZZZZZ"]
  = ["999999999AZZZZZZZZA"; "999999999AZZZZZAZZZZZ"].
Proof. vm_compute. reflexivity. Qed.

Lemma unequal_lengths_not_ranked :
  ¬ isRanked inLexicon none noSearchSet noStems combinations
      (limit 1 2 true) ["ZZZZA"; "AZZZZZ"].
Proof.
intros H.
specialize (H ["AZZZZZ"; "ZZZZA"] (hasLimit_limit 1 2 true) eq_refl).
apply StronglySorted_inv in H as [_ H].
apply Forall_cons in H as [H _].
destruct H as [H|[_ [H|[H _]]]]; vm_compute in H; discriminate.
Qed.

(** C4. The list returned for a [LimitByProbabilityOrder] condition is meant
    to be in the order count descending, then alphagram ascending, then word
    ascending.  On ZZZZA and AZZZZZ, two words of one count, a lax limit
    [1, 2] that is not a legacy one returns AZZZZZ first, although the
    alphagram AZZZZ of ZZZZA comes before the alphagram AZZZZZ: the key is
    the count, the alphagram and the word written one after the other, so
    that the first letter of the word ZZZZA is compared with the last
    letter of the longer alphagram. *)
Lemma unequal_lengths_out_of_order :
  applyPostConditions inLexicon none noSearchSet noStems combinations
    (limit 1 2 true) ["ZZZZA"; "AZZZZZ"]
  = Some ["AZZZZZ"; "ZZZZA"]
  ∧ none (QStr.toUpper "AZZZZZ") = none (QStr.toUpper "ZZZZA")
  ∧ String.compare (Auxil.getAlphagram "ZZZZA") (Auxil.getAlphagram "AZZZZZ") = Lt
  ∧ legacyProbCondition (limitsOf (conditions (limit 1 2 true))) = false.
Proof. vm_compute. repeat split; reflexivity. Qed.

(** *** A lower bound above the number of words *)

Definition careFromFifth : SearchSpec :=
mkSpec [condition AnagramMatch "CARE" 0 0 false;
        condition LimitByProbabilityOrder EmptyString 5 9 false] true.

Lemma limit_beyond_survivors_witness :
  ∃ st', search (Some table) keep graphSearch inLexicon combinations noSearchSet
           noStems combinations careFromFifth true fresh = Some ([], st')
         ∧ wordCache st' = wordCache fresh.
Proof.
apply (search_limit_beyond_survivors (Some table) keep graphSearch inLexicon
         combinations noSearchSet noStems combinations careFromFifth true fresh
         (condition LimitByProbabilityOrder EmptyString 5 9 false)).
- right. left. reflexivity.
- reflexivity.
- vm_compute. reflexivity.
Defined.

(** *** The cache after an empty result *)

Definition cached : State :=
mkState {[ "CARE" := mkWordInfo "CARE" 5 4 6 2 4 3 6 "s" "dfrstx"
                       "to be concerned [v CARED]" ]} [].

Definition anagramsOfXyz : SearchSpec :=
mkSpec [condition AnagramMatch "XYZ" 0 0 false] true.

Lemma search_empty_keeps_cache_witness :
(([] : list string) = [] →
     wordCache cached = wordCache cached
     ∧ ∀ w info, QStr.isEmpty w = false → wordCache cached !! w = Some info →
         getWordInfo (Some table) w cached = (info, cached))
  ∧ (([] : list string) ≠ [] →
       wordCache cached
       = wordCache (addToCache (Some table) [] (clearCache cached))).
Proof.
apply (search_empty_keeps_cache (Some table) keep graphSearch inLexicon combinations
         noSearchSet noStems combinations anagramsOfXyz false cached [] cached).
reflexivity.
Defined.

(** *** The cache after a search that found words *)

(** The state after the anagrams of CARE with two vowels were looked for,
    starting from a cache that held CARE. *)
Definition afterCareTwoVowels : State :=
snd (default ([], cached)
       (search (Some table) keep graphSearch inLexicon combinations noSearchSet
          noStems combinations careTwoVowels false cached)).

Example afterCareTwoVowels_sent :
  sent afterCareTwoVowels
  = [SelectInfo [Test (InList false ["ACRE"; "CARE"; "RACE"])];
     SelectWords [Test (Compare num_vowels Equal 2); AND;
                  Test (InList false ["ACRE"; "CARE"; "RACE"])]].
Proof. vm_compute. reflexivity. Qed.

Lemma addToCache_serves_lookups_witness :
  (∀ w, In w ["CARE"; "XYZ"] → QStr.isEmpty w = false →
        (∃ r, In r (tableRows table) ∧ word r = w) →
        ∃ r, In r (tableRows table) ∧ word r = w
             ∧ getWordInfo (Some table) w (addToCache (Some table) ["CARE"; "XYZ"] fresh)
               = (infoOfRow r, addToCache (Some table) ["CARE"; "XYZ"] fresh))
  ∧ (∀ w, ¬ In w ["CARE"; "XYZ"] →
          wordCache (addToCache (Some table) ["CARE"; "XYZ"] fresh) !! w
          = wordCache fresh !! w).
Proof.
apply (addToCache_serves_lookups (Some table) table ["CARE"; "XYZ"] fresh);
  reflexivity.
Defined.

(** One listed word with an apostrophe, on a store that answers the broken
    statement with no row: nothing is cached, CARE no more than the rest. *)
Example apostrophe_breaks_addToCache :
  wordCache (addToCache (Some table) ["CARE"; "O'ER"] fresh) = ∅
  ∧ sent (addToCache (Some table) ["CARE"; "O'ER"] fresh)
    = [SelectInfo (infoQuery ["CARE"; "O'ER"])].
Proof. vm_compute. split; reflexivity. Qed.

Lemma search_caches_the_result_only_witness :
  (is_Some (wordCache afterCareTwoVowels !! "SEAR")
   ↔ In "SEAR" ["ACRE"; "CARE"; "RACE"]
     ∧ ∃ table0 r, Some table = Some table0 ∧ In r (tableRows table0)
                   ∧ word r = "SEAR")
  ∧ (∀ info, wordCache afterCareTwoVowels !! "SEAR" = Some info →
       ∃ table0 r, Some table = Some table0 ∧ In r (tableRows table0)
                   ∧ word r = "SEAR" ∧ info = infoOfRow r).
Proof.
apply (search_caches_the_result_only (Some table) keep graphSearch inLexicon
         combinations noSearchSet noStems combinations careTwoVowels false cached
         ["ACRE"; "CARE"; "RACE"] afterCareTwoVowels).
- vm_compute. reflexivity.
- discriminate.
- reflexivity.
Defined.

Lemma search_returns_words_of_its_sources_witness :
  (true = true → ∀ w, In w ["ACRE"; "CARE"; "RACE"] → QStr.toUpper w = w)
  ∧ ((1 ≤ countType isWordGraphType (conditions (keep careTwoVowels)))%nat
     ∨ databaseStage (conditions (keep careTwoVowels)) = O →
     (databaseStage (conditions (keep careTwoVowels)) ≠ O →
      wellQuoted
        (databaseQuery (keep careTwoVowels) (Some (graphSearch (keep careTwoVowels))))
      = true) →
     ∀ w, In w ["ACRE"; "CARE"; "RACE"] →
          ∃ g, In g (graphSearch (keep careTwoVowels)) ∧ w = QStr.toUpper g)
  ∧ (countType isWordGraphType (conditions (keep careTwoVowels)) = O →
     databaseStage (conditions (keep careTwoVowels)) ≠ O →
     ∀ w, In w ["ACRE"; "CARE"; "RACE"] →
          ∃ r, In r (select (Some table) (databaseQuery (keep careTwoVowels) None))
               ∧ w = QStr.toUpper (word r)).
Proof.
apply (search_returns_words_of_its_sources (Some table) keep graphSearch inLexicon
         combinations noSearchSet noStems combinations careTwoVowels true fresh
         ["ACRE"; "CARE"; "RACE"]
         (snd (default ([], fresh)
                 (search (Some table) keep graphSearch inLexicon combinations
                    noSearchSet noStems combinations careTwoVowels true fresh)))).
vm_compute. reflexivity.
Defined.

Lemma search_sends_two_statements_at_most_witness :
  ∃ info words,
    sent afterCareTwoVowels = (info ++ words ++ sent cached)%list
    ∧ (words = []
       ∨ ∃ wordList, words = [SelectWords (databaseQuery (keep careTwoVowels) wordList)])
    ∧ (info = []
       ∨ (["ACRE"; "CARE"; "RACE"] ≠ [] ∧ dbIsOpen (Some table) = true
          ∧ info = [SelectInfo (infoQuery ["ACRE"; "CARE"; "RACE"])])).
Proof.
apply (search_sends_two_statements_at_most (Some table) keep graphSearch inLexicon
         combinations noSearchSet noStems combinations careTwoVowels false cached
         ["ACRE"; "CARE"; "RACE"] afterCareTwoVowels).
vm_compute. reflexivity.
Defined.

(** *** The statement and the spelling *)

Lemma databaseSearch_statement_is_well_formed_witness :
  parse (databaseQuery careTwoVowels (Some ["ACRE"; "CARE"; "RACE"]))
  = Some (testsOf (databaseQuery careTwoVowels (Some ["ACRE"; "CARE"; "RACE"])))
  ∧ ∀ table0, Some table = Some table0 →
      ∀ w, In w (fst (databaseSearch (Some table) careTwoVowels
                        (Some ["ACRE"; "CARE"; "RACE"]) fresh))
           ↔ ∃ r, In r (tableRows table0)
                  ∧ forallb (λ a, holds a r)
                      (testsOf (databaseQuery careTwoVowels
                                  (Some ["ACRE"; "CARE"; "RACE"]))) = true
                  ∧ w = restoreCase (Some ["ACRE"; "CARE"; "RACE"]) (word r).
Proof.
apply (databaseSearch_statement_is_well_formed (Some table) careTwoVowels
         (Some ["ACRE"; "CARE"; "RACE"]) fresh).
- eexists. split; [right; left; reflexivity|reflexivity].
- intros c [<-|[<-|[]]]; discriminate.
- reflexivity.
Defined.

Lemma databaseSearch_restores_the_listed_spelling_witness :
  (∀ w, In w (fst (databaseSearch (Some table) careTwoVowels (Some ["ACRe"; "CaRE"])
                     fresh)) →
        In w ["ACRe"; "CaRE"]
        ∧ ∃ table0 r, Some table = Some table0 ∧ In r (tableRows table0)
                      ∧ satisfies (databaseQuery careTwoVowels (Some ["ACRe"; "CaRE"])) r
                        = true
                      ∧ word r = QStr.toUpper w)
  ∧ (∀ table0, Some table = Some table0 →
       List.length (fst (databaseSearch (Some table) careTwoVowels
                           (Some ["ACRe"; "CaRE"]) fresh))
       = List.length
           (List.filter (satisfies (databaseQuery careTwoVowels (Some ["ACRe"; "CaRE"])))
              (tableRows table0))).
Proof.
apply (databaseSearch_restores_the_listed_spelling (Some table) careTwoVowels
         ["ACRe"; "CaRE"] fresh).
reflexivity.
Defined.

(** A list word that ends its own quotes, on a store that reads the text as
    it then stands and answers with every row: the words that come back are
    not words of the list. *)
Definition everyRow : Table := mkTable rows (λ _, rows).

Example apostrophe_breaks_databaseSearch :
  fst (databaseSearch (Some everyRow) careTwoVowels (Some ["X') OR ('A'='A"]) fresh)
  = lexicon.
Proof. vm_compute. reflexivity. Qed.

(** The word graph gave a word with a blank shown in lower case: the store
    knows the word in upper case, and the spelling of the list comes back. *)
Example databaseSearch_lower_case :
  fst (databaseSearch (Some table) careTwoVowels (Some ["ACRe"; "CaRE"]) fresh)
  = ["ACRe"; "CaRE"].
Proof. vm_compute. reflexivity. Qed.

(** *** More on the probability window *)

Lemma applyPostConditions_only_narrows_witness :
  (∀ w, In w ["EARS"; "SEAR"] →
        In w fourWords
        ∧ matchesConditions inLexicon noSearchSet noStems combinations w
            (conditions (limit 1 1 true)) = true)
  ∧ (List.length ["EARS"; "SEAR"] ≤ List.length fourWords)%nat.
Proof.
apply (applyPostConditions_only_narrows inLexicon combinations noSearchSet noStems
         combinations (limit 1 1 true) fourWords ["EARS"; "SEAR"]).
vm_compute. reflexivity.
Defined.

(** Of the two spellings of EARS the later one stays. *)
Lemma limit_returns_one_spelling_witness :
  List.NoDup (map QStr.toUpper ["EARS"; "SEAR"]).
Proof.
apply (limit_returns_one_spelling inLexicon combinations noSearchSet noStems
         combinations (limit 1 1 true) ["EARs"; "EARS"; "SEAR"] ["EARS"; "SEAR"]).
- apply hasLimit_limit.
- vm_compute. reflexivity.
Defined.

Lemma NoDup_fourWords : List.NoDup fourWords.
Proof.
repeat constructor; simpl; intros H;
  repeat (destruct H as [H|H]; [discriminate|]); done.
Qed.


(** No word of the list has a front hook X, and the limit starts at 0: the
    first key of an empty list is read. *)
Definition hookedByX : SearchSpec :=
mkSpec [condition Prefix "X" 0 0 false;
        condition LimitByProbabilityOrder EmptyString 0 5 false] true.

Lemma limit_reads_outside_only_on_nothing_witness :
  applyPostConditions inLexicon combinations noSearchSet noStems combinations
    hookedByX fourWords = None
  ↔ List.filter
      (λ w, matchesConditions inLexicon noSearchSet noStems combinations w
              (conditions hookedByX)) fourWords = []
    ∧ probLimitRangeMin (limitsOf (conditions hookedByX)) ≤ 0
    ∧ probLimitRangeMinLax (limitsOf (conditions hookedByX)) ≤ 0.
Proof.
apply (limit_reads_outside_only_on_nothing inLexicon combinations noSearchSet noStems
         combinations hookedByX fourWords).
- eexists. split; [right; left; reflexivity|reflexivity].
- exact NoDup_fourWords.
- intros w [Hw _]%filter_In. by apply inRange_fourWords.
- intros a b [Ha _]%filter_In [Hb _]%filter_In. by apply distinct_fourWords.
- vm_compute. discriminate.
- vm_compute. discriminate.
Defined.

Example hookedByX_undefined :
  applyPostConditions inLexicon combinations noSearchSet noStems combinations
    hookedByX fourWords = None.
Proof. vm_compute. reflexivity. Qed.

(** *** Stems *)

(** One six-letter stem, RETINA. *)
Definition retina : gmap Z (gset string) := {[ 6 := {[ "AEINRT" ]} ]}.

Lemma type_one_eights_hold_a_stem_witness :
  isSetMember inLexicon retina combinations "RETAINED" SetTypeOneEights = true
  ↔ QStr.len "RETAINED" = 8
    ∧ ∃ alphaset a,
        retina !! 6 = Some alphaset ∧ a ∈ alphaset
        ∧ sublist (list_ascii_of_string a)
                  (list_ascii_of_string (Auxil.getAlphagram "RETAINED")).
Proof.
apply (type_one_eights_hold_a_stem inLexicon retina combinations "RETAINED").
intros alphaset a Hset Ha. unfold retina in Hset.
rewrite lookup_singleton_eq in Hset. injection Hset as <-.
apply elem_of_singleton in Ha as ->. reflexivity.
Defined.

Example retained_is_type_one :
  isSetMember inLexicon retina combinations "RETAINED" SetTypeOneEights = true
  ∧ isSetMember inLexicon retina combinations "RETAINS" SetTypeOneSevens = true
  ∧ isSetMember inLexicon retina combinations "RETAINS" SetTypeTwoSevens = false.
Proof. vm_compute. auto. Qed.

End Demo.

End WordEngine.

(** ** Ordered containers: [std::set] and [std::multimap]

    The engine keeps stems, letters and definitions in the ordered
    containers of the standard library and reads them back in key order.
    They are kept here as lists in ascending order. *)

Module Ordered.

Section Order.

Context {A : Type} (compare : A → A → comparison).
Hypothesis compare_eq : ∀ a b, compare a b = Eq → a = b.
Hypothesis compare_refl : ∀ a, compare a a = Eq.
Hypothesis compare_antisym : ∀ a b, compare b a = CompOpp (compare a b).
Hypothesis compare_trans :
  ∀ a b c, compare a b = Lt → compare b c = Lt → compare a c = Lt.

Definition lt (a b : A) : Prop := compare a b = Lt.

(** [std::set::insert]: an element already there is not added again. *)
Fixpoint setInsert (x : A) (s : list A) : list A :=
match s with
| [] => [x]
| y :: rest =>
    match compare x y with
    | Lt => x :: s
    | Eq => s
    | Gt => y :: setInsert x rest
    end
end.

(** The set a loop of [insert] builds, read from [begin()] to [end()]. *)
Definition setOf (l : list A) : list A := fold_left (λ s x, setInsert x s) l [].

(** [std::multimap::insert]: after the entries of an equal key. *)
Fixpoint multimapInsert {B : Type} (k : A) (v : B) (m : list (A * B)) : list (A * B) :=
match m with
| [] => [(k, v)]
| (k', v') :: rest =>
    match compare k k' with
    | Lt => (k, v) :: m
    | _ => (k', v') :: multimapInsert k v rest
    end
end.

(** [std::multimap::find]: the first entry of the key. *)
Definition multimapFind {B : Type} (k : A) (m : list (A * B)) : option (A * B) :=
List.find (λ e, match compare (fst e) k with Eq => true | _ => false end) m.

Lemma setInsert_In (x : A) (s : list A) (a : A) :
  In a (setInsert x s) ↔ a = x ∨ In a s.
Proof.
induction s as [|y s IH]; simpl; [intuition|].
destruct (compare x y) eqn:E; simpl.
- apply compare_eq in E as ->. intuition.
- intuition.
- rewrite IH. intuition.
Qed.

Lemma setInsert_sorted (x : A) (s : list A) :
  StronglySorted lt s → StronglySorted lt (setInsert x s).
Proof.
induction s as [|y s IH]; simpl; intros Hs.
- repeat constructor.
- pose proof Hs as Hs'. apply StronglySorted_inv in Hs' as [Hrest Hall].
  destruct (compare x y) eqn:E; [done| |].
  + constructor; [done|]. constructor; [done|].
    eapply List.Forall_impl; [|exact Hall]. intros a Ha. by eapply compare_trans.
  + constructor; [by apply IH|].
    apply List.Forall_forall. intros a [->|Ha]%setInsert_In.
    * unfold lt. by rewrite compare_antisym, E.
    * by eapply List.Forall_forall in Hall.
Qed.

Lemma setInsert_length (x : A) (s : list A) :
  (List.length (setInsert x s) ≤ S (List.length s))%nat.
Proof.
induction s as [|y s IH]; simpl; [lia|].
destruct (compare x y); simpl; lia.
Qed.

Lemma setOf_fold (l : list A) : ∀ s,
  StronglySorted lt s →
  StronglySorted lt (fold_left (λ s x, setInsert x s) l s)
  ∧ (∀ a, In a (fold_left (λ s x, setInsert x s) l s) ↔ In a s ∨ In a l)
  ∧ (List.length (fold_left (λ s x, setInsert x s) l s)
     ≤ List.length s + List.length l)%nat.
Proof.
induction l as [|x l IH]; intros s Hs; simpl.
- split; [done|]. split; [intuition|lia].
- destruct (IH (setInsert x s) (setInsert_sorted x s Hs)) as (H1 & H2 & H3).
  split; [done|]. split.
  + intros a. rewrite H2, setInsert_In. intuition.
  + pose proof (setInsert_length x s). lia.
Qed.

(** A set built from a list holds the elements of the list, each once, in
    ascending order. *)
Lemma setOf_spec (l : list A) :
  StronglySorted lt (setOf l)
  ∧ (∀ a, In a (setOf l) ↔ In a l)
  ∧ (List.length (setOf l) ≤ List.length l)%nat.
Proof.
destruct (setOf_fold l [] (SSorted_nil _)) as (H1 & H2 & H3).
split; [done|]. split; [|done]. intros a. rewrite H2. simpl. intuition.
Qed.

(** The entries of a multimap, in the order of their keys. *)
Definition keySorted {B : Type} (m : list (A * B)) : Prop :=
StronglySorted (λ e1 e2, compare (fst e2) (fst e1) ≠ Lt) m.

Lemma multimapInsert_In {B : Type} (k : A) (v : B) (m : list (A * B)) (e : A * B) :
  In e (multimapInsert k v m) ↔ e = (k, v) ∨ In e m.
Proof.
induction m as [|[k' v'] m IH]; simpl; [intuition|].
destruct (compare k k'); simpl; rewrite ?IH; intuition.
Qed.

Lemma multimapInsert_sorted {B : Type} (k : A) (v : B) (m : list (A * B)) :
  keySorted m → keySorted (multimapInsert k v m).
Proof.
unfold keySorted. induction m as [|[k' v'] m IH]; simpl; intros Hs.
- repeat constructor.
- pose proof Hs as Hs'. apply StronglySorted_inv in Hs' as [Hrest Hall].
  assert (∀ c, c ≠ Lt → compare k k' = c →
               StronglySorted (λ e1 e2, compare (fst e2) (fst e1) ≠ Lt)
                 ((k', v') :: multimapInsert k v m)) as Hafter.
  { intros c Hc E. constructor; [by apply IH|].
    apply List.Forall_forall. intros e [->|He]%multimapInsert_In.
    - simpl. congruence.
    - by eapply List.Forall_forall in Hall. }
  destruct (compare k k') eqn:E; [by apply (Hafter Eq)| |by apply (Hafter Gt)].
  constructor; [done|]. constructor.
  + simpl. rewrite compare_antisym, E. done.
  + eapply List.Forall_impl; [|exact Hall]. simpl. intros e He Hlt. apply He.
    exact (compare_trans _ _ _ Hlt E).
Qed.

Lemma find_absent {B : Type} (f : B → bool) (l : list B) :
  (∀ x, In x l → f x = false) → List.find f l = None.
Proof.
induction l as [|x l IH]; intros H; simpl; [done|].
rewrite (H x (or_introl eq_refl)). apply IH. intros y Hy. apply H. by right.
Qed.

(** After an insertion [find] meets the entry it met before, and the new
    entry when the key was not there. *)
Lemma multimapFind_insert {B : Type} (k : A) (v : B) (m : list (A * B)) (key : A) :
  keySorted m →
  multimapFind key (multimapInsert k v m)
  = match multimapFind key m with
    | Some e => Some e
    | None => match compare k key with Eq => Some (k, v) | _ => None end
    end.
Proof.
unfold keySorted, multimapFind. induction m as [|[k' v'] m IH]; intros Hs.
{ simpl. by destruct (compare k key). }
apply StronglySorted_inv in Hs as [Hrest Hall].
cbn [multimapInsert]. destruct (compare k k') eqn:E.
- cbn [List.find fst]. destruct (compare k' key); [done|by apply IH..].
- cbn [List.find fst].
  destruct (compare k key) eqn:Ek.
  + apply compare_eq in Ek as <-.
    assert (compare k' k = Gt) as -> by (by rewrite compare_antisym, E).
    assert (List.find (λ e, match compare (fst e) k with Eq => true | _ => false end) m
            = None) as ->; [|done].
    apply find_absent. intros e He.
    eapply List.Forall_forall in Hall; [|exact He]. simpl in Hall.
    destruct (compare (fst e) k) eqn:E'; [|done..].
    apply compare_eq in E'. rewrite E' in Hall. congruence.
  + by destruct (if match compare k' key with Eq => true | _ => false end
                 then Some (k', v') else List.find _ m).
  + by destruct (if match compare k' key with Eq => true | _ => false end
                 then Some (k', v') else List.find _ m).
- cbn [List.find fst]. destruct (compare k' key); [done|by apply IH..].
Qed.

End Order.

End Ordered.

(** ** The lexicon in memory: alphagrams, definitions, imports *)

Module Lexicon.

Import Store.
Import WordEngine.

(** *** The two orders: [QString] and [QChar] *)

Lemma string_compare_eq (a b : string) : String.compare a b = Eq → a = b.
Proof. apply String.compare_eq_iff. Qed.

Lemma string_compare_antisym (a b : string) :
  String.compare b a = CompOpp (String.compare a b).
Proof. apply String.compare_antisym. Qed.

Lemma string_compare_trans (a b c : string) :
  String.compare a b = Lt → String.compare b c = Lt → String.compare a c = Lt.
Proof. apply lt_trans. Qed.

Lemma string_eqb_compare (a b : string) :
  String.eqb a b = match String.compare a b with Eq => true | _ => false end.
Proof.
destruct (String.eqb_spec a b) as [->|Hne]; [by rewrite compare_refl|].
destruct (String.compare a b) eqn:E; [|done..].
by apply String.compare_eq_iff in E.
Qed.

(** *** [WordEngine::alphagrams] *)

(** The loop that fills [seen], then the loop that reads it. *)
Definition alphagrams (words : list string) : list string :=
fold_left (λ seen w, Ordered.setInsert String.compare (Auxil.getAlphagram w) seen)
  words [].

Lemma alphagrams_setOf (words : list string) :
  alphagrams words = Ordered.setOf String.compare (map Auxil.getAlphagram words).
Proof.
unfold alphagrams, Ordered.setOf. generalize ([] : list string).
induction words as [|w words IH]; intros seen; simpl; [done|]. apply IH.
Qed.

(** [alphagrams] returns the alphagrams of the strings of the list, each
    once and in ascending order; the list returned is no longer than the
    list given. *)
Theorem alphagrams_are_sorted_and_distinct (words : list string) :
  StronglySorted QStr.lt (alphagrams words)
  ∧ (∀ a, In a (alphagrams words) ↔ ∃ w, In w words ∧ a = Auxil.getAlphagram w)
  ∧ (List.length (alphagrams words) ≤ List.length words)%nat.
Proof.
rewrite alphagrams_setOf.
destruct (Ordered.setOf_spec String.compare string_compare_eq string_compare_antisym
            string_compare_trans (map Auxil.getAlphagram words)) as (H1 & H2 & H3).
split; [exact H1|]. split.
- intros a. rewrite H2, in_map_iff. naive_solver.
- by rewrite length_map in H3.
Qed.

(** *** [WordEngine::addDefinition] *)

(** The part of speech under which a definition is kept: the capture of
    [posRegex], empty when the expression does not match. *)
Definition posOf (def : string) : string :=
match Links.posRegex 0 def with
| Some (_, pos) => pos
| None => EmptyString
end.

Definition definitionMap (definition : string) : list (string * string) :=
fold_left (λ defMap def, Ordered.multimapInsert String.compare (posOf def) def defMap)
  (Links.split " / " definition) [].

(** [definitions.insert] leaves the entry of a word that has one. *)
Definition addDefinition (word definition : string)
    (definitions : gmap string (list (string * string)))
  : gmap string (list (string * string)) :=
if QStr.isEmpty word || QStr.isEmpty definition then definitions
else match definitions !! word with
     | Some _ => definitions
     | None => <[word := definitionMap definition]> definitions
     end.

Lemma find_ext {B : Type} (f g : B → bool) (l : list B) :
  (∀ x, f x = g x) → List.find f l = List.find g l.
Proof.
intros H. induction l as [|x l IH]; simpl; [done|]. by rewrite H, IH.
Qed.

Lemma definitionMap_fold (pos : string) (parts : list string) :
  ∀ defMap,
    Ordered.keySorted String.compare defMap →
    Ordered.multimapFind String.compare pos
      (fold_left (λ defMap def,
                    Ordered.multimapInsert String.compare (posOf def) def defMap)
         parts defMap)
    = match Ordered.multimapFind String.compare pos defMap with
      | Some e => Some e
      | None =>
          (λ def, (posOf def, def))
            <$> List.find (λ def, String.eqb (posOf def) pos) parts
      end.
Proof.
induction parts as [|def parts IH]; intros defMap Hs; simpl.
- by destruct (Ordered.multimapFind _ _ _).
- rewrite IH
    by (by apply Ordered.multimapInsert_sorted;
          [apply string_compare_antisym|apply string_compare_trans|]).
  rewrite (Ordered.multimapFind_insert String.compare string_compare_eq
             string_compare_antisym) by done.
  destruct (Ordered.multimapFind String.compare pos defMap); [done|].
  rewrite string_eqb_compare. by destruct (String.compare (posOf def) pos).
Qed.

(** A definition added for a word that had none is found again, while the
    store is closed, part by part: [getSubDefinition] returns, for a part of
    speech, the first part of the definition carrying it, up to its tag, and
    nothing for a part of speech the definition does not carry.  Adding a
    definition for the same word once more changes nothing: the first
    definition of a word stays. *)
Theorem addDefinition_is_read_back
    (word definition : string) (definitions : gmap string (list (string * string))) :
  QStr.isEmpty word = false →
  QStr.isEmpty definition = false →
  definitions !! word = None →
  (∀ getDefinition pos,
     Links.getSubDefinition false getDefinition
       (addDefinition word definition definitions) word pos
     = match List.find (λ def, String.eqb (posOf def) pos)
               (Links.split " / " definition) with
       | Some def => Links.leftOf " [" def
       | None => EmptyString
       end)
  ∧ (∀ other,
       addDefinition word other (addDefinition word definition definitions)
       = addDefinition word definition definitions).
Proof.
intros Hword Hdef Hnone. unfold addDefinition at 1 3 4.
rewrite Hword, Hdef, Hnone. cbn [orb]. split.
- intros getDefinition pos. unfold Links.getSubDefinition, Links.Definitions.
  rewrite lookup_insert_eq.
  pose proof (definitionMap_fold pos (Links.split " / " definition) []
                (SSorted_nil _)) as H.
  unfold Ordered.multimapFind in H. fold (definitionMap definition) in H.
  rewrite (find_ext (λ e : string * string, String.eqb (fst e) pos)
             (λ e, match String.compare (fst e) pos with Eq => true | _ => false end))
    by (intros; apply string_eqb_compare).
  rewrite H. simpl.
  by destruct (List.find _ (Links.split " / " definition)).
- intros other. unfold addDefinition. rewrite Hword, lookup_insert_eq.
  cbn [orb]. by destruct (QStr.isEmpty other).
Qed.

(** *** [WordEngine::importTextFile] *)

(** [line.section (' ', 1)]: the text after the first space. *)
Fixpoint afterSpace (s : string) : string :=
match s with
| EmptyString => EmptyString
| String c r => if (QStr.code c =? 32)%N then r else afterSpace r
end.

Section TextFile.

(** The word graph is kept by [WordGraph], which is not among the sources:
    [containsWord] and [addWord] are taken with the one property the import
    relies on, that a graph holds the words added to it and no other. *)
Context {Graph : Type}.
Variable containsWord : Graph → string → bool.
Variable addWord : string → Graph → Graph.
Hypothesis containsWord_addWord :
  ∀ g w w', containsWord (addWord w g) w' = String.eqb w w' || containsWord g w'.

(** The members the import changes. *)
Record Words := mkWords {
  graph : Graph;
  numAnagramsMap : gmap string Z;
  definitions : gmap string (list (string * string));
  lexiconName : string
}.

(** One line that is neither empty nor a comment. *)
Definition importLine (loadDefinitions : bool) (lex : Words) (line : string) : Words :=
let word := QStr.toUpper (QStr.section0 line) in
let counts :=
  if negb (containsWord (graph lex) word)
  then let alpha := Auxil.getAlphagram word in
       <[alpha := default 0 (numAnagramsMap lex !! alpha) + 1]> (numAnagramsMap lex)
  else numAnagramsMap lex in
mkWords (addWord word (graph lex)) counts
  (if loadDefinitions
   then addDefinition word (afterSpace line) (definitions lex)
   else definitions lex)
  (lexiconName lex).

(** The reading loop; it ends at the first empty buffer. *)
Fixpoint readWords (loadDefinitions : bool) (a : Z * Words) (file : list string)
  : Z * Words :=
match file with
| [] => a
| buffer :: rest =>
    if QStr.isEmpty buffer then a
    else
      let line := QStr.simplified buffer in
      readWords loadDefinitions
        (if Stems.skipped line then a
         else (fst a + 1, importLine loadDefinitions (snd a) line))
        rest
end.

(** [importTextFile]: [file] is [None] when the file cannot be opened. *)
Definition importTextFile (file : option (list string)) (lexName : string)
    (loadDefinitions : bool) (lex : Words) : Z * Words :=
match file with
| None => (0, lex)
| Some buffers =>
    let a := readWords loadDefinitions (0, lex) buffers in
    (fst a, mkWords (graph (snd a)) (numAnagramsMap (snd a)) (definitions (snd a))
              lexName)
end.

(** The words of a file: the first token of every line read, in upper
    case. *)
Definition wordsOf (buffers : list string) : list string :=
map QStr.toUpper (Stems.entries buffers).

(** What the loop does to the count, the graph and the anagram counts. *)
Definition countWord (a : Z * Graph * gmap string Z) (word : string)
  : Z * Graph * gmap string Z :=
let '(imported, g, counts) := a in
(imported + 1, addWord word g,
 if negb (containsWord g word)
 then <[Auxil.getAlphagram word :=
          default 0 (counts !! Auxil.getAlphagram word) + 1]> counts
 else counts).

Lemma readWords_fold (loadDefinitions : bool) (buffers : list string) : ∀ a,
  (fst (readWords loadDefinitions a buffers),
   graph (snd (readWords loadDefinitions a buffers)),
   numAnagramsMap (snd (readWords loadDefinitions a buffers)))
  = fold_left countWord (wordsOf buffers)
      (fst a, graph (snd a), numAnagramsMap (snd a)).
Proof.
unfold wordsOf. induction buffers as [|buffer rest IH]; intros a; simpl; [done|].
destruct (QStr.isEmpty buffer); [done|].
rewrite IH. by destruct (Stems.skipped (QStr.simplified buffer)).
Qed.

(** The words of a list that have a given alphagram and are new to a
    graph. *)
Definition newWords (g : Graph) (alpha : string) (words : list string) : gset string :=
list_to_set
  (List.filter
     (λ w, String.eqb (Auxil.getAlphagram w) alpha && negb (containsWord g w)) words).

Lemma elem_of_newWords (g : Graph) (alpha : string) (words : list string) (w : string) :
  w ∈ newWords g alpha words
  ↔ In w words ∧ Auxil.getAlphagram w = alpha ∧ containsWord g w = false.
Proof.
unfold newWords. rewrite elem_of_list_to_set, list_elem_of_In, filter_In.
rewrite andb_true_iff, String.eqb_eq, negb_true_iff. done.
Qed.

Lemma countWord_fold (alpha : string) (words : list string) : ∀ imported g counts,
  let '(imported', g', counts') := fold_left countWord words (imported, g, counts) in
  imported' = imported + Z.of_nat (List.length words)
  ∧ (∀ w, containsWord g' w = existsb (λ w', String.eqb w' w) words || containsWord g w)
  ∧ default 0 (counts' !! alpha)
    = default 0 (counts !! alpha) + Z.of_nat (size (newWords g alpha words)).
Proof.
induction words as [|word rest IH]; intros imported g counts.
- cbn [fold_left List.length existsb orb]. split; [lia|]. split; [done|].
  assert (newWords g alpha [] = ∅) as -> by done. rewrite size_empty. lia.
- cbn [fold_left countWord].
  specialize (IH (imported + 1) (addWord word g)
                (if negb (containsWord g word)
                 then <[Auxil.getAlphagram word :=
                          default 0 (counts !! Auxil.getAlphagram word) + 1]> counts
                 else counts)).
  destruct (fold_left countWord rest _) as [[imported' g'] counts'].
  destruct IH as (H1 & H2 & H3). split; [|split].
  + rewrite H1. cbn [List.length]. lia.
  + intros w. rewrite H2, containsWord_addWord. cbn [existsb].
    by rewrite orb_assoc, (orb_comm (existsb _ rest)).
  + rewrite H3. clear H1 H2 H3.
    assert (newWords (addWord word g) alpha rest = newWords g alpha rest ∖ {[word]})
      as ->.
    { apply set_eq. intros w. rewrite elem_of_difference, !elem_of_newWords.
      rewrite containsWord_addWord, orb_false_iff, String.eqb_neq.
      rewrite elem_of_singleton. naive_solver. }
    destruct (String.eqb (Auxil.getAlphagram word) alpha && negb (containsWord g word))
      eqn:E.
    * apply andb_true_iff in E as [Ealpha%String.eqb_eq Enew]. rewrite Enew, Ealpha.
      rewrite lookup_insert_eq. cbn [default].
      assert (newWords g alpha (word :: rest)
              = {[word]} ∪ (newWords g alpha rest ∖ {[word]})) as ->.
      { apply set_eq. intros w.
        rewrite elem_of_union, elem_of_difference, elem_of_singleton, !elem_of_newWords.
        apply negb_true_iff in Enew. cbn [In].
        destruct (decide (w = word)) as [->|Hne]; naive_solver. }
      rewrite (size_union (C:=gset string) {[word]} (newWords g alpha rest ∖ {[word]}))
        by set_solver.
      rewrite size_singleton. unfold id. lia.
    * assert (word ∉ newWords g alpha rest) as Hout.
      { rewrite elem_of_newWords. intros (_ & Ha & Hg).
        by rewrite Ha, Hg, String.eqb_refl in E. }
      assert (newWords g alpha (word :: rest) = newWords g alpha rest ∖ {[word]}) as ->.
      { rewrite elem_of_newWords in Hout. apply set_eq. intros w.
        rewrite elem_of_difference, elem_of_singleton, !elem_of_newWords. cbn [In].
        split; [|naive_solver].
        intros (Hw & Ha & Hg). destruct Hw as [<-|Hin].
        - by rewrite Ha, Hg, String.eqb_refl in E.
        - split; [done|]. intros ->. by apply Hout. }
      f_equal. destruct (negb (containsWord g word)) eqn:Enew; [|done].
      rewrite andb_true_r in E. apply String.eqb_neq in E.
      by rewrite lookup_insert_ne.
Qed.

Lemma readWords_counts (buffers : list string) (loadDefinitions : bool) (lex : Words)
    (alpha : string) :
  fst (readWords loadDefinitions (0, lex) buffers)
  = Z.of_nat (List.length (wordsOf buffers))
  ∧ (∀ w, containsWord (graph (snd (readWords loadDefinitions (0, lex) buffers))) w
          = existsb (λ w', String.eqb w' w) (wordsOf buffers)
            || containsWord (graph lex) w)
  ∧ default 0 (numAnagramsMap (snd (readWords loadDefinitions (0, lex) buffers))
               !! alpha)
    = default 0 (numAnagramsMap lex !! alpha)
      + Z.of_nat (size (newWords (graph lex) alpha (wordsOf buffers))).
Proof.
pose proof (readWords_fold loadDefinitions buffers (0, lex)) as Hfold.
cbn [fst snd] in Hfold.
pose proof (countWord_fold alpha (wordsOf buffers) 0 (graph lex) (numAnagramsMap lex))
  as Hcount.
rewrite <- Hfold in Hcount. destruct Hcount as (H1 & H2 & H3).
split; [lia|]. split; [exact H2|exact H3].
Qed.

(** [importTextFile] returns the number of lines read that are neither empty
    nor comments, repetitions counted; afterwards the graph holds the words
    it held and the words of the file, and the count kept for an alphagram
    has grown by the number of different words of the file that have this
    alphagram and were not in the graph: a word repeated in the file, or
    imported once more, is counted as an anagram once.  A file that cannot
    be opened gives 0 and changes nothing. *)
Theorem importTextFile_counts_each_new_word_once
    (buffers : list string) (lexName : string) (loadDefinitions : bool) (lex : Words) :
  let after := importTextFile (Some buffers) lexName loadDefinitions lex in
  fst after = Z.of_nat (List.length (wordsOf buffers))
  ∧ (∀ w, containsWord (graph (snd after)) w
          = existsb (λ w', String.eqb w' w) (wordsOf buffers)
            || containsWord (graph lex) w)
  ∧ (∀ alpha,
       default 0 (numAnagramsMap (snd after) !! alpha)
       = default 0 (numAnagramsMap lex !! alpha)
         + Z.of_nat (size (newWords (graph lex) alpha (wordsOf buffers))))
  ∧ lexiconName (snd after) = lexName
  ∧ importTextFile None lexName loadDefinitions lex = (0, lex).
Proof.
cbv zeta. unfold importTextFile. cbn [fst snd graph numAnagramsMap lexiconName].
pose proof (readWords_counts buffers loadDefinitions lex) as H.
split; [apply (H EmptyString)|]. split; [apply (H EmptyString)|].
split; [intros alpha; apply H|]. done.
Qed.

End TextFile.

(** *** [WordEngine::getNumAnagrams] *)

Section Lookups.

(** The connection, and [WordInfo::isValid], which is declared with the
    class in a header that is not among the sources. *)
Variable db : option Table.
Variable isValid : WordInfo → bool.

Definition getNumAnagrams (numAnagramsMap : gmap string Z) (word : string) (st : State)
  : Z * State :=
let (info, st') := getWordInfo db word st in
if isValid info then (numAnagrams info, st')
else (default 0 (numAnagramsMap !! Auxil.getAlphagram word), st').

(** With the store closed and nothing cached for the word, the number of
    anagrams [getNumAnagrams] gives after a text file was imported into an
    empty lexicon is the number of different words of the file that have the
    alphagram of the word; no statement is sent. *)
Theorem getNumAnagrams_counts_the_imported_words
    {Graph : Type} (containsWord : Graph → string → bool)
    (addWord : string → Graph → Graph)
    (buffers : list string) (lexName : string) (loadDefinitions : bool)
    (lex : Words) (word : string) (st : State) :
  (∀ g w w', containsWord (addWord w g) w' = String.eqb w w' || containsWord g w') →
  (∀ w, containsWord (graph lex) w = false) →
  numAnagramsMap lex = ∅ →
  db = None →
  wordCache st !! word = None →
  isValid noInfo = false →
  getNumAnagrams
    (numAnagramsMap
       (snd (importTextFile containsWord addWord (Some buffers) lexName
               loadDefinitions lex))) word st
  = (Z.of_nat
       (size (list_to_set
                (List.filter
                   (λ w, String.eqb (Auxil.getAlphagram w) (Auxil.getAlphagram word))
                   (wordsOf buffers)) : gset string)), st).
Proof.
intros Hgraph Hempty Hcounts Hdb Hcache Hvalid.
destruct (readWords_counts containsWord addWord Hgraph buffers loadDefinitions lex
            (Auxil.getAlphagram word)) as (_ & _ & Hcount).
unfold getNumAnagrams, getWordInfo, importTextFile. cbn [snd numAnagramsMap].
rewrite Hcache, Hdb. cbn [dbIsOpen negb].
assert ((if QStr.isEmpty word then (noInfo, st) else (noInfo, st)) = (noInfo, st))
  as -> by (by destruct (QStr.isEmpty word)).
rewrite Hvalid, Hcount, Hcounts, lookup_empty. cbn [default]. unfold newWords.
rewrite (filter_ext
           (λ w, String.eqb (Auxil.getAlphagram w) (Auxil.getAlphagram word)
                 && negb (containsWord (graph lex) w))
           (λ w, String.eqb (Auxil.getAlphagram w) (Auxil.getAlphagram word)))
  by (intros w; by rewrite Hempty, andb_true_r).
by rewrite Z.add_0_l.
Qed.

End Lookups.

(** *** [WordEngine::getFrontHookLetters] and [getBackHookLetters] *)

Lemma ascii_compare_antisym (a b : ascii) :
  Ascii.compare b a = CompOpp (Ascii.compare a b).
Proof. apply Ascii.compare_antisym. Qed.

Lemma ascii_compare_trans (a b c : ascii) :
  Ascii.compare a b = Lt → Ascii.compare b c = Lt → Ascii.compare a c = Lt.
Proof. unfold Ascii.compare. rewrite !N.compare_lt_iff. lia. Qed.

(** [QChar::toLower] on 8-bit text. *)
Definition toLowerChar (c : ascii) : ascii :=
if QStr.isUpper c then ascii_of_N (QStr.code c + 32) else c.

(** [w.at (0)] and [w.at (w.length() - 1)]: undefined on the empty string. *)
Definition firstLetter (w : string) : option ascii :=
match w with
| String c _ => Some c
| EmptyString => None
end.

Fixpoint lastLetter (w : string) : option ascii :=
match w with
| EmptyString => None
| String c EmptyString => Some c
| String _ r => lastLetter r
end.

(** The loop that puts a letter of every word into the set [letters]. *)
Fixpoint hookLetters (pick : string → option ascii) (words : list string)
    (letters : list ascii) : option (list ascii) :=
match words with
| [] => Some letters
| w :: rest =>
    match pick w with
    | Some c =>
        hookLetters pick rest (Ordered.setInsert Ascii.compare (toLowerChar c) letters)
    | None => None
    end
end.

Lemma hookLetters_spec (pick : string → option ascii) (words : list string) :
  ∀ letters out,
    StronglySorted (Ordered.lt Ascii.compare) letters →
    hookLetters pick words letters = Some out →
    StronglySorted (Ordered.lt Ascii.compare) out
    ∧ ∀ c, In c out
           ↔ In c letters ∨ ∃ w c', In w words ∧ pick w = Some c' ∧ c = toLowerChar c'.
Proof.
induction words as [|w rest IH]; intros letters out Hs; simpl.
- intros [= <-]. split; [done|]. intros c. split; [auto|]. by intros [?|(? & ? & [] & _)].
- destruct (pick w) as [c0|] eqn:E; [|done]. intros H.
  apply IH in H as [H1 H2];
    [|by apply Ordered.setInsert_sorted;
        [apply Ascii.compare_eq_iff|apply ascii_compare_antisym
        |apply ascii_compare_trans|]].
  split; [done|]. intros c. rewrite H2.
  rewrite (Ordered.setInsert_In Ascii.compare Ascii.compare_eq_iff). split.
  + intros [[->|Hin]|(w' & c' & Hw' & Hp & ->)]; [right|by left|right].
    * exists w, c0. auto.
    * exists w', c'. auto.
  + intros [Hin|(w' & c' & [<-|Hw'] & Hp & ->)]; [by left; right| |].
    * left. left. congruence.
    * right. exists w', c'. auto.
Qed.

Lemma hookLetters_defined (pick : string → option ascii) (words : list string) :
  ∀ letters,
    (∀ w, In w words → is_Some (pick w)) → is_Some (hookLetters pick words letters).
Proof.
induction words as [|w rest IH]; intros letters H; simpl; [eauto|].
destruct (H w (or_introl eq_refl)) as [c ->]. apply IH. intros w' Hw'. apply H. by right.
Qed.

Section Hooks.

(** The engine, as [search] needs it; [WordInfo::isValid]; and the
    specification and the condition as their constructors leave them,
    [SearchSpec] and [SearchCondition] being declared in headers that are
    not among the sources. *)
Variable db : option Table.
Variable optimize : SearchSpec → SearchSpec.
Variable wordGraphSearch : SearchSpec → list string.
Variable containsWord : string → bool.
Variable getNumCombinations : string → N.
Variable stringToSearchSet : string → SearchSet.
Variable stemAlphagrams : gmap Z (gset string).
Variable letterBag : string → N.
Variable isValid : WordInfo → bool.
Variable newSpec : SearchSpec.
Variable newCondition : SearchCondition.

(** The specification with the one condition [PatternMatch pattern]. *)
Definition patternSpec (pattern : string) : SearchSpec :=
mkSpec
  (conditions newSpec
   ++ [mkCondition PatternMatch pattern (minValue newCondition) (maxValue newCondition)
         (boolValue newCondition) (negated newCondition) (legacy newCondition)])%list
  (conjunction newSpec).

(** The two functions differ in the pattern, the letter taken from a word
    and the member of [WordInfo] returned. *)
Definition getHookLetters (member : WordInfo → string) (pattern : string)
    (pick : string → option ascii) (word : string) (st : State)
  : option (string * State) :=
let (info, st1) := getWordInfo db word st in
if isValid info then Some (member info, st1)
else
  match search db optimize wordGraphSearch containsWord getNumCombinations
          stringToSearchSet stemAlphagrams letterBag (patternSpec pattern) true st1 with
  | None => None
  | Some (words, st2) =>
      match hookLetters pick words [] with
      | None => None
      | Some letters => Some (string_of_list_ascii letters, st2)
      end
  end.

Definition getFrontHookLetters (word : string) (st : State) : option (string * State) :=
getHookLetters frontHooks ("?" ++ word) firstLetter word st.

Definition getBackHookLetters (word : string) (st : State) : option (string * State) :=
getHookLetters backHooks (word ++ "?") lastLetter word st.

Lemma getHookLetters_searched (member : WordInfo → string) (pattern : string)
    (pick : string → option ascii) (word : string) (st : State)
    (words : list string) (st2 : State) :
  isValid (fst (getWordInfo db word st)) = false →
  search db optimize wordGraphSearch containsWord getNumCombinations
    stringToSearchSet stemAlphagrams letterBag (patternSpec pattern) true
    (snd (getWordInfo db word st)) = Some (words, st2) →
  (∀ w, In w words → is_Some (pick w)) →
  ∃ letters,
    getHookLetters member pattern pick word st = Some (string_of_list_ascii letters, st2)
    ∧ StronglySorted (λ a b, (QStr.code a < QStr.code b)%N) letters
    ∧ ∀ c, In c letters ↔ ∃ w c', In w words ∧ pick w = Some c' ∧ c = toLowerChar c'.
Proof.
intros Hvalid Hsearch Hpick. unfold getHookLetters.
destruct (getWordInfo db word st) as [info st1]. cbn [fst snd] in Hvalid, Hsearch.
rewrite Hvalid, Hsearch.
destruct (hookLetters_defined pick words [] Hpick) as [letters Hletters].
rewrite Hletters. exists letters. split; [done|].
apply hookLetters_spec in Hletters as [H1 H2]; [|constructor]. split.
- eapply sorted_weaken; [|exact H1]. intros a b _ _.
  unfold Ordered.lt, Ascii.compare, QStr.code. by rewrite N.compare_lt_iff.
- intros c. rewrite H2. split; [|auto]. by intros [[]|?].
Qed.

(** When the store has no information on the word, its front hooks are
    found by a search for the pattern of one more letter before the word:
    the letters returned are the first letters of the words found, in lower
    case, each once and in alphabetical order; the back hooks likewise, from
    the pattern of one more letter after the word and the last letters.
    (The words found are not empty: the first letter of an empty word is
    not defined.) *)
Theorem hooks_are_the_letters_of_the_words_found
    (word : string) (st : State) (words : list string) (st2 : State) :
  isValid (fst (getWordInfo db word st)) = false →
  (∀ w, In w words → w ≠ EmptyString) →
  (search db optimize wordGraphSearch containsWord getNumCombinations
     stringToSearchSet stemAlphagrams letterBag (patternSpec ("?" ++ word)) true
     (snd (getWordInfo db word st)) = Some (words, st2) →
   ∃ letters,
     getFrontHookLetters word st = Some (string_of_list_ascii letters, st2)
     ∧ StronglySorted (λ a b, (QStr.code a < QStr.code b)%N) letters
     ∧ ∀ c, In c letters
            ↔ ∃ w c', In w words ∧ firstLetter w = Some c' ∧ c = toLowerChar c')
  ∧ (search db optimize wordGraphSearch containsWord getNumCombinations
       stringToSearchSet stemAlphagrams letterBag (patternSpec (word ++ "?")) true
       (snd (getWordInfo db word st)) = Some (words, st2) →
     ∃ letters,
       getBackHookLetters word st = Some (string_of_list_ascii letters, st2)
       ∧ StronglySorted (λ a b, (QStr.code a < QStr.code b)%N) letters
       ∧ ∀ c, In c letters
              ↔ ∃ w c', In w words ∧ lastLetter w = Some c' ∧ c = toLowerChar c').
Proof.
intros Hvalid Hwords. split; intros Hsearch.
- apply getHookLetters_searched; [done..|].
  intros w Hw. specialize (Hwords w Hw). destruct w; [done|]. simpl. eauto.
- apply getHookLetters_searched; [done..|].
  intros w Hw. specialize (Hwords w Hw). clear Hw.
  induction w as [|c w IH]; [done|]. destruct w as [|d w]; [simpl; eauto|].
  apply IH. done.
Qed.

End Hooks.

(** *** The markers [replaceDefinitionLinks] replaces *)

Lemma traceDefinitionLinks_step (getSubDefinition : string → string → string)
    (fuel : nat) (definition : string) (maxDepth : Z) (useFollow : bool) :
  Links.traceDefinitionLinks getSubDefinition (S fuel) definition maxDepth useFollow
  = match Links.findMarker definition with
    | None => Some (definition, [])
    | Some (isFollow, m) =>
        let replacement :=
          Links.replacementText getSubDefinition isFollow (isFollow || useFollow)
            (Links.cap1 m) (Links.cap2 m) maxDepth in
        let modified :=
          QStr.replace (Links.index m) (Links.matchedLength m) replacement definition in
        let here :=
          Links.mkSubstitution isFollow (isFollow || useFollow) maxDepth (Links.cap1 m)
            (Links.cap2 m) replacement in
        if maxDepth =? 0 then Some (modified, [here])
        else
          match Links.traceDefinitionLinks getSubDefinition fuel modified (maxDepth - 1)
                  (isFollow || useFollow) with
          | Some (result, later) => Some (result, here :: later)
          | None => None
          end
    end.
Proof. reflexivity. Qed.

Lemma traceDefinitionLinks_bounded (getSubDefinition : string → string → string)
    (n : nat) : ∀ definition useFollow,
  ∃ result trace,
    Links.traceDefinitionLinks getSubDefinition (S n) definition (Z.of_nat n) useFollow
    = Some (result, trace)
    ∧ (List.length trace ≤ S n)%nat
    ∧ (List.length trace = S n ∨ Links.findMarker result = None)
    ∧ map Links.atDepth trace
      = map (λ i, Z.of_nat n - Z.of_nat i) (seq 0 (List.length trace)).
Proof.
induction n as [|n IH]; intros definition useFollow;
  rewrite traceDefinitionLinks_step;
  destruct (Links.findMarker definition) as [[isFollow m]|] eqn:E;
  try (by exists definition, []; repeat split; [cbn; lia|right]).
- eexists _, _. split; [done|]. repeat split; [done|by left].
- cbv zeta. assert ((Z.of_nat (S n) =? 0) = false) as -> by (apply Z.eqb_neq; lia).
  replace (Z.of_nat (S n) - 1) with (Z.of_nat n) by lia.
  edestruct IH as (result & trace & -> & Hlen & Hend & Hdepth).
  eexists _, _. split; [done|]. cbn [List.length map seq Links.atDepth].
  split; [lia|]. split; [destruct Hend as [->|?]; [by left|by right]|].
  rewrite Hdepth, <- seq_shift, map_map.
  rewrite Z.sub_0_r. f_equal. apply map_ext. intros i. lia.
Qed.

(** Whatever the definitions are, a call of [replaceDefinitionLinks] with the
    depth [n] replaces one marker per call and at most [n + 1] in all, the
    markers its own replacements bring counted; the substitutions are made at
    the depths [n], [n - 1], ...; and when fewer than [n + 1] were made no
    marker is left in the result. *)
Theorem links_are_replaced_up_to_the_depth
    (getSubDefinition : string → string → string)
    (n : nat) (definition : string) (useFollow : bool) :
  ∃ result trace,
    Links.traceDefinitionLinks getSubDefinition (S n) definition (Z.of_nat n) useFollow
    = Some (result, trace)
    ∧ Links.replaceDefinitionLinks getSubDefinition (S n) definition (Z.of_nat n)
        useFollow = Some result
    ∧ (List.length trace ≤ S n)%nat
    ∧ (List.length trace = S n ∨ Links.findMarker result = None)
    ∧ map Links.atDepth trace
      = map (λ i, Z.of_nat n - Z.of_nat i) (seq 0 (List.length trace)).
Proof.
destruct (traceDefinitionLinks_bounded getSubDefinition n definition useFollow)
  as (result & trace & Hrun & Hrest).
exists result, trace. split; [exact Hrun|]. split; [|exact Hrest].
by rewrite Links.traceDefinitionLinks_result, Hrun.
Qed.

(** *** [WordEngine::getNewInOwl2String] *)

(** [file] is what the file of new words holds, [None] when it cannot be
    opened; the null string is the empty string. *)
Definition getNewInOwl2String (file : option (list string)) : string :=
match file with
| None => EmptyString
| Some buffers => QStr.join " " (Stems.entries buffers)
end.

Fixpoint spaceless (s : string) : Prop :=
match s with
| EmptyString => True
| String c r => QStr.isSpace c = false ∧ spaceless r
end.

Lemma append_empty (s : string) : s ++ EmptyString = s.
Proof. induction s as [|c s IH]; [done|]. by rewrite append_cons, IH. Qed.

Lemma spaceless_app (a b : string) : spaceless a → spaceless b → spaceless (a ++ b).
Proof.
induction a as [|c a IH]; [done|]. rewrite append_cons. simpl. intros [? ?] ?. auto.
Qed.

Lemma tokens_go_spaceless (s : string) : ∀ cur,
  spaceless cur →
  List.Forall (λ t, spaceless t ∧ t ≠ EmptyString) (QStr.tokens_go cur s).
Proof.
induction s as [|c s IH]; intros cur Hcur; simpl.
- destruct cur; simpl; [constructor|]. constructor; [by split|constructor].
- destruct (QStr.isSpace c) eqn:E.
  + apply List.Forall_app. split; [|by apply IH].
    destruct cur; simpl; [constructor|]. constructor; [by split|constructor].
  + apply IH. by apply spaceless_app.
Qed.

Lemma section0_token (t r : string) :
  spaceless t → QStr.section0 (t ++ String " " r) = t ∧ QStr.section0 t = t.
Proof.
induction t as [|c t IH]; [done|]. rewrite append_cons. simpl. intros [Hc Ht].
assert ((QStr.code c =? 32)%N = false) as ->.
{ unfold QStr.isSpace in Hc. by apply orb_false_iff in Hc as [_ ->]. }
destruct (IH Ht) as [-> ->]. done.
Qed.

Lemma entries_spaceless (file : list string) :
  List.Forall (λ t, spaceless t ∧ t ≠ EmptyString) (Stems.entries file).
Proof.
induction file as [|buffer rest IH]; simpl; [constructor|].
destruct (QStr.isEmpty buffer); [constructor|].
destruct (Stems.skipped (QStr.simplified buffer)) eqn:E; [done|].
constructor; [|done]. unfold QStr.simplified, QStr.tokens in *.
pose proof (tokens_go_spaceless buffer EmptyString I) as H.
destruct (QStr.tokens_go EmptyString buffer) as [|t ts]; [done|].
apply List.Forall_cons_iff in H as [[Ht Hne] _].
destruct ts as [|t' ts]; cbn [QStr.join].
- by rewrite (proj2 (section0_token t EmptyString Ht)).
- set (r := match ts with [] => t' | _ => _ end).
  change (t ++ " " ++ r) with (t ++ String " " r).
  by rewrite (proj1 (section0_token t r Ht)).
Qed.

Lemma tokens_go_app (t s : string) : ∀ cur,
  spaceless t → QStr.tokens_go cur (t ++ s) = QStr.tokens_go (cur ++ t) s.
Proof.
induction t as [|c t IH]; intros cur Ht.
- by rewrite append_empty.
- destruct Ht as [Hc Ht]. rewrite append_cons. cbn [QStr.tokens_go]. rewrite Hc.
  rewrite IH by done. by rewrite append_assoc, append_cons.
Qed.

Lemma tokens_join (l : list string) :
  List.Forall (λ t, spaceless t ∧ t ≠ EmptyString) l →
  QStr.tokens (QStr.join " " l) = l.
Proof.
unfold QStr.tokens. induction 1 as [|x l [Hx Hne] Hl IH]; [done|].
destruct l as [|y l].
- cbn [QStr.join]. rewrite <- (append_empty x) at 1. rewrite tokens_go_app by done.
  destruct x; done.
- change (QStr.join " " (x :: y :: l))
    with (x ++ String " " (QStr.join " " (y :: l))).
  rewrite tokens_go_app by done. cbn [QStr.tokens_go].
  change (QStr.isSpace " ") with true. cbv iota. rewrite IH.
  destruct x; done.
Qed.

(** The string [getNewInOwl2String] returns lists the words of the file
    separated by single spaces: cut at white space it gives back the first
    token of every line that is neither empty nor a comment, in the order of
    the file; it has no white space at its ends and no two spaces in a row;
    and it is empty exactly when the file has no such line. *)
Theorem new_words_string_splits_back (buffers : list string) :
  QStr.tokens (getNewInOwl2String (Some buffers)) = Stems.entries buffers
  ∧ QStr.simplified (getNewInOwl2String (Some buffers))
    = getNewInOwl2String (Some buffers)
  ∧ (getNewInOwl2String (Some buffers) = EmptyString ↔ Stems.entries buffers = []).
Proof.
pose proof (entries_spaceless buffers) as H. unfold getNewInOwl2String.
split; [by apply tokens_join|]. split.
- unfold QStr.simplified. by rewrite tokens_join.
- split.
  + intros Hnull. apply tokens_join in H. by rewrite Hnull in H.
  + by intros ->.
Qed.

(** ** A lexicon read from a file *)

Module Sample.

(** *** Definitions *)

Definition careDefinition : string := "to be concerned [v CARED] / a worry [n CARES]".

Lemma addDefinition_is_read_back_witness :
  (∀ getDefinition pos,
     Links.getSubDefinition false getDefinition
       (addDefinition "CARE" careDefinition ∅) "CARE" pos
     = match List.find (λ def, String.eqb (posOf def) pos)
               (Links.split " / " careDefinition) with
       | Some def => Links.leftOf " [" def
       | None => EmptyString
       end)
  ∧ (∀ other,
       addDefinition "CARE" other (addDefinition "CARE" careDefinition ∅)
       = addDefinition "CARE" careDefinition ∅).
Proof.
apply (addDefinition_is_read_back "CARE" careDefinition ∅); reflexivity.
Defined.

Example care_as_a_noun :
  Links.getSubDefinition false (λ _, EmptyString)
    (addDefinition "CARE" careDefinition ∅) "CARE" "n" = "a worry".
Proof. vm_compute. reflexivity. Qed.

(** With the three links [getDefinition] allows, four markers are replaced
    and the fifth stays. *)
Example fifth_marker_stays :
  Links.replaceDefinitionLinks (λ _ _, EmptyString) 4
    "{a=n} {b=n} {c=n} {d=n} {e=n}" 3 false
  = Some "a b c d {e=n}".
Proof. vm_compute. reflexivity. Qed.

(** *** Words *)

(** A word graph kept as the list of its words. *)
Definition holds (g : list string) (w : string) : bool :=
existsb (λ w', String.eqb w' w) g.

Lemma holds_cons (g : list string) (w w' : string) :
  holds (w :: g) w' = String.eqb w w' || holds g w'.
Proof. reflexivity. Qed.

Definition wordFile : list string :=
["care to mind"; "# a comment"; "race"; "Care"; "acre"; "ears"; ""; "sear"].

Definition raceOnly : Words := mkWords ["RACE"] {[ "ACER" := 1 ]} ∅ "old".

Definition nothing : Words := mkWords ([] : list string) ∅ ∅ EmptyString.

Example wordFile_words : wordsOf wordFile = ["CARE"; "RACE"; "CARE"; "ACRE"; "EARS"].
Proof. vm_compute. reflexivity. Qed.

Lemma importTextFile_counts_each_new_word_once_witness :
  fst (importTextFile holds cons (Some wordFile) "demo" true raceOnly)
  = Z.of_nat (List.length (wordsOf wordFile))
  ∧ (∀ w, holds (graph (snd (importTextFile holds cons (Some wordFile) "demo" true
                               raceOnly))) w
          = existsb (λ w', String.eqb w' w) (wordsOf wordFile) || holds (graph raceOnly) w)
  ∧ (∀ alpha,
       default 0 (numAnagramsMap (snd (importTextFile holds cons (Some wordFile) "demo"
                                         true raceOnly)) !! alpha)
       = default 0 (numAnagramsMap raceOnly !! alpha)
         + Z.of_nat (size (newWords holds (graph raceOnly) alpha (wordsOf wordFile))))
  ∧ lexiconName (snd (importTextFile holds cons (Some wordFile) "demo" true raceOnly))
    = "demo"
  ∧ importTextFile holds cons None "demo" true raceOnly = (0, raceOnly).
Proof.
exact (importTextFile_counts_each_new_word_once holds cons holds_cons wordFile "demo"
         true raceOnly).
Defined.

Example anagrams_after_import :
  fst (importTextFile holds cons (Some wordFile) "demo" true raceOnly) = 5
  ∧ numAnagramsMap (snd (importTextFile holds cons (Some wordFile) "demo" true raceOnly))
      !! "ACER" = Some 3.
Proof. vm_compute. split; reflexivity. Qed.

(** [WordInfo::isValid], taken as: the word of the record is not empty. *)
Definition hasWord (info : WordInfo) : bool := negb (QStr.isEmpty (info_word info)).

Lemma getNumAnagrams_counts_the_imported_words_witness :
  getNumAnagrams None hasWord
    (numAnagramsMap (snd (importTextFile holds cons (Some wordFile) "demo" true nothing)))
    "RACE" Demo.fresh
  = (Z.of_nat
       (size (list_to_set
                (List.filter
                   (λ w, String.eqb (Auxil.getAlphagram w) (Auxil.getAlphagram "RACE"))
                   (wordsOf wordFile)) : gset string)), Demo.fresh).
Proof.
apply (getNumAnagrams_counts_the_imported_words None hasWord holds cons wordFile "demo"
         true nothing "RACE" Demo.fresh); reflexivity.
Defined.

Example anagrams_of_race :
  getNumAnagrams None hasWord
    (numAnagramsMap (snd (importTextFile holds cons (Some wordFile) "demo" true nothing)))
    "RACE" Demo.fresh
  = (3, Demo.fresh).
Proof. vm_compute. reflexivity. Qed.

(** *** Hooks *)

(** A word graph that answers every search with the same four words. *)
Definition fourAnswers (spec : SearchSpec) : list string :=
["CARE"; "Bare"; "RARE"; "care"].

Definition afterHooks : State :=
snd (default (EmptyString, Demo.fresh)
       (getFrontHookLetters (Some Demo.table) Demo.keep fourAnswers Demo.inLexicon
          Demo.combinations Demo.noSearchSet Demo.noStems Demo.combinations hasWord
          (mkSpec [] true) (Demo.condition Length EmptyString 0 0 false) "ARE"
          Demo.fresh)).

Lemma hooks_are_the_letters_of_the_words_found_witness :
  (∃ letters,
     getFrontHookLetters (Some Demo.table) Demo.keep fourAnswers Demo.inLexicon
       Demo.combinations Demo.noSearchSet Demo.noStems Demo.combinations hasWord
       (mkSpec [] true) (Demo.condition Length EmptyString 0 0 false) "ARE" Demo.fresh
     = Some (string_of_list_ascii letters, afterHooks)
     ∧ StronglySorted (λ a b, (QStr.code a < QStr.code b)%N) letters
     ∧ ∀ c, In c letters
            ↔ ∃ w c', In w ["CARE"; "BARE"; "RARE"; "CARE"]
                      ∧ firstLetter w = Some c' ∧ c = toLowerChar c')
  ∧ (∃ letters,
       getBackHookLetters (Some Demo.table) Demo.keep fourAnswers Demo.inLexicon
         Demo.combinations Demo.noSearchSet Demo.noStems Demo.combinations hasWord
         (mkSpec [] true) (Demo.condition Length EmptyString 0 0 false) "ARE" Demo.fresh
       = Some (string_of_list_ascii letters, afterHooks)
       ∧ StronglySorted (λ a b, (QStr.code a < QStr.code b)%N) letters
       ∧ ∀ c, In c letters
              ↔ ∃ w c', In w ["CARE"; "BARE"; "RARE"; "CARE"]
                        ∧ lastLetter w = Some c' ∧ c = toLowerChar c').
Proof.
pose proof (hooks_are_the_letters_of_the_words_found (Some Demo.table) Demo.keep
              fourAnswers Demo.inLexicon Demo.combinations Demo.noSearchSet Demo.noStems
              Demo.combinations hasWord (mkSpec [] true)
              (Demo.condition Length EmptyString 0 0 false) "ARE" Demo.fresh
              ["CARE"; "BARE"; "RARE"; "CARE"] afterHooks) as H.
destruct H as [Hfront Hback].
- vm_compute. reflexivity.
- intros w [<-|[<-|[<-|[<-|[ ] ] ] ] ]; discriminate.
- split; [apply Hfront|apply Hback]; vm_compute; reflexivity.
Defined.

Example hooks_of_are :
  (fst <$> getFrontHookLetters (Some Demo.table) Demo.keep fourAnswers Demo.inLexicon
             Demo.combinations Demo.noSearchSet Demo.noStems Demo.combinations hasWord
             (mkSpec [] true) (Demo.condition Length EmptyString 0 0 false) "ARE"
             Demo.fresh)
  = Some "bcr"
  ∧ (fst <$> getFrontHookLetters (Some Demo.table) Demo.keep fourAnswers Demo.inLexicon
               Demo.combinations Demo.noSearchSet Demo.noStems Demo.combinations hasWord
               (mkSpec [] true) (Demo.condition Length EmptyString 0 0 false) "EARS"
               Demo.fresh)
    = Some "bdfghlnprstwy".
Proof. vm_compute. split; reflexivity. Qed.

End Sample.

End Lexicon.

(** ** The main window: [MainWindow::importStems] *)

Module MainWindow.

(** The loop over [stemFiles]: every file is handed to the engine, [None]
    standing for a file that cannot be opened, and what the engine returns is
    added to the total. *)
Fixpoint importStemFiles (stemFiles : list (option (list string)))
    (a : Z * Stems.State) : option (Z * Stems.State) :=
match stemFiles with
| [] => Some a
| file :: rest =>
    match Stems.importStems file (snd a) with
    | Some (imported, st) => importStemFiles rest (fst a + imported, st)
    | None => None
    end
end.

(** [importStems], on the contents of the files of six-letter and of
    seven-letter stems. *)
Definition importStems (sixes sevens : option (list string)) (st : Stems.State)
  : option (Z * Stems.State) :=
importStemFiles [sixes; sevens] (0, st).

(** The alphagrams kept under a length are those of the stems kept under
    it. *)
Definition consistent (st : Stems.State) : Prop :=
∀ n, Stems.stemAlphagrams st !! n = Stems.alphagramSet <$> Stems.stems st !! n.

(** The stems kept under a length have that length. *)
Definition sized (st : Stems.State) : Prop :=
∀ n ws w, Stems.stems st !! n = Some ws → In w ws → QStr.len w = n.

(** The files that opened, and the number of those that did not. *)
Definition opened (stemFiles : list (option (list string))) : list (list string) :=
omap id stemFiles.

Definition unopened (stemFiles : list (option (list string))) : nat :=
List.length (List.filter (λ file, negb (bool_decide (is_Some file))) stemFiles).

(** The stems a list of files brings under the length [n]. *)
Definition stemsOf (n : Z) (files : list (list string)) : list string :=
concat (map (λ file, if Stems.firstLength file =? n then Stems.accepted file else [])
          files).

Lemma consistent_wf (st : Stems.State) : consistent st → Stems.wf st.
Proof.
intros H n. rewrite (H n). destruct (Stems.stems st !! n); simpl; split; eauto.
all: by intros [? [=]].
Qed.

Lemma alphagramSet_app (l1 l2 : list string) :
  Stems.alphagramSet (l1 ++ l2) = Stems.alphagramSet l1 ∪ Stems.alphagramSet l2.
Proof. unfold Stems.alphagramSet. rewrite map_app. set_solver. Qed.

Lemma importStems_file (file : list string) (st : Stems.State) :
  consistent st → sized st →
  ∃ st',
    Stems.importStems (Some file) st
    = Some (Z.of_nat (List.length (Stems.accepted file)), st')
    ∧ consistent st' ∧ sized st'
    ∧ ∀ n, default [] (Stems.stems st' !! n)
           = (default [] (Stems.stems st !! n)
              ++ (if Stems.firstLength file =? n then Stems.accepted file else []))%list.
Proof.
intros Hc Hs.
destruct (Stems.importStems_call file st (consistent_wf st Hc))
  as (st' & Hcall & Hstems & Halpha & Hother & _).
exists st'. split; [exact Hcall|]. split; [|split].
- intros n. destruct (decide (n = Stems.firstLength file)) as [->|Hn].
  + rewrite Hstems, Halpha, (Hc (Stems.firstLength file)). simpl. f_equal.
    destruct (Stems.stems st !! Stems.firstLength file) as [old|]; simpl.
    * by rewrite alphagramSet_app.
    * set_solver.
  + destruct (Hother n Hn) as [-> ->]. apply Hc.
- intros n ws w. destruct (decide (n = Stems.firstLength file)) as [->|Hn].
  + rewrite Hstems. intros [= <-] [Hin|Hin]%in_app_iff.
    * destruct (Stems.stems st !! Stems.firstLength file) as [old|] eqn:E; [|done].
      by apply (Hs _ old).
    * pose proof (Stems.accepted_length file) as Hlen.
      rewrite List.Forall_forall in Hlen. by apply Hlen.
  + destruct (Hother n Hn) as [-> _]. apply Hs.
- intros n. destruct (decide (n = Stems.firstLength file)) as [->|Hn].
  + by rewrite Hstems, Z.eqb_refl.
  + destruct (Hother n Hn) as [-> _].
    assert ((Stems.firstLength file =? n) = false) as -> by (apply Z.eqb_neq; congruence).
    by rewrite app_nil_r.
Qed.

Lemma importStemFiles_run (stemFiles : list (option (list string))) :
  ∀ total st,
    consistent st → sized st →
    ∃ st',
      importStemFiles stemFiles (total, st)
      = Some (total
              + Z.of_nat (List.length (concat (map Stems.accepted (opened stemFiles))))
              - Z.of_nat (unopened stemFiles), st')
      ∧ consistent st' ∧ sized st'
      ∧ ∀ n, default [] (Stems.stems st' !! n)
             = (default [] (Stems.stems st !! n) ++ stemsOf n (opened stemFiles))%list.
Proof.
induction stemFiles as [|file rest IH]; intros total st Hc Hs.
- exists st. cbn. split; [f_equal; f_equal; lia|]. split; [done|]. split; [done|].
  intros n. by rewrite app_nil_r.
- destruct file as [file|]; cbn [importStemFiles snd fst].
  + destruct (importStems_file file st Hc Hs) as (st1 & -> & Hc1 & Hs1 & H1).
    destruct (IH (total + Z.of_nat (List.length (Stems.accepted file))) st1 Hc1 Hs1)
      as (st' & -> & Hc' & Hs' & H').
    exists st'. split; [|split; [done|split; [done|]]].
    * f_equal. f_equal. unfold opened, unopened. cbn.
      rewrite length_app. lia.
    * intros n. rewrite H', H1. unfold opened, stemsOf. cbn. by rewrite <- app_assoc.
  + cbn [Stems.importStems].
    destruct (IH (total + -1) st Hc Hs) as (st' & -> & Hc' & Hs' & H').
    exists st'. split; [|split; [done|split; [done|]]].
    * f_equal. f_equal. unfold opened, unopened. cbn. lia.
    * intros n. by rewrite H'.
Qed.

(** From an engine in which the stems kept under a length have that length,
    and the alphagrams kept under it are theirs (the engine as it starts, for
    one), the import of any list of stem files is defined: the total returned
    is the number of stems accepted from the files that opened, less one for
    every file that did not open; afterwards the stems under every length
    are those there were followed by those the files brought, file by file,
    all of that length, and the alphagrams are again theirs. *)
Theorem stem_files_total_counts_failures
    (stemFiles : list (option (list string))) (st : Stems.State) :
  consistent st → sized st →
  ∃ st',
    importStemFiles stemFiles (0, st)
    = Some (Z.of_nat (List.length (concat (map Stems.accepted (opened stemFiles))))
            - Z.of_nat (unopened stemFiles), st')
    ∧ consistent st' ∧ sized st'
    ∧ ∀ n, default [] (Stems.stems st' !! n)
           = (default [] (Stems.stems st !! n) ++ stemsOf n (opened stemFiles))%list.
Proof.
intros Hc Hs. destruct (importStemFiles_run stemFiles 0 st Hc Hs) as (st' & H & Hrest).
exists st'. by rewrite Z.add_0_l in H.
Qed.

Lemma consistent_empty : consistent Stems.empty.
Proof. intros n. unfold Stems.empty; simpl. by rewrite !lookup_empty. Qed.

Lemma sized_empty : sized Stems.empty.
Proof. intros n ws w. unfold Stems.empty; simpl. by rewrite lookup_empty. Qed.

Lemma stem_files_total_counts_failures_witness :
  ∃ st',
    importStemFiles [Some Stems.sixes; None; Some Stems.moreSixes] (0, Stems.empty)
    = Some (Z.of_nat (List.length
                        (concat (map Stems.accepted
                                   (opened [Some Stems.sixes; None;
                                            Some Stems.moreSixes]))))
            - Z.of_nat (unopened [Some Stems.sixes; None; Some Stems.moreSixes]), st')
    ∧ consistent st' ∧ sized st'
    ∧ ∀ n, default [] (Stems.stems st' !! n)
           = (default [] (Stems.stems Stems.empty !! n)
              ++ stemsOf n (opened [Some Stems.sixes; None; Some Stems.moreSixes]))%list.
Proof.
apply (stem_files_total_counts_failures
         [Some Stems.sixes; None; Some Stems.moreSixes] Stems.empty).
- exact consistent_empty.
- exact sized_empty.
Defined.

(** Two stems and a file that does not open: one stem is reported. *)
Example one_file_missing :
  (fst <$> importStems (Some Stems.sixes) None Stems.empty) = Some 1
  ∧ (fst <$> importStems None None Stems.empty) = Some (-2).
Proof. vm_compute. split; reflexivity. Qed.

End MainWindow.

(** ** The quiz database: [QuizDatabase::setQuestion] *)

Module QuizDatabase.

(** The values bound to a statement: numbers and strings. *)
Inductive QVariant :=
| VInt (n : Z)
| VString (s : string).

(** The loop over [iParam].  Every turn calls [next] twice: the item of the
    first call is dropped, the item of the second is bound to the next
    placeholder.  [next] on an iterator that has no next item is undefined. *)
Fixpoint bindParams (params : list QVariant) (bindNum : Z) (bound : list (Z * QVariant))
  : option (list (Z * QVariant)) :=
match params with
| [] => Some bound
| [_] => None
| _ :: v :: rest => bindParams rest (bindNum + 1) (bound ++ [(bindNum, v)])
end.

Definition updateQuestion : string :=
"UPDATE questions SET status=?, name=? WHERE question_index=?".

Definition insertQuestion : string :=
"INSERT INTO questions (question_index, status, name) VALUES (?, ?, ?)".

(** [setQuestion (index, question)], for a question of status [status] and
    name [name].  [connected] tells whether the database is open or opens,
    [existing] whether [getQuestion (index)] returned a valid question, and
    [exec] is [QSqlQuery::exec] on a statement and its bound values; the
    three stand for the connection and for [QuizQuestion], which are not
    among the sources. *)
Definition setQuestion (connected existing : bool)
    (exec : string → list (Z * QVariant) → bool)
    (index status : Z) (name : string) : option bool :=
if negb connected then Some false
else
  let queryStr := if existing then updateQuestion else insertQuestion in
  let params :=
    if existing then [VInt status; VString name; VInt index]
    else [VInt index; VInt status; VString name] in
  match bindParams params 0 [] with
  | None => None
  | Some bound => Some (exec queryStr bound)
  end.

(** The items at the second, fourth, ... place of a list. *)
Fixpoint everySecond (params : list QVariant) : list QVariant :=
match params with
| _ :: v :: rest => v :: everySecond rest
| _ => []
end.

Fixpoint numbered (bindNum : Z) (values : list QVariant) : list (Z * QVariant) :=
match values with
| [] => []
| v :: rest => (bindNum, v) :: numbered (bindNum + 1) rest
end.

Lemma bindParams_pairs (params : list QVariant) :
  (∀ bindNum bound,
     bindParams params bindNum bound
     = if Nat.even (List.length params)
       then Some (bound ++ numbered bindNum (everySecond params))%list
       else None)
  ∧ (∀ p bindNum bound,
       bindParams (p :: params) bindNum bound
       = if Nat.even (List.length (p :: params))
         then Some (bound ++ numbered bindNum (everySecond (p :: params)))%list
         else None).
Proof.
induction params as [|q params [IH1 IH2]].
- split; intros; cbn; [by rewrite app_nil_r|done].
- split; [exact (IH2 q)|]. intros p bindNum bound.
  cbn [bindParams everySecond numbered List.length Nat.even].
  rewrite IH1. destruct (Nat.even (List.length params)); [|done].
  by rewrite <- app_assoc.
Qed.

(** The loop binds every second parameter only, the second to the first
    placeholder, the fourth to the second and so on, and reads past the end
    of the list when the number of parameters is odd.  [setQuestion] always
    hands it three parameters: once the database is connected, the call
    reads past its parameters whatever the index and the question are, for
    an update as for an insertion, and the statement is not run with the
    three values in their places. *)
Theorem setQuestion_binds_every_second_parameter
    (params : list QVariant) (existing : bool)
    (exec : string → list (Z * QVariant) → bool) (index status : Z) (name : string) :
  bindParams params 0 []
  = (if Nat.even (List.length params)
     then Some (numbered 0 (everySecond params))
     else None)
  ∧ List.length (everySecond params) = Nat.div2 (List.length params)
  ∧ setQuestion true existing exec index status name = None
  ∧ setQuestion false existing exec index status name = Some false.
Proof.
split; [apply (bindParams_pairs params)|]. split.
- assert (List.length (everySecond params) = Nat.div2 (List.length params)
          ∧ ∀ p, List.length (everySecond (p :: params))
                 = Nat.div2 (List.length (p :: params))) as [H _]; [|exact H].
  induction params as [|q params [IH1 IH2]]; [done|].
  split; [exact (IH2 q)|]. intros p. cbn [everySecond List.length Nat.div2].
  by rewrite IH1.
- by destruct existing.
Qed.

End QuizDatabase.
